(** * videobatch: frame-streaming pipeline and the Pixylation tracking engine

    A shallow embedding of [src/videobatch/__init__.py] (the package, called
    "rewritten" below) and of [src/videobatch.py] (the single-module variant,
    called "legacy", in [Module Legacy]).

    Conventions of the embedding:
    - Python integers are [Z]; array lengths and list positions are [nat].
    - numpy float64 values are exact rationals ([Qc]) extended with [NaN] and
      the two infinities; rounding error of binary floating point is not
      modelled, so every statement about a float is a statement of exact
      arithmetic.
    - an [ndarray] of shape (h, w) is a list of h rows; numpy's index rules
      (negative positions count from the end, anything else out of range
      raises [IndexError]) are written out in [np_index].
    - a Python [dict] whose iteration order matters is an association list in
      insertion order; a dict read from a JSON object and only looked up by
      key is a [gmap].
    - code that can raise returns [option] or [result].
    - of the other commands, [Projection] is embedded in its default mode
      ([projtype == "max"]). *)

From Stdlib Require Import ZArith QArith Qcanon Qround Lia Lqa Ascii.
From stdpp Require Import base numbers list strings gmap pretty.

Open Scope Z_scope.

(** ** numpy scalars *)

(** A float64 value, with exact rationals for the finite ones. *)
Inductive float : Type :=
  | NaN
  | Inf (negative : bool)
  | Fin (q : Qc).

(** [a / b] on float64 scalars that are both finite. *)
Definition np_div (a b : Qc) : float :=
  if decide (b = 0%Qc) then
    if decide (a = 0%Qc) then NaN else Inf (bool_decide (a < 0)%Qc)
  else Fin (a / b)%Qc.

(** [v + k] for a float [v] and a finite [k]. *)
Definition np_add (v : float) (k : Qc) : float :=
  match v with
  | Fin q => Fin (q + k)%Qc
  | other => other
  end.

(** [numpy.around] on a scalar: nearest integer, ties to the even one. *)
Definition around (q : Q) : Z :=
  let f := Qfloor q in
  match (q - inject_Z f ?= 1 # 2)%Q with
  | Lt => f
  | Gt => f + 1
  | Eq => if Z.even f then f else f + 1
  end.

(** ** The hue / luma tables ([_initialize_tables]) *)

Record Pixel : Type := RGB { red : Z; green : Z; blue : Z }.

Definition max3 (r g b : Z) : Z := Z.max (Z.max r g) b.
Definition min3 (r g b : Z) : Z := Z.min (Z.min r g) b.

(** The entry that [_initialize_tables] stores at [_Htable[r, g, b]].  The
    three masked assignments of the source run in this order: [D == 0], then
    [m == B], then [m == R], then whatever is left. *)
Definition _Htable (r g b : Z) : Z :=
  let M := max3 r g b in
  let m := min3 r g b in
  let D := M - m in
  if D =? 0 then -1
  else if m =? b then around (60 * (1 + inject_Z (g - r) / inject_Z D))
  else if m =? r then around (60 * (3 + inject_Z (b - g) / inject_Z D))
  else around (60 * (5 + inject_Z (r - b) / inject_Z D)).

(** The entry stored at [_Ltable[r, g, b]]. *)
Definition _Ltable (r g b : Z) : Qc :=
  ((Q2Qc (212 # 1000) * Qc_of_Z r + Q2Qc (701 # 1000) * Qc_of_Z g
    + Q2Qc (87 # 1000) * Qc_of_Z b) / Qc_of_Z 255)%Qc.


Definition uint8 (v : Z) : Prop := 0 <= v <= 255.
Definition achromatic (r g b : Z) : Prop := r = g /\ g = b.

(** ** numpy arrays *)

(** A two-dimensional array is the list of its rows; its shape is read off
    the row list (a decoded frame always has at least one row). *)
Definition shape {A} (a : list (list A)) : nat * nat :=
  (length a, length (default [] (head a))).

Definition rectangular {A} (a : list (list A)) : Prop :=
  Forall (fun row => length row = (shape a).2) a.

(** [numpy.arange(a, b)] on integers. *)
Definition arange (a b : Z) : list Z := seqZ a (b - a).

(** [numpy.meshgrid(xs, ys, indexing='xy')]: two arrays of shape
    (len ys, len xs). *)
Definition meshgrid_xy (xs ys : list Z) : list (list Z) * list (list Z) :=
  ((fun _ => xs) <$> ys, (fun y => (fun _ => y) <$> xs) <$> ys).

(** [a.flatten()]: row-major. *)
Definition flatten {A} (a : list (list A)) : list A := concat a.

(** [numpy.zeros(a.shape)] with [z] for the zero element. *)
Definition zeros_like {A B} (z : B) (a : list (list A)) : list (list B) :=
  replicate (shape a).1 (replicate (shape a).2 z).

(** One integer index into an axis of length [n]: negative positions count
    from the end, everything else outside [-n, n) raises [IndexError]. *)
Definition np_index (n : nat) (i : Z) : option nat :=
  if decide (0 <= i < Z.of_nat n) then Some (Z.to_nat i)
  else if decide (- Z.of_nat n <= i < 0) then Some (Z.to_nat (Z.of_nat n + i))
  else None.

(** The position [a[y, x]] denotes, when both indices are in range. *)
Definition np_position {A} (a : list (list A)) (y x : Z) : option (nat * nat) :=
  i ← np_index (shape a).1 y; j ← np_index (shape a).2 x; Some (i, j).

Definition grid_lookup {A} (a : list (list A)) (p : nat * nat) : option A :=
  row ← a !! p.1; row !! p.2.

Definition grid_insert {A} (p : nat * nat) (v : A) (a : list (list A)) :
    list (list A) :=
  alter (fun row => <[p.2 := v]> row) p.1 a.

(** [a[y, x]] read. *)
Definition getitem2 {A} (a : list (list A)) (y x : Z) : option A :=
  p ← np_position a y x; grid_lookup a p.

(** [a[ys, xs]]: integer-array indexing with two index vectors. *)
Definition take_points {A} (a : list (list A)) (ys xs : list Z) : option (list A) :=
  mapM (fun yx : Z * Z => getitem2 a yx.1 yx.2) (zip ys xs).

(** [a[ys, xs] = v]: every index is checked before anything is written. *)
Definition put_points {A} (a : list (list A)) (ys xs : list Z) (v : A) :
    option (list (list A)) :=
  ps ← mapM (fun yx : Z * Z => np_position a yx.1 yx.2) (zip ys xs);
  Some (foldl (fun acc p => grid_insert p v acc) a ps).

(** [v[mask]] for a vector and a boolean vector of the same length. *)
Fixpoint select {A} (mask : list bool) (v : list A) : list A :=
  match mask, v with
  | m :: mask', x :: v' => if m then x :: select mask' v' else select mask' v'
  | _, _ => []
  end.

(** [a[mask]] for a 2-D array and a boolean array of the same shape: the
    selected entries in row-major order. *)
Definition select2 {A} (mask : list (list bool)) (a : list (list A)) : list A :=
  concat (zip_with select mask a).

(** [a[mask, :] = v] on an array of shape (h, w, 3) and a (h, w) mask. *)
Definition put_mask {A} (mask : list (list bool)) (v : A) (a : list (list A)) :
    list (list A) :=
  zip_with (zip_with (fun (m : bool) old => if m then v else old)) mask a.

Definition count_nonzero (mask : list bool) : nat :=
  length (filter (fun m : bool => m = true) mask).

Definition count_nonzero2 (mask : list (list bool)) : nat :=
  count_nonzero (concat mask).

(** [v.sum()] of a float vector. *)
Definition np_sum (v : list Qc) : Qc := foldr Qcplus 0%Qc v.

(** [(xs * ws).sum()] for an integer vector and a float vector. *)
Definition weighted_sum (xs : list Z) (ws : list Qc) : Qc :=
  np_sum (zip_with (fun x w => (Qc_of_Z x * w)%Qc) xs ws).

(** A slice bound [k] on an axis of length [n], as Python clamps it. *)
Definition slice_bound (n : nat) (k : Z) : nat :=
  if decide (k < 0) then Z.to_nat (Z.max 0 (Z.of_nat n + k))
  else Z.to_nat (Z.min k (Z.of_nat n)).

(** ** Colour classes ([ColorMask]) *)

Record ColorMask : Type := {
  onset : Qc;
  offset : Qc;
  color : Pixel
}.

(** [matplotlib.cm.hsv] is a colormap of the plotting library, taken as a
    parameter: position in [0,1] to (r, g, b), the alpha channel dropped. *)
Definition colormap : Type := Qc -> Qc * Qc * Qc.

Definition to_byte_level (c : Qc) : Z := around (this (c * Qc_of_Z 255)%Qc).

Definition hue_color (_hsv : colormap) (on off : Qc) : Pixel :=
  let '(r, g, b) := _hsv ((on + off) / Qc_of_Z 720)%Qc in
  RGB (to_byte_level r) (to_byte_level g) (to_byte_level b).

Definition ColorMask__init__ (_hsv : colormap) (on off : Qc) : ColorMask :=
  {| onset := on; offset := off; color := hue_color _hsv on off |}.

Definition hue_in (on off : Qc) (h : Z) : bool :=
  bool_decide (on <= Qc_of_Z h)%Qc && bool_decide (Qc_of_Z h < off)%Qc.

(** [ColorMask.apply(hues)] *)
Definition ColorMask_apply (c : ColorMask) (hues : list Z) : list bool :=
  hue_in (onset c) (offset c) <$> hues.

(** ** Regions ([ROI], [RectangularROI], [MaskROI]) *)

(** Both subclasses only fill in the two coordinate vectors; they are built
    together and have the same length. *)
Record ROI : Type := {
  xpos : list Z;
  ypos : list Z
}.

Definition ROI_is_empty (roi : ROI) : bool := bool_decide (length (xpos roi) = 0%nat).

(** [ROI.crop(frame)]: the pixels under the region, as an (N, 3) array. *)
Definition ROI_crop (roi : ROI) (frame : list (list Pixel)) : option (list Pixel) :=
  take_points frame (ypos roi) (xpos roi).

(** [ROI.mark(frame, mask, value)] *)
Definition ROI_mark (roi : ROI) (frame : list (list Pixel)) (mask : list bool)
    (value : Pixel) : option (list (list Pixel)) :=
  put_points frame (select mask (ypos roi)) (select mask (xpos roi)) value.

(** [RectangularROI(specs)]: [specs] is the JSON object of the region. *)
Definition RectangularROI (specs : gmap string Z) : ROI :=
  let x := default 0 (specs !! "x") in
  let y := default 0 (specs !! "y") in
  let w := default 1 (specs !! "w") in
  let h := default 1 (specs !! "h") in
  let xvals := arange x (x + w) in
  let yvals := arange y (y + h) in
  let '(xgrid, ygrid) := meshgrid_xy xvals yvals in
  {| xpos := flatten xgrid; ypos := flatten ygrid |}.

Definition rect_specs (x y w h : Z) : gmap string Z :=
  <["x" := x]> (<["y" := y]> (<["w" := w]> (<["h" := h]> ∅))).

(** [numpy.where(mask)] on a 2-D boolean array: row and column positions of
    the true entries, row-major. *)
Definition np_where (mask : list (list bool)) : list Z * list Z :=
  let hits :=
    concat (imap (fun i row =>
      omap (fun jm : nat * bool => if jm.2 then Some (i, jm.1) else None)
           (imap (fun j m => (j, m)) row)) mask) in
  ((fun p : nat * nat => Z.of_nat p.1) <$> hits,
   (fun p : nat * nat => Z.of_nat p.2) <$> hits).

(** [MaskROI(path)], given the image that [imread(path)] returned. *)
Definition MaskROI (image : list (list Z)) : ROI :=
  let mask := (fun row : list Z => (fun v : Z => negb (v =? 0)) <$> row) <$> image in
  let '(ys, xs) := np_where mask in
  {| xpos := xs; ypos := ys |}.

(** The coordinate set a region denotes: its (x, y) pairs in order. *)
Definition ROI_coordinates (roi : ROI) : list (Z * Z) := zip (xpos roi) (ypos roi).

(** ** Strings, paths and number formatting *)

(** The line terminator the source writes. *)
Definition newline : string := String "010"%char "".

(** [sep.join(parts)] *)
Fixpoint str_join (sep : string) (parts : list string) : string :=
  match parts with
  | [] => ""
  | [p] => p
  | p :: rest => p +:+ sep +:+ str_join sep rest
  end.

Definition starts_with_sep (s : string) : bool :=
  match s with
  | String c _ => bool_decide (c = "/"%char)
  | EmptyString => false
  end.

Fixpoint ends_with_sep (s : string) : bool :=
  match s with
  | EmptyString => false
  | String c EmptyString => bool_decide (c = "/"%char)
  | String _ rest => ends_with_sep rest
  end.

(** [os.path.join(a, b)] of [posixpath]. *)
Definition os_path_join (a b : string) : string :=
  if starts_with_sep b then b
  else if bool_decide (a = "") || ends_with_sep a then a +:+ b
  else a +:+ "/" +:+ b.

(** [s.rfind(c)]: the last position of [c], or -1. *)
Fixpoint rfind_from (c : Ascii.ascii) (s : string) (i : Z) (found : Z) : Z :=
  match s with
  | EmptyString => found
  | String c' rest =>
      rfind_from c rest (i + 1) (if bool_decide (c' = c) then i else found)
  end.

Definition rfind (c : Ascii.ascii) (s : string) : Z := rfind_from c s 0 (-1).

Definition char_at (s : string) (i : nat) : option Ascii.ascii := String.get i s.

(** [os.path.splitext(p)] of [posixpath]: the extension starts at the last
    dot of the last path component, leading dots of that component apart. *)
Definition os_path_splitext (p : string) : string * string :=
  let sepIndex := rfind "/"%char p in
  let dotIndex := rfind "."%char p in
  if decide (sepIndex < dotIndex) then
    let between := seqZ (sepIndex + 1) (dotIndex - (sepIndex + 1)) in
    if existsb (fun i => negb (bool_decide (char_at p (Z.to_nat i) = Some "."%char)))
               between
    then (String.substring 0 (Z.to_nat dotIndex) p,
          String.substring (Z.to_nat dotIndex) (String.length p - Z.to_nat dotIndex) p)
    else (p, "")
  else (p, "").

(** [os.path.split(p)[1]] of [posixpath]: what follows the last slash. *)
Definition os_path_tail (p : string) : string :=
  let i := Z.to_nat (rfind "/"%char p + 1) in
  String.substring i (String.length p - i) p.



(** [_mask_entries(maskname)] *)
Definition _mask_entries (maskname : string) : string :=
  maskname +:+ "_CM_X," +:+ maskname +:+ "_CM_Y".

Definition digit (d : Z) : Ascii.ascii := pretty_N_char (Z.to_N d).

(** The fractional part of a [.4f] field: four digits, zero padded. *)
Definition four_digits (n : Z) : string :=
  String (digit (n / 1000 mod 10)) (String (digit (n / 100 mod 10))
    (String (digit (n / 10 mod 10)) (String (digit (n mod 10)) ""))).

(** ["{0:.4f}".format(v)]: the nearest multiple of 1/10000, ties to even;
    a negative value keeps its sign even when it rounds to zero. *)
Definition format_4f (v : float) : string :=
  match v with
  | NaN => "nan"
  | Inf false => "inf"
  | Inf true => "-inf"
  | Fin q =>
      let n := Z.abs (around (this q * 10000)) in
      (if bool_decide (q < 0)%Qc then "-" else "")
        +:+ pretty (n / 10000) +:+ "." +:+ four_digits (n mod 10000)
  end.

(** The line [__update__] writes for frame [i]. *)
Definition result_row (i : nat) (values : list float) : string :=
  pretty i +:+ "," +:+ str_join "," (format_4f <$> values) +:+ newline.

(** The two lines [__start__] writes when it opens a result file. *)
Definition result_header (masknames : list string) : string :=
  ("Slice," +:+ str_join "," (_mask_entries <$> masknames)) +:+ newline.

(** ** Exceptions, files and the outside world *)

Inductive exn : Type :=
  | ValueError (msg : string)
  | RuntimeError (msg : string)
  | IndexError
  | KeyError (key : string)
  | UnboundLocalError (var : string)
  | OSError (path : string).

(** What a call leaves behind besides the new state: it returned, or it
    raised. *)
Inductive outcome : Type :=
  | Returned
  | Raised (e : exn).

Inductive result (A : Type) : Type :=
  | Ok (a : A)
  | Raise (e : exn).
Arguments Ok {A} a.
Arguments Raise {A} e.

(** A text file opened for writing: where it is and what was written. *)
Record TextFile : Type := {
  fpath : string;
  ftext : string;
  fclosed : bool
}.

(** An [FFmpegWriter]: where it writes and the frames pushed so far. *)
Record VideoWriter : Type := {
  wpath : string;
  wframes : list (list (list Pixel));
  wclosed : bool
}.

(** A video as the decoder delivers it: its frames, and whether decoding
    breaks off with an error after the last of them. *)
Record Video : Type := {
  vframes : list (list (list Pixel));
  vbroken : bool
}.

(** The collaborators the source reaches through library calls. *)
Record OS : Type := {
  getcwd : string;
  imread : string -> option (list (list Z));
  ensure_directory : string -> bool;
  can_open : string -> bool;
  can_encode : string -> bool;
  video_at : string -> option Video;
  glob : string -> list string
}.

Definition file_write (fp : TextFile) (s : string) : result TextFile :=
  if fclosed fp then Raise (ValueError "I/O operation on closed file")
  else Ok {| fpath := fpath fp; ftext := ftext fp +:+ s; fclosed := false |}.

Definition file_close (fp : TextFile) : TextFile :=
  {| fpath := fpath fp; ftext := ftext fp; fclosed := true |}.

Definition writer_close (w : VideoWriter) : VideoWriter :=
  {| wpath := wpath w; wframes := wframes w; wclosed := true |}.

(** ** The tracking engine ([Pixylation]) *)

(** [_Htable[p[0], p[1], p[2]]] and [_Ltable[p[0], p[1], p[2]]] for one
    pixel [p]. *)
Definition hue_of (p : Pixel) : Z := _Htable (red p) (green p) (blue p).
Definition luma_of (p : Pixel) : Qc := _Ltable (red p) (green p) (blue p).

(** [vector_as_HL(vec)] *)
Definition vector_as_HL (vec : list Pixel) : list Z * list Qc :=
  (hue_of <$> vec, luma_of <$> vec).

Record Pixylation : Type := {
  masks : list (string * ColorMask);
  ROIs : list (string * ROI);
  maskdir : string;
  resultdir : string;
  _masknames : list string;
  _resultfiles : gmap string TextFile;
  _maskfile : option VideoWriter
}.

Definition with_files (self : Pixylation) (names : list string)
    (files : gmap string TextFile) (w : option VideoWriter) : Pixylation :=
  {| masks := masks self; ROIs := ROIs self;
     maskdir := maskdir self; resultdir := resultdir self;
     _masknames := names; _resultfiles := files; _maskfile := w |}.







Definition result_path (resultdir basename roiname : string) : string :=
  os_path_join resultdir ("Results_" +:+ basename +:+ "_" +:+ roiname +:+ ".csv").

Definition mask_path (maskdir basename : string) : string :=
  os_path_join maskdir ("MASK_" +:+ basename +:+ ".mp4").

(** A result file as [__start__] leaves it: opened and the header written. *)
Definition fresh_result_file (resultdir basename : string)
    (masknames : list string) (roiname : string) : TextFile :=
  {| fpath := result_path resultdir basename roiname;
     ftext := result_header masknames;
     fclosed := false |}.

(** The first loop of [__start__]: one result file per region that is not
    empty and whose file can be opened. *)
Fixpoint open_result_files (os : OS) (resultdir basename : string)
    (masknames : list string) (rois : list (string * ROI))
    (files : gmap string TextFile) : gmap string TextFile :=
  match rois with
  | [] => files
  | (roiname, roi) :: rest =>
      if ROI_is_empty roi
      then open_result_files os resultdir basename masknames rest files
      else
        let resultpath := result_path resultdir basename roiname in
        if can_open os resultpath
        then open_result_files os resultdir basename masknames rest
               (<[roiname := fresh_result_file resultdir basename masknames roiname]>
                  files)
        else open_result_files os resultdir basename masknames rest files
  end.

(** [Pixylation.__start__(name)] *)
Definition Pixylation__start__ (os : OS) (name : string) (self : Pixylation) :
    Pixylation * outcome :=
  let masknames := (masks self).*1 in
  let basename := (os_path_splitext name).1 in
  if negb (ensure_directory os (maskdir self))
  then (with_files self masknames ∅ None, Raised (OSError (maskdir self)))
  else if negb (ensure_directory os (resultdir self))
  then (with_files self masknames ∅ None, Raised (OSError (resultdir self)))
  else
    let files :=
      open_result_files os (resultdir self) basename masknames (ROIs self) ∅ in
    if bool_decide (size files = 0%nat)
    then (with_files self masknames files None,
          Raised (RuntimeError ("nothing to output for " +:+ name)))
    else
      let maskpath := mask_path (maskdir self) basename in
      let w := if can_encode os maskpath
               then Some {| wpath := maskpath; wframes := []; wclosed := false |}
               else None in
      (with_files self masknames files w, Returned).

(** [(pos * weight).sum() / weight.sum()] *)
Definition centroid (pos : list Z) (weight : list Qc) : float :=
  np_div (weighted_sum pos weight) (np_sum weight).

(** The loop over the colour classes inside [__update__], for one region:
    [values] and the mask frame [M] as they stand, the classes still to do. *)
Fixpoint scan_masks (roi : ROI) (roi_H : list Z) (roi_L : list Qc)
    (todo : list (string * ColorMask)) (values : list float)
    (M : list (list Pixel)) : option (list float * list (list Pixel)) :=
  match todo with
  | [] => Some (values, M)
  | (maskname, colormask) :: rest =>
      let roi_match := ColorMask_apply colormask roi_H in
      if decide (0 < count_nonzero roi_match)%nat then
        let match_weight := select roi_match roi_L in
        let match_x := select roi_match (xpos roi) in
        let match_y := select roi_match (ypos roi) in
        let xrepr := centroid match_x match_weight in
        let yrepr := centroid match_y match_weight in
        match ROI_mark roi M roi_match (color colormask) with
        | None => None
        | Some M' =>
            scan_masks roi roi_H roi_L rest
              (values ++ [np_add xrepr 1; np_add yrepr 1]) M'
        end
      else scan_masks roi roi_H roi_L rest (values ++ [NaN; NaN]) M
  end.

(** What [__update__] computes for one region on one frame: the values of
    its row and the mask frame after its marks; [None] is [IndexError]. *)
Definition roi_update (roi : ROI) (colors : list (string * ColorMask))
    (frame M : list (list Pixel)) : option (list float * list (list Pixel)) :=
  pixels ← ROI_crop roi frame;
  let '(roi_H, roi_L) := vector_as_HL pixels in
  scan_masks roi roi_H roi_L colors [] M.

(** The loop over the regions inside [__update__]. *)
Fixpoint scan_ROIs (i : nat) (frame : list (list Pixel))
    (colors : list (string * ColorMask)) (todo : list (string * ROI))
    (files : gmap string TextFile) (M : list (list Pixel)) :
    gmap string TextFile * result (list (list Pixel)) :=
  match todo with
  | [] => (files, Ok M)
  | (roiname, roi) :: rest =>
      match files !! roiname with
      | None => scan_ROIs i frame colors rest files M
      | Some fp =>
          match roi_update roi colors frame M with
          | None => (files, Raise IndexError)
          | Some (values, M') =>
              match file_write fp (result_row i values) with
              | Raise e => (files, Raise e)
              | Ok fp' =>
                  scan_ROIs i frame colors rest (<[roiname := fp']> files) M'
              end
          end
      end
  end.

Definition black : Pixel := RGB 0 0 0.

Definition writeFrame (w : VideoWriter) (M : list (list Pixel)) : result VideoWriter :=
  if wclosed w then Raise (ValueError "write to closed writer")
  else Ok {| wpath := wpath w; wframes := wframes w ++ [M]; wclosed := false |}.

(** [Pixylation.__update__(i, frame)] *)
Definition Pixylation__update__ (i : nat) (frame : list (list Pixel))
    (self : Pixylation) : Pixylation * outcome :=
  let M := zeros_like black frame in
  let '(files, r) :=
    scan_ROIs i frame (masks self) (ROIs self) (_resultfiles self) M in
  match r with
  | Raise e => (with_files self (_masknames self) files (_maskfile self), Raised e)
  | Ok M' =>
      match _maskfile self with
      | None => (with_files self (_masknames self) files None, Returned)
      | Some w =>
          match writeFrame w M' with
          | Raise e => (with_files self (_masknames self) files (Some w), Raised e)
          | Ok w' => (with_files self (_masknames self) files (Some w'), Returned)
          end
      end
  end.

(** [Pixylation.__done__(name, err)]: every file is closed, failures to
    close are swallowed by [force_close]. *)
Definition Pixylation__done__ (name : string) (err : bool) (self : Pixylation) :
    Pixylation * outcome :=
  (with_files self (_masknames self) (file_close <$> _resultfiles self)
     (writer_close <$> _maskfile self), Returned).

(** ** The batch interface ([AbstractBatch]) and the single-file job
       ([Processor]) *)

(** The three hooks a batch command implements, over its own state. *)
Class AbstractBatch (St : Type) : Type := {
  __start__ : string -> St -> St * outcome;
  __update__ : nat -> list (list Pixel) -> St -> St * outcome;
  __done__ : string -> bool -> St -> St * outcome
}.

(** The hooks of [AbstractBatch] itself only print. *)
Definition Test_batch : AbstractBatch unit := {|
  __start__ := fun _ s => (s, Returned);
  __update__ := fun _ _ s => (s, Returned);
  __done__ := fun _ _ s => (s, Returned)
|}.

Definition Pixylation_batch (os : OS) : AbstractBatch Pixylation := {|
  __start__ := Pixylation__start__ os;
  __update__ := Pixylation__update__;
  __done__ := Pixylation__done__
|}.

(** What a job did to the outside, in order. *)
Inductive event : Type :=
  | EvOpen (path : string)
  | EvStart (name : string)
  | EvFrame (i : nat)
  | EvDone (name : string) (err : bool)
  | EvClose (path : string).

(** The [FFmpegReader] a [Processor] holds. *)
Record Reader : Type := {
  rpath : string;
  rvideo : Video;
  rclosed : bool
}.

(** A job as it ends: the command's state, the reader if one was created,
    what happened, and the exception that leaves the [with] statement. *)
Record Run (St : Type) : Type := {
  run_state : St;
  run_reader : option Reader;
  run_log : list event;
  run_raised : option exn
}.
Arguments run_state {St} r.
Arguments run_reader {St} r.
Arguments run_log {St} r.
Arguments run_raised {St} r.

(** The body of the [with] statement: [Processor.__iter__] feeding
    [__update__], frame [i] onwards. *)
Fixpoint feed {St} `{AbstractBatch St} (frames : list (list (list Pixel)))
    (i : nat) (s : St) (log : list event) : St * list event * option exn :=
  match frames with
  | [] => (s, log, None)
  | frame :: rest =>
      match __update__ i frame s with
      | (s', Returned) => feed rest (S i) s' (log ++ [EvFrame i])
      | (s', Raised e) => (s', log ++ [EvFrame i], Some e)
      end
  end.

(** The whole iteration: the frames, then the decoder's failure if the video
    is broken, then the closing status line, which reads the loop variable. *)
Definition iterate {St} `{AbstractBatch St} (v : Video) (s : St) (log : list event) :
    St * list event * option exn :=
  match feed (vframes v) 0 s log with
  | (s', log', Some e) => (s', log', Some e)
  | (s', log', None) =>
      if vbroken v then (s', log', Some (RuntimeError "decoding failed"))
      else if bool_decide (length (vframes v) = 0%nat)
      then (s', log', Some (UnboundLocalError "i"))
      else (s', log', None)
  end.

(** [with Processor(proc, path) as reader: for i, frame in reader:
    proc.__update__(i, frame)].  When [__enter__] raises, the [with]
    statement does not call [__exit__]. *)
Definition run_file {St} `{AbstractBatch St} (os : OS) (path : string) (s : St) : Run St :=
  let name := os_path_tail path in
  match video_at os path with
  | None =>
      {| run_state := s; run_reader := None; run_log := [];
         run_raised := Some (OSError path) |}
  | Some v =>
      let reader := {| rpath := path; rvideo := v; rclosed := false |} in
      match __start__ name s with
      | (s1, Raised e) =>
          {| run_state := s1; run_reader := Some reader;
             run_log := [EvOpen path; EvStart name];
             run_raised := Some e |}
      | (s1, Returned) =>
          let '(s2, log2, exc) := iterate v s1 [EvOpen path; EvStart name] in
          let err := bool_decide (is_Some exc) in
          let '(s3, _) := __done__ name err s2 in
          {| run_state := s3;
             run_reader := Some {| rpath := path; rvideo := v; rclosed := true |};
             run_log := log2 ++ [EvDone name err; EvClose path];
             run_raised := exc |}
      end
  end.

(** [AbstractBatch.run] over the paths the source patterns expand to: the
    first exception that leaves a job ends the batch. *)
Fixpoint run_paths {St} `{AbstractBatch St} (os : OS) (paths : list string) (s : St) :
    list (Run St) :=
  match paths with
  | [] => []
  | path :: rest =>
      let r := run_file os path s in
      match run_raised r with
      | Some _ => [r]
      | None => r :: run_paths os rest (run_state r)
      end
  end.

Definition reader_released {St} (r : Run St) : Prop :=
  match run_reader r with
  | Some rd => rclosed rd = true
  | None => True
  end.

(** ** The single-module variant ([src/videobatch.py]) *)

Module Legacy.

(** [Mask]: a hue interval; its colour is computed on demand by [as_color]. *)
Record Mask : Type := {
  onset : Qc;
  offset : Qc
}.

(** [Mask.apply(hues)] on a whole frame of hues. *)
Definition Mask_apply (m : Mask) (hues : list (list Z)) : list (list bool) :=
  (fun row : list Z => hue_in (onset m) (offset m) <$> row) <$> hues.

Definition as_color (_hsv : colormap) (m : Mask) : Pixel :=
  hue_color _hsv (onset m) (offset m).

(** [ROI]: a rectangle, kept as its four numbers. *)
Record ROI : Type := {
  x : Z;
  y : Z;
  w : Z;
  h : Z
}.

(** [ROI.__init__] on the region's JSON object, with the defaults of the
    constructor. *)
Definition ROI__init__ (specs : gmap string Z) : ROI :=
  {| x := default 0 (specs !! "x"); y := default 0 (specs !! "y");
     w := default 1 (specs !! "w"); h := default 1 (specs !! "h") |}.

Definition ROI_is_empty (roi : ROI) : bool := bool_decide (w roi * h roi <= 1).

(** [l[:k] = f(l[:k])] and [l[k:] = f(l[k:])], elementwise. *)
Definition map_before {A} (f : A -> A) (k : nat) (l : list A) : list A :=
  (f <$> take k l) ++ drop k l.
Definition map_from {A} (f : A -> A) (k : nat) (l : list A) : list A :=
  take k l ++ (f <$> drop k l).

Definition clear_row (row : list bool) : list bool := (fun _ => false) <$> row.

(** [ROI.apply(values)]: the four slice assignments, in the order of the
    source. *)
Definition ROI_apply (roi : ROI) (values : list (list bool)) : list (list bool) :=
  let nrows := (shape values).1 in
  let ncols := (shape values).2 in
  let v1 := map_before clear_row (slice_bound nrows (y roi)) values in
  let v2 := map_from clear_row (slice_bound nrows (y roi + h roi)) v1 in
  let v3 := map_before (fun _ => false) (slice_bound ncols (x roi)) <$> v2 in
  map_from (fun _ => false) (slice_bound ncols (x roi + w roi)) <$> v3.

(** [as_HL(frame)] *)
Definition as_HL (frame : list (list Pixel)) : list (list Z) * list (list Qc) :=
  ((fun row : list Pixel => hue_of <$> row) <$> frame,
   (fun row : list Pixel => luma_of <$> row) <$> frame).

(** A [dict] built from its items: a later item replaces an earlier one with
    the same key. *)
Definition dict_of_items {V} (items : list (string * V)) : gmap string V :=
  foldl (fun m kv => <[kv.1 := kv.2]> m) ∅ items.

Record Pixylation : Type := {
  masks : list (string * Mask);
  ROIs : list (string * ROI);
  maskdir : string;
  resultdir : string;
  _masknames : list string;
  _resultfiles : gmap string TextFile;
  _maskfile : option VideoWriter;
  _xpos : option (list (list Z));
  _ypos : option (list (list Z))
}.

Definition with_files (self : Pixylation) (names : list string)
    (files : gmap string TextFile) (wr : option VideoWriter)
    (xg yg : option (list (list Z))) : Pixylation :=
  {| masks := masks self; ROIs := ROIs self;
     maskdir := maskdir self; resultdir := resultdir self;
     _masknames := names; _resultfiles := files; _maskfile := wr;
     _xpos := xg; _ypos := yg |}.

Definition mask_path (maskdir basename : string) : string :=
  os_path_join maskdir ("MASK_" +:+ basename +:+ ".avi").

Fixpoint open_result_files (os : OS) (resultdir basename : string)
    (masknames : list string) (rois : list (string * ROI))
    (files : gmap string TextFile) : gmap string TextFile :=
  match rois with
  | [] => files
  | (roiname, roi) :: rest =>
      if ROI_is_empty roi
      then open_result_files os resultdir basename masknames rest files
      else
        let resultpath := result_path resultdir basename roiname in
        if can_open os resultpath
        then open_result_files os resultdir basename masknames rest
               (<[roiname := fresh_result_file resultdir basename masknames roiname]>
                  files)
        else open_result_files os resultdir basename masknames rest files
  end.

(** [Pixylation.__start__(name)] *)
Definition Pixylation__start__ (os : OS) (name : string) (self : Pixylation) :
    Pixylation * outcome :=
  let masknames := (masks self).*1 in
  let basename := (os_path_splitext name).1 in
  if negb (ensure_directory os (maskdir self))
  then (with_files self masknames ∅ None None None, Raised (OSError (maskdir self)))
  else if negb (ensure_directory os (resultdir self))
  then (with_files self masknames ∅ None None None, Raised (OSError (resultdir self)))
  else
    let files :=
      open_result_files os (resultdir self) basename masknames (ROIs self) ∅ in
    if bool_decide (size files = 0%nat)
    then (with_files self masknames files None None None,
          Raised (RuntimeError ("nothing to output for " +:+ name)))
    else
      let maskpath := mask_path (maskdir self) basename in
      let wr := if can_encode os maskpath
                then Some {| wpath := maskpath; wframes := []; wclosed := false |}
                else None in
      (with_files self masknames files wr None None, Returned).

(** The coordinate grids [__update__] builds on the first frame: 1-based. *)
Definition frame_grids (frame : list (list Pixel)) : list (list Z) * list (list Z) :=
  let '(fh, fw) := shape frame in
  meshgrid_xy (arange 1 (Z.of_nat fw + 1)) (arange 1 (Z.of_nat fh + 1)).

(** [(pos * weight).sum() / weight.sum()] over the selected entries. *)
Definition centroid2 (_match : list (list bool)) (pos : list (list Z))
    (L : list (list Qc)) : float :=
  np_div (weighted_sum (select2 _match pos) (select2 _match L))
         (np_sum (select2 _match L)).

(** The loop over [_masknames] inside [__update__], for one region. *)
Fixpoint scan_masknames (_hsv : colormap) (roi : ROI)
    (colors : gmap string Mask) (masked : gmap string (list (list bool)))
    (L : list (list Qc)) (xg yg : list (list Z))
    (todo : list string) (values : list float) (M : list (list Pixel)) :
    result (list float * list (list Pixel)) :=
  match todo with
  | [] => Ok (values, M)
  | maskname :: rest =>
      match masked !! maskname, colors !! maskname with
      | Some hits, Some m =>
          let _match := ROI_apply roi hits in
          if decide (0 < count_nonzero2 _match)%nat then
            scan_masknames _hsv roi colors masked L xg yg rest
              (values ++ [centroid2 _match xg L; centroid2 _match yg L])
              (put_mask _match (as_color _hsv m) M)
          else
            scan_masknames _hsv roi colors masked L xg yg rest
              (values ++ [NaN; NaN]) M
      | _, _ => Raise (KeyError maskname)
      end
  end.

(** What [__update__] computes for one region on one frame. *)
Definition roi_update (_hsv : colormap) (roi : ROI) (colors : list (string * Mask))
    (masknames : list string) (frame : list (list Pixel))
    (xg yg : list (list Z)) (M : list (list Pixel)) :
    result (list float * list (list Pixel)) :=
  let '(H, L) := as_HL frame in
  let masked := dict_of_items ((fun kv : string * Mask => (kv.1, Mask_apply kv.2 H)) <$> colors) in
  scan_masknames _hsv roi (dict_of_items colors) masked L xg yg masknames [] M.

(** The loop over the regions inside [__update__]. *)
Fixpoint scan_ROIs (_hsv : colormap) (i : nat) (frame : list (list Pixel))
    (colors : list (string * Mask)) (masknames : list string)
    (xg yg : list (list Z)) (todo : list (string * ROI))
    (files : gmap string TextFile) (M : list (list Pixel)) :
    gmap string TextFile * result (list (list Pixel)) :=
  match todo with
  | [] => (files, Ok M)
  | (roiname, roi) :: rest =>
      match files !! roiname with
      | None => scan_ROIs _hsv i frame colors masknames xg yg rest files M
      | Some fp =>
          match roi_update _hsv roi colors masknames frame xg yg M with
          | Raise e => (files, Raise e)
          | Ok (values, M') =>
              match file_write fp (result_row i values) with
              | Raise e => (files, Raise e)
              | Ok fp' =>
                  scan_ROIs _hsv i frame colors masknames xg yg rest
                    (<[roiname := fp']> files) M'
              end
          end
      end
  end.

(** [Pixylation.__update__(i, frame)] *)
Definition Pixylation__update__ (_hsv : colormap) (i : nat)
    (frame : list (list Pixel)) (self : Pixylation) : Pixylation * outcome :=
  let '(xg, yg) :=
    match _xpos self, _ypos self with
    | Some xg, Some yg => (xg, yg)
    | _, _ => frame_grids frame
    end in
  let M := zeros_like black frame in
  let '(files, r) :=
    scan_ROIs _hsv i frame (masks self) (_masknames self) xg yg (ROIs self)
      (_resultfiles self) M in
  match r with
  | Raise e =>
      (with_files self (_masknames self) files (_maskfile self) (Some xg) (Some yg),
       Raised e)
  | Ok M' =>
      match _maskfile self with
      | None =>
          (with_files self (_masknames self) files None (Some xg) (Some yg), Returned)
      | Some wr =>
          match writeFrame wr M' with
          | Raise e =>
              (with_files self (_masknames self) files (Some wr) (Some xg) (Some yg),
               Raised e)
          | Ok wr' =>
              (with_files self (_masknames self) files (Some wr') (Some xg) (Some yg),
               Returned)
          end
      end
  end.

End Legacy.

(** ** The centroid as the specification words it *)

(** A pixel of a region with the (0-based) position the arrays give it. *)
Definition located : Type := Z * Z * Pixel.
Definition loc_x (t : located) : Z := t.1.1.
Definition loc_y (t : located) : Z := t.1.2.
Definition loc_pixel (t : located) : Pixel := t.2.

(** The pixels of a region of the package, in the order of its vectors. *)
Definition region_pixels (roi : ROI) (pixels : list Pixel) : list located :=
  zip (zip (xpos roi) (ypos roi)) pixels.

(** The pixels whose hue lies in the interval of a class. *)
Definition matched_pixels (on off : Qc) (region : list located) : list located :=
  filter (fun t => hue_in on off (hue_of (loc_pixel t)) = true) region.

(** Sum of coordinate times luminance over sum of luminance, the coordinate
    counted from 1. *)
Definition one_based_centroid (coord : located -> Z) (pts : list located) : float :=
  np_div (np_sum ((fun t => (Qc_of_Z (coord t + 1) * luma_of (loc_pixel t))%Qc) <$> pts))
         (np_sum ((fun t => luma_of (loc_pixel t)) <$> pts)).


(** The window [rows r0..r1) x columns c0..c1)] of a 2-D array. *)
Definition window {A} (r0 r1 c0 c1 : nat) (a : list (list A)) : list (list A) :=
  (fun row => take (c1 - c0) (drop c0 row)) <$> take (r1 - r0) (drop r0 a).

(** A frame with the 0-based position written next to every pixel. *)
Definition indexed (frame : list (list Pixel)) : list (list located) :=
  imap (fun i row => imap (fun j p => (Z.of_nat j, Z.of_nat i, p)) row) frame.

(** The pixels of a rectangle of the single-module variant: what the four
    slice assignments of [ROI.apply] leave standing, row-major. *)
Definition legacy_region_pixels (roi : Legacy.ROI) (frame : list (list Pixel)) :
    list located :=
  let nrows := (shape frame).1 in
  let ncols := (shape frame).2 in
  concat (window (slice_bound nrows (Legacy.y roi))
                 (slice_bound nrows (Legacy.y roi + Legacy.h roi))
                 (slice_bound ncols (Legacy.x roi))
                 (slice_bound ncols (Legacy.x roi + Legacy.w roi))
                 (indexed frame)).

(** The class of the single-module variant with the same interval. *)
Definition legacy_mask (c : ColorMask) : Legacy.Mask :=
  {| Legacy.onset := onset c; Legacy.offset := offset c |}.

(** ** Names for parts of the loops, used to state their results *)

(** The two values one colour class contributes to the row of a region. *)
Definition class_values (roi : ROI) (roi_H : list Z) (roi_L : list Qc)
    (colormask : ColorMask) : list float :=
  let roi_match := ColorMask_apply colormask roi_H in
  if decide (0 < count_nonzero roi_match)%nat then
    [np_add (centroid (select roi_match (xpos roi)) (select roi_match roi_L)) 1;
     np_add (centroid (select roi_match (ypos roi)) (select roi_match roi_L)) 1]
  else [NaN; NaN].

(** The values of the row of a region, class after class. *)
Definition roi_values (roi : ROI) (colors : list (string * ColorMask))
    (pixels : list Pixel) : list float :=
  concat ((fun kc : string * ColorMask =>
             class_values roi (hue_of <$> pixels) (luma_of <$> pixels) kc.2) <$> colors).

Definition pixel_ok (p : Pixel) : Prop :=
  uint8 (red p) /\ uint8 (green p) /\ uint8 (blue p).

Definition frame_ok (frame : list (list Pixel)) : Prop :=
  Forall (Forall pixel_ok) frame.

(** The positions of the frame a region's coordinates denote, in order;
    [None] when one of them is out of range. *)
Definition region_positions (roi : ROI) (frame : list (list Pixel)) :
    option (list (nat * nat)) :=
  mapM (fun yx : Z * Z => np_position frame yx.1 yx.2) (zip (ypos roi) (xpos roi)).

(** The pixel at a position of the frame (black outside of it). *)
Definition pixel_at (frame : list (list Pixel)) (q : nat * nat) : Pixel :=
  default black (grid_lookup frame q).

Definition in_class (kc : string * ColorMask) (p : Pixel) : bool :=
  hue_in (onset kc.2) (offset kc.2) (hue_of p).

(** The colour a position ends with after the classes [todo] have marked it,
    starting from [old]. *)
Definition paint_over (todo : list (string * ColorMask)) (p : Pixel) (old : Pixel) :
    Pixel :=
  match last (filter (fun kc => in_class kc p = true) todo) with
  | Some kc => color kc.2
  | None => old
  end.

(** The display colour a pixel ends with: that of the last class, in
    declaration order, whose interval holds its hue; black when there is none. *)
Definition paint (colors : list (string * ColorMask)) (p : Pixel) : Pixel :=
  paint_over colors p black.

(** A position lies under a region that has a result file. *)
Definition covered (frame : list (list Pixel)) (rois : list (string * ROI))
    (files : gmap string TextFile) (q : nat * nat) : Prop :=
  exists R roi Q, (R, roi) ∈ rois /\ is_Some (files !! R)
                  /\ region_positions roi frame = Some Q /\ q ∈ Q.

(** A result file after one more row. *)
Definition with_row (fp : TextFile) (row : string) : TextFile :=
  {| fpath := fpath fp; ftext := ftext fp +:+ row; fclosed := false |}.

(** A writer after one more frame. *)
Definition with_frame (w : VideoWriter) (M : list (list Pixel)) : VideoWriter :=
  {| wpath := wpath w; wframes := wframes w ++ [M]; wclosed := false |}.

(** ** A small job, used to instantiate the statements below *)

(** Two rows of three pixels: red, yellow, black / green, dark red, blue. *)
Definition example_frame : list (list Pixel) :=
  [[RGB 255 0 0; RGB 255 255 0; RGB 0 0 0];
   [RGB 0 255 0; RGB 200 10 10; RGB 0 0 255]].

(** Three classes; the first two overlap on the hues 0..30, the third holds
    no hue of the frame. *)
Definition example_colors : list (string * ColorMask) :=
  [("red", {| onset := 0; offset := Qc_of_Z 30; color := RGB 255 0 0 |});
   ("warm", {| onset := 0; offset := Qc_of_Z 90; color := RGB 255 191 0 |});
   ("cyan", {| onset := Qc_of_Z 170; offset := Qc_of_Z 190; color := RGB 0 255 255 |})].

(** Region A: the left 2x2 block; region dot: the black pixel alone. *)
Definition example_ROIs : list (string * ROI) :=
  [("A", RectangularROI (rect_specs 0 0 2 2));
   ("dot", RectangularROI (rect_specs 2 0 1 1))].

Definition example_os : OS :=
  {| getcwd := "/home/lab"; imread := fun _ => None;
     ensure_directory := fun _ => true; can_open := fun _ => true;
     can_encode := fun _ => true;
     video_at := fun _ => Some {| vframes := [example_frame]; vbroken := false |};
     glob := fun pattern => [pattern] |}.

Definition example_engine : Pixylation :=
  {| masks := example_colors; ROIs := example_ROIs;
     maskdir := "out"; resultdir := "out";
     _masknames := []; _resultfiles := ∅; _maskfile := None |}.

(** The engine after [__start__] on the file clip.mp4. *)
Definition example_started : Pixylation :=
  (Pixylation__start__ example_os "clip.mp4" example_engine).1.

(** ... and after the first frame. *)
Definition example_updated : Pixylation :=
  (Pixylation__update__ 0 example_frame example_started).1.

(** The two column assignments of [Legacy.ROI_apply] on one row. *)
Definition clear_cols (c0 c1 : nat) (row : list bool) : list bool :=
  Legacy.map_from (fun _ => false) c1 (Legacy.map_before (fun _ => false) c0 row).

(** Elementwise map over a 2-D array. *)
Definition map2 {A B} (f : A -> B) (a : list (list A)) : list (list B) :=
  (fun row : list A => f <$> row) <$> a.

(** ** The row of a region as the specification words it *)

(** The pair a class reports: the centroid of its matched pixels, in 1-based
    coordinates, or the NaN pair when it has none. *)
Definition centroid_pair (pts : list located) : list float :=
  if decide (pts = []) then [NaN; NaN]
  else [one_based_centroid loc_x pts; one_based_centroid loc_y pts].

(** The row: one pair per hue interval, in declaration order. *)
Definition spec_values (intervals : list (Qc * Qc)) (region : list located) :
    list float :=
  concat ((fun iv : Qc * Qc => centroid_pair (matched_pixels iv.1 iv.2 region))
            <$> intervals).

Definition intervals (colors : list (string * ColorMask)) : list (Qc * Qc) :=
  (fun kc : string * ColorMask => (onset kc.2, offset kc.2)) <$> colors.

Definition legacy_intervals (colors : list (string * Legacy.Mask)) : list (Qc * Qc) :=
  (fun kc : string * Legacy.Mask => (Legacy.onset kc.2, Legacy.offset kc.2)) <$> colors.

(** The two values one class of the single-module variant contributes. *)
Definition legacy_class_values (roi : Legacy.ROI) (frame : list (list Pixel))
    (xg yg : list (list Z)) (m : Legacy.Mask) : list float :=
  let _match := Legacy.ROI_apply roi (Legacy.Mask_apply m (Legacy.as_HL frame).1) in
  if decide (0 < count_nonzero2 _match)%nat then
    [Legacy.centroid2 _match xg (Legacy.as_HL frame).2;
     Legacy.centroid2 _match yg (Legacy.as_HL frame).2]
  else [NaN; NaN].

(** The classes of the package handed to the single-module variant: same
    names, same intervals, same order. *)
Definition legacy_colors (colors : list (string * ColorMask)) :
    list (string * Legacy.Mask) :=
  (fun kc : string * ColorMask => (kc.1, legacy_mask kc.2)) <$> colors.

(** The coordinate grids [__update__] of the single-module variant works
    with: those it stored on an earlier frame, else those of this frame. *)
Definition legacy_grids (self : Legacy.Pixylation) (frame : list (list Pixel)) :
    list (list Z) * list (list Z) :=
  match Legacy._xpos self, Legacy._ypos self with
  | Some xg, Some yg => (xg, yg)
  | _, _ => Legacy.frame_grids frame
  end.

(** The small job again, for the single-module variant. *)
Definition example_legacy_engine : Legacy.Pixylation :=
  {| Legacy.masks := legacy_colors example_colors;
     Legacy.ROIs := [("A", Legacy.ROI__init__ (rect_specs 0 0 2 2));
                     ("dot", Legacy.ROI__init__ (rect_specs 2 0 1 1))];
     Legacy.maskdir := "out"; Legacy.resultdir := "out";
     Legacy._masknames := []; Legacy._resultfiles := ∅;
     Legacy._maskfile := None; Legacy._xpos := None; Legacy._ypos := None |}.

Definition example_hsv : colormap := fun _ => (1, 0, 0)%Qc.

Definition example_legacy_started : Legacy.Pixylation :=
  (Legacy.Pixylation__start__ example_os "clip.mp4" example_legacy_engine).1.

Definition example_legacy_updated : Legacy.Pixylation :=
  (Legacy.Pixylation__update__ example_hsv 0 example_frame example_legacy_started).1.

(** ** The batch driver ([AbstractBatch._expandsources], [AbstractBatch.run]) *)

(** [_expandsources]: every source is joined to the source directory and
    expanded by [glob], in the order of the sources. *)
Definition _expandsources (os : OS) (sourcedir : string) (sources : list string) :
    list string :=
  concat ((fun src : string => glob os (os_path_join sourcedir src)) <$> sources).

(** [AbstractBatch.run] *)
Definition AbstractBatch_run {St} `{AbstractBatch St} (os : OS) (sourcedir : string)
    (sources : list string) (s : St) : list (Run St) :=
  run_paths os (_expandsources os sourcedir sources) s.

(** A second video for the small job: its second frame is a single pixel, so
    region A does not fit into it. *)
Definition example_os_shrinking : OS :=
  {| getcwd := "/home/lab"; imread := fun _ => None;
     ensure_directory := fun _ => true; can_open := fun _ => true;
     can_encode := fun _ => true;
     video_at := fun _ =>
       Some {| vframes := [example_frame; [[RGB 0 0 0]]; example_frame];
               vbroken := false |};
     glob := fun pattern => [pattern] |}.

(** The text of consecutive rows of a result file, the first one for frame
    [i0]. *)
Definition rows_text (i0 : nat) (rows : list (list float)) : string :=
  foldr String.append "" (imap (fun k vals => result_row (i0 + k) vals) rows).

(** A region gets a result file in [__start__]: it is not empty and its file
    can be opened. *)
Definition writable (os : OS) (resultdir basename : string) (R : string) (roi : ROI) :
    Prop :=
  ROI_is_empty roi = false /\ can_open os (result_path resultdir basename R) = true.

(** Every coordinate of a region is a valid index into the frame: at most
    one frame size below zero, and below the frame size. *)
Definition inside (roi : ROI) (frame : list (list Pixel)) : Prop :=
  forall k x y, xpos roi !! k = Some x -> ypos roi !! k = Some y ->
    - Z.of_nat (shape frame).2 <= x < Z.of_nat (shape frame).2
    /\ - Z.of_nat (shape frame).1 <= y < Z.of_nat (shape frame).1.

(** A region with every coordinate reduced modulo the frame size. *)
Definition wrapped (roi : ROI) (frame : list (list Pixel)) : ROI :=
  {| xpos := (fun x => x mod Z.of_nat (shape frame).2) <$> xpos roi;
     ypos := (fun y => y mod Z.of_nat (shape frame).1) <$> ypos roi |}.

(** ** The projection command ([Projection]), default mode

    The mode [projtype] is fixed when the command is built and only selects
    branches; what follows is the command for [projtype == "max"], the
    default: the first frame is copied into the buffer, every later frame is
    merged into it by [numpy.nanmax([frame, self._buffer], axis=0)].  Frames
    are 8-bit, so [nanmax] is the maximum, channel by channel. *)

Definition pixel_max (p q : Pixel) : Pixel :=
  RGB (Z.max (red p) (red q)) (Z.max (green p) (green q)) (Z.max (blue p) (blue q)).

(** [numpy.nanmax([frame, buffer], axis=0)] for two frames of one shape, as
    the frames of one video are. *)
Definition frame_max (frame buffer : list (list Pixel)) : list (list Pixel) :=
  zip_with (zip_with pixel_max) frame buffer.

(** The command object; [_imsaved] lists what [_imsave] has written so far,
    path and image, oldest first. *)
Record Projection : Type := {
  outdir : string;
  _buffer : option (list (list Pixel));
  _outname : string;
  _imsaved : list (string * list (list Pixel))
}.

(** [Projection.__start__(name)] *)
Definition Projection__start__ (name : string) (self : Projection) :
    Projection * outcome :=
  ({| outdir := outdir self; _buffer := None;
      _outname := (os_path_splitext name).1 +:+ ".png";
      _imsaved := _imsaved self |}, Returned).

(** [Projection.__update__(i, frame)] *)
Definition Projection__update__ (i : nat) (frame : list (list Pixel))
    (self : Projection) : Projection * outcome :=
  let buffer := match _buffer self with
                | None => frame
                | Some b => frame_max frame b
                end in
  ({| outdir := outdir self; _buffer := Some buffer;
      _outname := _outname self; _imsaved := _imsaved self |}, Returned).

(** [Projection.__done__(name, err)]: the buffer is saved whatever [err]
    says; [imageio.imwrite] refuses [None] with a [ValueError]. *)
Definition Projection__done__ (os : OS) (name : string) (err : bool)
    (self : Projection) : Projection * outcome :=
  if negb (ensure_directory os (outdir self))
  then (self, Raised (OSError (outdir self)))
  else
    let path := os_path_join (outdir self) (_outname self) in
    match _buffer self with
    | None => (self, Raised (ValueError "Image is not numeric, but NoneType."))
    | Some b =>
        if can_open os path
        then ({| outdir := outdir self; _buffer := None;
                 _outname := _outname self;
                 _imsaved := _imsaved self ++ [(path, b)] |}, Returned)
        else (self, Raised (OSError path))
    end.

Definition Projection_batch (os : OS) : AbstractBatch Projection := {|
  __start__ := Projection__start__;
  __update__ := Projection__update__;
  __done__ := Projection__done__ os
|}.

(** The buffer after the frames [f0], [rest]. *)
Definition max_projection (f0 : list (list Pixel)) (rest : list (list (list Pixel))) :
    list (list Pixel) :=
  foldl (fun b f => frame_max f b) f0 rest.

(** Two frames of one shape: as many rows, and row by row as many pixels. *)
Definition same_shape (a b : list (list Pixel)) : Prop :=
  Forall2 (fun r r' : list Pixel => length r = length r') a b.

(** One channel of the pixel at a position. *)
Definition channel_at (ch : Pixel -> Z) (a : list (list Pixel)) (q : nat * nat) :
    option Z :=
  ch <$> grid_lookup a q.

(** A video of two frames of one shape whose decoding breaks off after the
    second. *)
Definition example_frame_later : list (list Pixel) :=
  [[RGB 9 0 7; RGB 1 1 1; RGB 0 0 0];
   [RGB 0 0 0; RGB 255 10 10; RGB 0 0 1]].

Definition example_os_broken : OS :=
  {| getcwd := "/home/lab"; imread := fun _ => None;
     ensure_directory := fun _ => true; can_open := fun _ => true;
     can_encode := fun _ => true;
     video_at := fun _ =>
       Some {| vframes := [example_frame; example_frame_later]; vbroken := true |};
     glob := fun pattern => [pattern] |}.

(** How often a character occurs in a string; a line of a result file has
    one field more than it has commas. *)
Fixpoint count_char (c : Ascii.ascii) (s : string) : nat :=
  match s with
  | EmptyString => 0
  | String c' rest => (if bool_decide (c' = c) then 1 else 0) + count_char c rest
  end.

(* ================================================================== *)
(** * Properties *)
(* ================================================================== *)

(** ** Rounding lemmas *)

Lemma around_floor_or_succ (q : Q) :
  around q = Qfloor q \/ (around q = Qfloor q + 1 /\ (inject_Z (Qfloor q) < q)%Q).
Proof.
  unfold around.
  destruct (Qcompare_spec (q - inject_Z (Qfloor q)) (1 # 2)) as [He | Hl | Hg].
  - assert (Hh : (1 # 2 <= q - inject_Z (Qfloor q))%Q) by (rewrite He; apply Qle_refl).
    destruct (Z.even (Qfloor q)); [now left | right; split; [reflexivity | lra]].
  - now left.
  - right; split; [reflexivity | lra].
Qed.

Lemma around_lower (a : Z) (q : Q) : (inject_Z a <= q)%Q -> a <= around q.
Proof.
  intros H. apply Qfloor_resp_le in H. rewrite Qfloor_Z in H.
  destruct (around_floor_or_succ q) as [-> | [-> _]]; lia.
Qed.

Lemma around_upper (b : Z) (q : Q) : (q <= inject_Z b)%Q -> around q <= b.
Proof.
  intros H. pose proof (Qfloor_resp_le _ _ H) as Hf. rewrite Qfloor_Z in Hf.
  destruct (around_floor_or_succ q) as [-> | [-> Hlt]]; [exact Hf |].
  assert (Hfb : (inject_Z (Qfloor q) < inject_Z b)%Q) by lra.
  rewrite <- Zlt_Qlt in Hfb. lia.
Qed.

Lemma ratio_bounds (k D : Z) :
  0 < D -> - D <= k <= D ->
  (- (1) <= inject_Z k / inject_Z D <= 1)%Q.
Proof.
  intros HD [Hl Hu].
  assert (HDq : (0 < inject_Z D)%Q) by (change (inject_Z 0 < inject_Z D)%Q; rewrite <- Zlt_Qlt; exact HD).
  split.
  - apply Qle_shift_div_l; [exact HDq |].
    unfold Qle, Qmult, Qopp, inject_Z; simpl; lia.
  - apply Qle_shift_div_r; [exact HDq |].
    unfold Qle, Qmult, inject_Z; simpl; lia.
Qed.

Lemma sector_bounds (c k D : Z) :
  0 < D -> - D <= k <= D ->
  60 * (c - 1) <= around (60 * (inject_Z c + inject_Z k / inject_Z D))
               <= 60 * (c + 1).
Proof.
  intros HD Hk. destruct (ratio_bounds k D HD Hk) as [Hl Hu].
  set (t := (inject_Z k / inject_Z D)%Q) in *.
  split.
  - apply around_lower. unfold Z.sub. rewrite inject_Z_mult, inject_Z_plus.
    change (inject_Z 60) with 60%Q. change (inject_Z (- (1))) with (- (1))%Q.
    generalize dependent (inject_Z c); intros; lra.
  - apply around_upper. rewrite inject_Z_mult, inject_Z_plus.
    change (inject_Z 60) with 60%Q. change (inject_Z 1) with 1%Q.
    generalize dependent (inject_Z c); intros; lra.
Qed.

(** ** Facts about the hue table *)

Lemma spread_zero_iff (r g b : Z) :
  max3 r g b - min3 r g b = 0 <-> achromatic r g b.
Proof. unfold max3, min3, achromatic. lia. Qed.

Lemma channel_gap (r g b u v : Z) :
  (u = r \/ u = g \/ u = b) -> (v = r \/ v = g \/ v = b) ->
  - (max3 r g b - min3 r g b) <= u - v <= max3 r g b - min3 r g b.
Proof. unfold max3, min3. lia. Qed.

(** The three branches of the chromatic case, each with the sector of the
    colour wheel it lands in. *)
Lemma _Htable_sectors (r g b : Z) :
  let m := min3 r g b in
  let D := max3 r g b - m in
  ~ achromatic r g b ->
  (m = b ->
     _Htable r g b = around (60 * (1 + inject_Z (g - r) / inject_Z D))
     /\ 0 <= _Htable r g b <= 120)
  /\ (m <> b -> m = r ->
     _Htable r g b = around (60 * (3 + inject_Z (b - g) / inject_Z D))
     /\ 120 <= _Htable r g b <= 240)
  /\ (m <> b -> m <> r ->
     _Htable r g b = around (60 * (5 + inject_Z (r - b) / inject_Z D))
     /\ 240 <= _Htable r g b <= 360).
Proof.
  intros m D Hc.
  assert (HD : 0 < D).
  { destruct (Z.eq_dec D 0) as [H0 | H0].
    - exfalso. apply Hc, spread_zero_iff. exact H0.
    - subst D m. unfold max3, min3 in *. lia. }
  unfold _Htable. fold m. fold D.
  destruct (Z.eqb_spec D 0) as [H0 | _]; [lia |].
  repeat split; intros.
  all: repeat match goal with
         | |- context [?x =? ?y] => destruct (Z.eqb_spec x y); try contradiction
         end; try reflexivity.
  - apply (sector_bounds 1 (g - r) D HD). subst D m. apply channel_gap; auto.
  - apply (sector_bounds 1 (g - r) D HD). subst D m. apply channel_gap; auto.
  - apply (sector_bounds 3 (b - g) D HD). subst D m. apply channel_gap; auto.
  - apply (sector_bounds 3 (b - g) D HD). subst D m. apply channel_gap; auto.
  - apply (sector_bounds 5 (r - b) D HD). subst D m. apply channel_gap; auto.
  - apply (sector_bounds 5 (r - b) D HD). subst D m. apply channel_gap; auto.
Qed.

Lemma _Htable_chromatic_range (r g b : Z) :
  ~ achromatic r g b -> 0 <= _Htable r g b <= 360.
Proof.
  intros Hc. destruct (_Htable_sectors r g b Hc) as (H1 & H2 & H3).
  destruct (Z.eq_dec (min3 r g b) b) as [Hb | Hb].
  - destruct (H1 Hb) as [_ ?]. lia.
  - destruct (Z.eq_dec (min3 r g b) r) as [Hr | Hr].
    + destruct (H2 Hb Hr) as [_ ?]. lia.
    + destruct (H3 Hb Hr) as [_ ?]. lia.
Qed.

Lemma _Htable_sentinel_iff (r g b : Z) :
  _Htable r g b = -1 <-> achromatic r g b.
Proof.
  split.
  - intros H. destruct (Z.eq_dec (max3 r g b - min3 r g b) 0) as [H0 | H0].
    + apply spread_zero_iff. exact H0.
    + assert (Hc : ~ achromatic r g b) by (rewrite <- spread_zero_iff; exact H0).
      pose proof (_Htable_chromatic_range r g b Hc). lia.
  - intros Ha. apply spread_zero_iff in Ha. unfold _Htable. rewrite Ha. reflexivity.
Qed.



(** ** Rectangular and mask-based regions *)

Lemma zip_const_r {A B} (xs : list A) (y : B) :
  zip xs ((fun _ => y) <$> xs) = (fun x => (x, y)) <$> xs.
Proof. induction xs as [| x xs IH]; csimpl; [reflexivity | now rewrite IH]. Qed.

Lemma meshgrid_xy_zip (xs ys : list Z) :
  zip (flatten (meshgrid_xy xs ys).1) (flatten (meshgrid_xy xs ys).2)
  = concat ((fun y => (fun x => (x, y)) <$> xs) <$> ys).
Proof.
  unfold flatten, meshgrid_xy; csimpl.
  induction ys as [| y ys IH]; csimpl; [reflexivity |].
  rewrite zip_with_app by now rewrite length_fmap.
  rewrite zip_const_r. now rewrite IH.
Qed.

Lemma meshgrid_xy_lengths (xs ys : list Z) :
  length (flatten (meshgrid_xy xs ys).1) = (length ys * length xs)%nat
  /\ length (flatten (meshgrid_xy xs ys).2) = (length ys * length xs)%nat.
Proof.
  unfold flatten, meshgrid_xy; csimpl.
  induction ys as [| y ys [IH1 IH2]]; csimpl; [split; reflexivity |].
  rewrite !length_app, length_fmap, IH1, IH2. split; reflexivity.
Qed.

Lemma grid_pairs_elem (xs ys : list Z) (a b : Z) :
  (a, b) ∈ concat ((fun y => (fun x => (x, y)) <$> xs) <$> ys) <-> a ∈ xs /\ b ∈ ys.
Proof.
  induction ys as [| y ys IH]; csimpl.
  - split; [intros H; inversion H | intros [_ H]; inversion H].
  - rewrite elem_of_app, IH, list_elem_of_fmap, elem_of_cons. split.
    + intros [(x & Heq & Hx) | [Ha Hb]].
      * inversion Heq; subst. auto.
      * auto.
    + intros [Ha [-> | Hb]]; [left; exists a; auto | right; auto].
Qed.


Lemma grid_pairs_length (xs ys : list Z) :
  length (concat ((fun y => (fun x => (x, y)) <$> xs) <$> ys))
  = (length ys * length xs)%nat.
Proof.
  induction ys as [| y ys IH]; csimpl; [reflexivity |].
  now rewrite length_app, length_fmap, IH.
Qed.

Lemma rect_specs_lookup (x y w h : Z) :
  rect_specs x y w h !! "x" = Some x /\ rect_specs x y w h !! "y" = Some y
  /\ rect_specs x y w h !! "w" = Some w /\ rect_specs x y w h !! "h" = Some h.
Proof. unfold rect_specs. repeat split; now simplify_map_eq. Qed.

Lemma RectangularROI_coordinates (x y w h : Z) :
  ROI_coordinates (RectangularROI (rect_specs x y w h))
  = concat ((fun b => (fun a => (a, b)) <$> arange x (x + w)) <$> arange y (y + h)).
Proof.
  unfold RectangularROI.
  destruct (rect_specs_lookup x y w h) as (-> & -> & -> & ->). simpl.
  apply meshgrid_xy_zip.
Qed.

Lemma RectangularROI_lengths (specs : gmap string Z) :
  length (xpos (RectangularROI specs)) = length (ypos (RectangularROI specs)).
Proof.
  unfold RectangularROI.
  set (xs := arange _ _). set (ys := arange _ _).
  destruct (meshgrid_xy_lengths xs ys) as [H1 H2].
  unfold flatten, meshgrid_xy in *. simpl in *. now rewrite H1, H2.
Qed.

Lemma MaskROI_lengths (image : list (list Z)) :
  length (xpos (MaskROI image)) = length (ypos (MaskROI image)).
Proof. unfold MaskROI, np_where. simpl. now rewrite !length_fmap. Qed.

Lemma ROI_is_empty_spec (roi : ROI) :
  length (xpos roi) = length (ypos roi) ->
  ROI_is_empty roi = true <-> length (ROI_coordinates roi) = 0%nat.
Proof.
  intros Hlen. unfold ROI_is_empty, ROI_coordinates.
  rewrite bool_decide_eq_true, length_zip. lia.
Qed.



(** ** Which regions get a result file *)

Section OpenResultFiles.
  Variable os : OS.
  Variables resultdir basename : string.
  Variable masknames : list string.

  Local Abbreviation opened := (open_result_files os resultdir basename masknames).
  Local Abbreviation fresh := (fresh_result_file resultdir basename masknames).

Lemma open_result_files_keeps (rois : list (string * ROI))
      (files : gmap string TextFile) (R : string) :
    files !! R = Some (fresh R) -> opened rois files !! R = Some (fresh R).
  Proof.
    revert files.
    induction rois as [| [roiname roi] rest IH]; intros files Hf; simpl; [exact Hf |].
    destruct (ROI_is_empty roi); [now apply IH |].
    destruct (can_open os (result_path resultdir basename roiname)); [| now apply IH].
    apply IH. destruct (decide (roiname = R)) as [-> | Hne].
    - now rewrite lookup_insert_eq.
    - now rewrite lookup_insert_ne.
  Qed.

Lemma open_result_files_opens (rois : list (string * ROI))
      (files : gmap string TextFile) (R : string) (roi : ROI) :
    (R, roi) ∈ rois -> ROI_is_empty roi = false ->
    can_open os (result_path resultdir basename R) = true ->
    opened rois files !! R = Some (fresh R).
  Proof.
    intros Hin Hne Hopen. revert files.
    induction rois as [| [roiname roi'] rest IH]; intros files; [inversion Hin |].
    unfold fresh_result_file in *.
    apply elem_of_cons in Hin as [Heq | Hin].
    - inversion Heq; subst roiname roi'. simpl. rewrite Hne, Hopen.
      apply open_result_files_keeps. now rewrite lookup_insert_eq.
    - simpl.
      destruct (ROI_is_empty roi'); [now apply IH |].
      destruct (can_open os (result_path resultdir basename roiname)); now apply IH.
  Qed.

Lemma open_result_files_skips (rois : list (string * ROI))
      (files : gmap string TextFile) (R : string) :
    (forall roi, (R, roi) ∈ rois ->
       ROI_is_empty roi = true
       \/ can_open os (result_path resultdir basename R) = false) ->
    opened rois files !! R = files !! R.
  Proof.
    revert files.
    induction rois as [| [roiname roi] rest IH]; intros files Hall; simpl; [reflexivity |].
    assert (Hrest : forall roi0, (R, roi0) ∈ rest ->
              ROI_is_empty roi0 = true
              \/ can_open os (result_path resultdir basename R) = false).
    { intros roi0 Hin. apply Hall. now apply list_elem_of_further. }
    destruct (ROI_is_empty roi) eqn:He; [now apply IH |].
    destruct (can_open os (result_path resultdir basename roiname)) eqn:Ho;
      [| now apply IH].
    rewrite IH by exact Hrest.
    destruct (decide (roiname = R)) as [-> | Hne].
    - destruct (Hall roi) as [H1 | H1]; [apply list_elem_of_here | congruence | congruence].
    - now rewrite lookup_insert_ne.
  Qed.
End OpenResultFiles.

(** C3 (as amended): a region of the package, rectangular or mask-based, is
    empty exactly when it has no coordinates at all, and every region that is
    not empty gets a result file when the file can be opened; only the
    rectangle of the single-module variant is empty exactly when it has fewer
    than two pixels (w*h <= 1). *)
Theorem C3_is_empty_is_no_coordinates :
  (forall specs : gmap string Z,
     ROI_is_empty (RectangularROI specs) = true
     <-> length (ROI_coordinates (RectangularROI specs)) = 0%nat)
  /\ (forall image : list (list Z),
     ROI_is_empty (MaskROI image) = true
     <-> length (ROI_coordinates (MaskROI image)) = 0%nat)
  /\ (forall (os : OS) (resultdir basename : string) (masknames : list string)
        (rois : list (string * ROI)) (R : string) (roi : ROI),
     (R, roi) ∈ rois -> ROI_is_empty roi = false ->
     can_open os (result_path resultdir basename R) = true ->
     open_result_files os resultdir basename masknames rois ∅ !! R
     = Some (fresh_result_file resultdir basename masknames R))
  /\ (forall x y w h : Z, 0 <= w -> 0 <= h ->
     Legacy.ROI_is_empty {| Legacy.x := x; Legacy.y := y; Legacy.w := w; Legacy.h := h |} = true
     <-> (length (ROI_coordinates (RectangularROI (rect_specs x y w h))) < 2)%nat).
Proof.
  split; [| split; [| split]].
  - intros specs. apply ROI_is_empty_spec, RectangularROI_lengths.
  - intros image. apply ROI_is_empty_spec, MaskROI_lengths.
  - intros os rd bn mn rois R roi. apply open_result_files_opens.
  - intros x y w h Hw Hh. unfold Legacy.ROI_is_empty; simpl.
    rewrite bool_decide_eq_true, RectangularROI_coordinates, grid_pairs_length.
    unfold arange. rewrite !length_seqZ. nia.
Qed.

(** C3 as stated fails in the package: the one-pixel rectangle and the
    one-pixel mask have fewer than two coordinates, are not empty, and get a
    result file. *)
Lemma C3_one_pixel_region_is_kept :
  let rect := RectangularROI (rect_specs 0 0 1 1) in
  let spot := MaskROI [[255]] in
  let os := {| getcwd := "."; imread := fun _ => None;
               ensure_directory := fun _ => true; can_open := fun _ => true;
               can_encode := fun _ => true; video_at := fun _ => None;
               glob := fun _ => [] |} in
  (length (ROI_coordinates rect) < 2)%nat /\ ROI_is_empty rect = false
  /\ (length (ROI_coordinates spot) < 2)%nat /\ ROI_is_empty spot = false
  /\ is_Some (open_result_files os "out" "clip" ["red"] [("A", rect)] ∅ !! "A").
Proof.
  cbv zeta. split; [vm_compute; lia |]. split; [vm_compute; reflexivity |].
  split; [vm_compute; lia |]. split; [vm_compute; reflexivity |].
  eexists. apply (open_result_files_opens _ _ _ _ _ _ "A" (RectangularROI (rect_specs 0 0 1 1)));
    [apply list_elem_of_here | vm_compute; reflexivity | reflexivity].
Qed.

(** ** Sums, weights and the centroid *)

Section Centroid.
  Open Scope Qc_scope.

Lemma np_sum_app (u v : list Qc) : np_sum (u ++ v) = np_sum u + np_sum v.
  Proof.
    unfold np_sum. induction u as [| a u IH]; simpl; [ring | rewrite IH; ring].
  Qed.

Lemma np_sum_scale (c : Qc) (ws : list Qc) :
    np_sum ((fun w => c * w) <$> ws) = c * np_sum ws.
  Proof.
    unfold np_sum. induction ws as [| w ws IH]; csimpl; [ring | rewrite IH; ring].
  Qed.

Lemma weighted_sum_scale (c : Qc) (xs : list Z) (ws : list Qc) :
    weighted_sum xs ((fun w => c * w) <$> ws) = c * weighted_sum xs ws.
  Proof.
    unfold weighted_sum, np_sum. revert ws.
    induction xs as [| x xs IH]; intros [| w ws]; csimpl; try ring.
    rewrite IH. ring.
  Qed.

Lemma weighted_sum_fmap {A} (f : A -> Z) (g : A -> Qc) (l : list A) :
    weighted_sum (f <$> l) (g <$> l) = np_sum ((fun t => Qc_of_Z (f t) * g t) <$> l).
  Proof.
    unfold weighted_sum, np_sum.
    induction l as [| t l IH]; csimpl; [reflexivity | now rewrite IH].
  Qed.

Lemma np_sum_shift {A} (f : A -> Z) (g : A -> Qc) (l : list A) :
    np_sum ((fun t => Qc_of_Z (f t + 1) * g t) <$> l)
    = np_sum ((fun t => Qc_of_Z (f t) * g t) <$> l) + np_sum (g <$> l).
  Proof.
    unfold np_sum. induction l as [| t l IH]; csimpl; [ring |].
    rewrite IH, Z2Qc_inj_add, Z2Qc_inj_1. ring.
  Qed.

Lemma np_sum_nonneg (ws : list Qc) : Forall (fun w => 0 <= w) ws -> 0 <= np_sum ws.
  Proof.
    unfold np_sum. induction 1 as [| w ws Hw _ IH]; simpl; [apply Qcle_refl |].
    now apply Qcplus_nonneg_nonneg.
  Qed.

Lemma np_sum_pos (ws : list Qc) :
    ws <> [] -> Forall (fun w => 0 < w) ws -> 0 < np_sum ws.
  Proof.
    intros Hne Hall. destruct Hall as [| w ws Hw Hall]; [contradiction |].
    unfold np_sum; simpl. apply Qcplus_pos_nonneg; [exact Hw |].
    apply np_sum_nonneg. eapply Forall_impl; [exact Hall |].
    intros q Hq. now apply Qclt_le_weak.
  Qed.

Lemma Qc_pos_neq_0 (q : Qc) : 0 < q -> q <> 0.
  Proof. intros H ->. now apply (Qclt_not_eq 0 0). Qed.

  (** Dividing after scaling numerator and denominator alike. *)
Lemma np_div_scale (c a b : Qc) : 0 < c -> np_div (c * a) (c * b) = np_div a b.
  Proof.
    intros Hc. pose proof (Qc_pos_neq_0 c Hc) as Hc0. unfold np_div.
    destruct (decide (b = 0)) as [-> | Hb].
    - rewrite Qcmult_0_r. rewrite decide_True by reflexivity.
      destruct (decide (a = 0)) as [-> | Ha].
      + rewrite Qcmult_0_r. now rewrite decide_True.
      + rewrite decide_False
          by (intros H; apply Qcmult_integral in H as [H | H]; contradiction).
        f_equal. apply bool_decide_ext.
        rewrite (Qcmult_lt_mono_pos_l a 0 c Hc). now rewrite Qcmult_0_r.
    - rewrite decide_False
        by (intros H; apply Qcmult_integral in H as [H | H]; contradiction).
      f_equal. field. split; assumption.
  Qed.

  (** Adding one after the division is adding the denominator before it. *)
Lemma np_add_div_one (a b : Qc) : np_add (np_div a b) 1 = np_div (a + b) b.
  Proof.
    unfold np_div. destruct (decide (b = 0)) as [-> | Hb].
    - replace (a + 0) with a by ring. now destruct (decide (a = 0)).
    - simpl. f_equal. field. exact Hb.
  Qed.

Lemma centroid_scale (c : Qc) (xs : list Z) (ws : list Qc) :
    0 < c -> centroid xs ((fun w => c * w) <$> ws) = centroid xs ws.
  Proof.
    intros Hc. unfold centroid.
    rewrite weighted_sum_scale, np_sum_scale. now apply np_div_scale.
  Qed.

Lemma centroid_finite (xs : list Z) (ws : list Qc) :
    ws <> [] -> Forall (fun w => 0 < w) ws ->
    centroid xs ws = Fin (weighted_sum xs ws / np_sum ws).
  Proof.
    intros Hne Hall. unfold centroid, np_div.
    now rewrite decide_False by (apply Qc_pos_neq_0, np_sum_pos; assumption).
  Qed.
End Centroid.

(** C8: scaling every luminance weight by the same positive constant leaves
    the weighted centroid, and the 1-based value the engine appends, as they
    were; for a non-empty vector of positive weights that centroid is the
    finite number sum(x*w)/sum(w). *)
Theorem C8_centroid_scaling_invariant (xs : list Z) (ws : list Qc) (c : Qc) :
  xs <> [] -> length ws = length xs ->
  Forall (fun w => (0 < w)%Qc) ws -> (0 < c)%Qc ->
  let scaled := (fun w => (c * w)%Qc) <$> ws in
  centroid xs scaled = centroid xs ws
  /\ np_add (centroid xs scaled) 1 = np_add (centroid xs ws) 1
  /\ centroid xs ws = Fin (weighted_sum xs ws / np_sum ws)%Qc.
Proof.
  intros Hxs Hlen Hpos Hc scaled. subst scaled.
  rewrite centroid_scale by exact Hc. split; [reflexivity |]. split; [reflexivity |].
  apply centroid_finite; [| exact Hpos].
  intros ->. destruct xs; [contradiction | discriminate].
Qed.

Lemma C8_centroid_scaling_invariant_witness :
  let xs := [3; 4] in
  let ws := [Q2Qc (1 # 2); Q2Qc (1 # 4)] in
  let scaled := (fun w => (Q2Qc 3 * w)%Qc) <$> ws in
  centroid xs scaled = centroid xs ws
  /\ np_add (centroid xs scaled) 1 = np_add (centroid xs ws) 1
  /\ centroid xs ws = Fin (weighted_sum xs ws / np_sum ws)%Qc.
Proof.
  apply (C8_centroid_scaling_invariant [3; 4] [Q2Qc (1 # 2); Q2Qc (1 # 4)] (Q2Qc 3)).
  - discriminate.
  - reflexivity.
  - repeat constructor.
  - reflexivity.
Defined.

(** ** Boolean selection *)

Lemma select_nil_r {A} (mask : list bool) : select mask (@nil A) = [].
Proof. now destruct mask. Qed.

Lemma select_fmap_filter {A B} (p : A -> bool) (g : A -> B) (l : list A) :
  select (p <$> l) (g <$> l) = g <$> filter (fun t => p t = true) l.
Proof.
  induction l as [| t l IH]; csimpl; [reflexivity |].
  rewrite filter_cons. destruct (p t) eqn:Hp.
  - rewrite decide_True by reflexivity. csimpl. now rewrite IH.
  - rewrite decide_False by discriminate. exact IH.
Qed.

Lemma count_nonzero_fmap {A} (p : A -> bool) (l : list A) :
  count_nonzero (p <$> l) = length (filter (fun t => p t = true) l).
Proof.
  unfold count_nonzero. induction l as [| t l IH]; csimpl; [reflexivity |].
  rewrite !filter_cons. destruct (p t) eqn:Hp.
  - rewrite !decide_True by done. simpl. now rewrite IH.
  - rewrite !decide_False by (try rewrite Hp; discriminate). exact IH.
Qed.

Lemma region_pixels_fmap (roi : ROI) (pixels : list Pixel) :
  length pixels = length (zip (ypos roi) (xpos roi)) ->
  pixels = loc_pixel <$> region_pixels roi pixels
  /\ exists xrest yrest,
       xpos roi = (loc_x <$> region_pixels roi pixels) ++ xrest
       /\ ypos roi = (loc_y <$> region_pixels roi pixels) ++ yrest.
Proof.
  unfold region_pixels. destruct roi as [xs ys]; simpl.
  revert xs ys. induction pixels as [| p pixels IH]; intros xs ys Hlen.
  - rewrite zip_with_nil_r. split; [reflexivity |]. now exists xs, ys.
  - destruct xs as [| x xs]; [destruct ys; discriminate |].
    destruct ys as [| y ys]; [discriminate |].
    simpl in Hlen. injection Hlen as Hlen.
    destruct (IH xs ys Hlen) as (Hp & xrest & yrest & Hx & Hy).
    csimpl. split; [now rewrite <- Hp |].
    exists xrest, yrest. unfold loc_x, loc_y in *; simpl. now rewrite <- Hx, <- Hy.
Qed.

Lemma select_app_l {A} (mask : list bool) (u v : list A) :
  length mask = length u -> select mask (u ++ v) = select mask u.
Proof.
  revert u. induction mask as [| m mask IH]; intros [| a u] Hlen;
    try discriminate; simpl.
  - now destruct v.
  - injection Hlen as Hlen. rewrite IH by exact Hlen. reflexivity.
Qed.

(** The three selections of the inner loop, read off the located pixels of
    the region. *)
Lemma select_region (roi : ROI) (pixels : list Pixel) (p : Pixel -> bool) :
  length pixels = length (zip (ypos roi) (xpos roi)) ->
  let pts := filter (fun t => p (loc_pixel t) = true) (region_pixels roi pixels) in
  select (p <$> pixels) (xpos roi) = loc_x <$> pts
  /\ select (p <$> pixels) (ypos roi) = loc_y <$> pts
  /\ (forall (B : Type) (g : Pixel -> B),
        select (p <$> pixels) (g <$> pixels) = (fun t => g (loc_pixel t)) <$> pts)
  /\ count_nonzero (p <$> pixels) = length pts.
Proof.
  intros Hlen pts.
  destruct (region_pixels_fmap roi pixels Hlen) as (Hp & xrest & yrest & Hx & Hy).
  set (T := region_pixels roi pixels) in *.
  assert (Hmask : p <$> pixels = (fun t => p (loc_pixel t)) <$> T).
  { rewrite Hp at 1. now rewrite <- list_fmap_compose. }
  assert (HlenT : length ((fun t => p (loc_pixel t)) <$> T) = length T)
    by apply length_fmap.
  repeat split.
  - rewrite Hx, Hmask, select_app_l by now rewrite !length_fmap.
    apply select_fmap_filter.
  - rewrite Hy, Hmask, select_app_l by now rewrite !length_fmap.
    apply select_fmap_filter.
  - intros B g. rewrite Hmask. rewrite Hp at 1. rewrite <- list_fmap_compose.
    apply (select_fmap_filter (fun t => p (loc_pixel t)) (fun t => g (loc_pixel t))).
  - rewrite Hmask. apply count_nonzero_fmap.
Qed.

Lemma take_points_length {A} (a : list (list A)) (ys xs : list Z) (l : list A) :
  take_points a ys xs = Some l -> length l = length (zip ys xs).
Proof. unfold take_points. intros H. symmetry. eapply length_mapM. exact H. Qed.

(** ** Luminance of chromatic pixels *)

Section Luma.
  Open Scope Qc_scope.

Lemma Qc_of_Z_nonneg (z : Z) : (0 <= z)%Z -> 0 <= Qc_of_Z z.
  Proof. intros H. rewrite <- Z2Qc_inj_0. exact (proj1 (Z2Qc_inj_le 0 z) H). Qed.

Lemma Qc_of_Z_pos (z : Z) : (0 < z)%Z -> 0 < Qc_of_Z z.
  Proof. intros H. rewrite <- Z2Qc_inj_0. exact (proj1 (Z2Qc_inj_lt 0 z) H). Qed.

Lemma _Ltable_nonneg (r g b : Z) :
    (0 <= r)%Z -> (0 <= g)%Z -> (0 <= b)%Z -> 0 <= _Ltable r g b.
  Proof.
    intros Hr Hg Hb. unfold _Ltable, Qcdiv.
    apply Qcmult_nonneg_nonneg.
    - repeat apply Qcplus_nonneg_nonneg;
        (apply Qcmult_nonneg_nonneg; [discriminate | now apply Qc_of_Z_nonneg]).
    - apply Qclt_le_weak, Qcinv_pos. now apply Qc_of_Z_pos.
  Qed.

Lemma _Ltable_pos (r g b : Z) :
    (0 <= r)%Z -> (0 <= g)%Z -> (0 <= b)%Z -> (0 < r + g + b)%Z ->
    0 < _Ltable r g b.
  Proof.
    intros Hr Hg Hb Hsum. unfold _Ltable, Qcdiv.
    apply Qcmult_pos_pos; [| apply Qcinv_pos; now apply Qc_of_Z_pos].
    assert (Hn : forall (k : Qc) (z : Z), 0 < k -> (0 <= z)%Z -> 0 <= k * Qc_of_Z z).
    { intros k z Hk Hz. apply Qcmult_nonneg_nonneg;
        [now apply Qclt_le_weak | now apply Qc_of_Z_nonneg]. }
    assert (Hp : forall (k : Qc) (z : Z), 0 < k -> (0 < z)%Z -> 0 < k * Qc_of_Z z).
    { intros k z Hk Hz. apply Qcmult_pos_pos; [exact Hk | now apply Qc_of_Z_pos]. }
    assert (Hn' : forall (k : Qc) (z : Z), (0 ?= k) = Lt -> (0 <= z)%Z -> 0 <= k * Qc_of_Z z)
      by (intros; now apply Hn).
    assert (Hp' : forall (k : Qc) (z : Z), (0 ?= k) = Lt -> (0 < z)%Z -> 0 < k * Qc_of_Z z)
      by (intros; now apply Hp).
    destruct (Z_lt_le_dec 0 r) as [Hr' | Hr'].
    - apply Qcplus_pos_nonneg; [apply Qcplus_pos_nonneg |];
        first [apply Hp'; [reflexivity | lia] | apply Hn'; [reflexivity | lia]].
    - destruct (Z_lt_le_dec 0 g) as [Hg' | Hg'].
      + apply Qcplus_pos_nonneg; [apply Qcplus_nonneg_pos |];
          first [apply Hp'; [reflexivity | lia] | apply Hn'; [reflexivity | lia]].
      + apply Qcplus_nonneg_pos; [apply Qcplus_nonneg_nonneg |];
          first [apply Hp'; [reflexivity | lia] | apply Hn'; [reflexivity | lia]].
  Qed.

  (** A pixel with a hue has a positive luminance. *)
Lemma luma_of_chromatic_pos (p : Pixel) :
    pixel_ok p -> hue_of p <> (-1)%Z -> 0 < luma_of p.
  Proof.
    intros (Hr & Hg & Hb) Hh. unfold luma_of, hue_of, uint8 in *.
    apply _Ltable_pos; try lia.
    destruct (Z.eq_dec (red p + green p + blue p)%Z 0%Z) as [H0 | H0]; [| lia].
    exfalso. apply Hh, _Htable_sentinel_iff. unfold achromatic. lia.
  Qed.

Lemma hue_in_nonneg (on off : Qc) (h : Z) :
    0 <= on -> hue_in on off h = true -> (0 <= h)%Z.
  Proof.
    intros Hon Hin. unfold hue_in in Hin.
    apply andb_prop in Hin as [H1 _]. apply bool_decide_eq_true in H1.
    apply (proj2 (Z2Qc_inj_le 0 h)). rewrite Z2Qc_inj_0. eapply Qcle_trans; eassumption.
  Qed.
End Luma.

(** ** The values of a region's row *)

Lemma scan_masks_values (roi : ROI) (roi_H : list Z) (roi_L : list Qc)
    (todo : list (string * ColorMask)) (values values' : list float)
    (M M' : list (list Pixel)) :
  scan_masks roi roi_H roi_L todo values M = Some (values', M') ->
  values' = values
            ++ concat ((fun kc : string * ColorMask =>
                          class_values roi roi_H roi_L kc.2) <$> todo).
Proof.
  revert values M. induction todo as [| [maskname colormask] rest IH];
    intros values M Hscan; csimpl in *.
  - injection Hscan as <- _. now rewrite app_nil_r.
  - unfold class_values at 1. simpl.
    destruct (decide (0 < count_nonzero (ColorMask_apply colormask roi_H))%nat).
    + destruct (ROI_mark roi M _ (color colormask)) as [M1 |]; [| discriminate].
      apply IH in Hscan. rewrite Hscan, <- app_assoc. reflexivity.
    + apply IH in Hscan. rewrite Hscan, <- app_assoc. reflexivity.
Qed.

Lemma roi_update_values (roi : ROI) (colors : list (string * ColorMask))
    (frame M M' : list (list Pixel)) (values : list float) :
  roi_update roi colors frame M = Some (values, M') ->
  exists pixels, ROI_crop roi frame = Some pixels
                 /\ values = roi_values roi colors pixels.
Proof.
  unfold roi_update, vector_as_HL, roi_values.
  destruct (ROI_crop roi frame) as [pixels |]; [| discriminate]. simpl.
  intros H. apply scan_masks_values in H. exists pixels. now split.
Qed.

Lemma class_values_length (roi : ROI) (roi_H : list Z) (roi_L : list Qc)
    (c : ColorMask) : length (class_values roi roi_H roi_L c) = 2%nat.
Proof. unfold class_values. now destruct (decide _). Qed.

Lemma lookup_concat_pairs {A B} (f : A -> list B) (l : list A) (j : nat) (t : A) :
  (forall a, length (f a) = 2%nat) -> l !! j = Some t ->
  concat (f <$> l) !! (2 * j)%nat = f t !! 0%nat
  /\ concat (f <$> l) !! (2 * j + 1)%nat = f t !! 1%nat.
Proof.
  intros Hlen. revert j. induction l as [| a l IH]; intros j Hj; [discriminate |].
  csimpl. destruct j as [| j].
  - injection Hj as ->. simpl. pose proof (Hlen t) as Ht.
    split; apply lookup_app_l; lia.
  - simpl in Hj. destruct (IH j Hj) as [H0 H1]. pose proof (Hlen a) as Ha.
    split.
    + rewrite lookup_app_r by lia. rewrite <- H0. f_equal. lia.
    + rewrite lookup_app_r by lia. rewrite <- H1. f_equal. lia.
Qed.

(** What one class contributes, in terms of the matched pixels of the
    region: the centroid of 1-based coordinates, or the NaN pair. *)
Lemma class_values_matched (roi : ROI) (pixels : list Pixel) (c : ColorMask) :
  length pixels = length (zip (ypos roi) (xpos roi)) ->
  let pts := matched_pixels (onset c) (offset c) (region_pixels roi pixels) in
  class_values roi (hue_of <$> pixels) (luma_of <$> pixels) c
  = if decide (pts = []) then [NaN; NaN]
    else [one_based_centroid loc_x pts; one_based_centroid loc_y pts].
Proof.
  intros Hlen pts. unfold class_values, ColorMask_apply.
  rewrite <- list_fmap_compose.
  destruct (select_region roi pixels
              (fun p => hue_in (onset c) (offset c) (hue_of p)) Hlen)
    as (Hx & Hy & Hg & Hcount).
  fold (matched_pixels (onset c) (offset c) (region_pixels roi pixels)) in Hx, Hy, Hg, Hcount.
  fold pts in Hx, Hy, Hg, Hcount.
  change (hue_in (onset c) (offset c) ∘ hue_of)
    with (fun p => hue_in (onset c) (offset c) (hue_of p)).
  rewrite Hcount, Hx, Hy, (Hg Qc luma_of).
  destruct (decide (pts = [])) as [-> | Hne].
  - reflexivity.
  - rewrite decide_True by (destruct pts; [contradiction | simpl; lia]).
    unfold centroid, one_based_centroid.
    rewrite !np_add_div_one, !weighted_sum_fmap, !np_sum_shift. reflexivity.
Qed.

(** With 8-bit pixels and a class whose interval starts at a hue (0 or
    more), the matched pixels carry positive weight and the centroid is a
    finite number. *)
Lemma one_based_centroid_finite (coord : located -> Z) (on off : Qc)
    (region : list located) :
  Forall (fun t => pixel_ok (loc_pixel t)) region -> (0 <= on)%Qc ->
  let pts := matched_pixels on off region in
  pts <> [] ->
  one_based_centroid coord pts
  = Fin (np_sum ((fun t => (Qc_of_Z (coord t + 1) * luma_of (loc_pixel t))%Qc) <$> pts)
         / np_sum ((fun t => luma_of (loc_pixel t)) <$> pts))%Qc.
Proof.
  intros Hok Hon pts Hne. unfold one_based_centroid, np_div.
  rewrite decide_False; [reflexivity |].
  apply Qc_pos_neq_0, np_sum_pos.
  - intros H. apply fmap_nil_inv in H. contradiction.
  - apply Forall_fmap. subst pts. unfold matched_pixels.
    apply Forall_forall. intros t Ht. apply list_elem_of_filter in Ht as [Hin Ht].
    simpl. apply luma_of_chromatic_pos.
    + rewrite Forall_forall in Hok. now apply Hok.
    + pose proof (hue_in_nonneg on off _ Hon Hin). lia.
Qed.

(** ** Reading and writing positions of an array *)

Lemma grid_lookup_insert {A} (a : list (list A)) (p q : nat * nat) (v : A) :
  grid_lookup (grid_insert p v a) q
  = if decide (p = q) then (fun _ => v) <$> grid_lookup a q else grid_lookup a q.
Proof.
  unfold grid_lookup, grid_insert. destruct p as [i j], q as [i' j']; simpl.
  rewrite list_lookup_alter.
  destruct (decide (i = i')) as [-> | Hi].
  - destruct (a !! i') as [row |] eqn:Hrow; simpl.
    + destruct (decide (j = j')) as [-> | Hj].
      * rewrite decide_True by reflexivity.
        destruct (row !! j') as [old |] eqn:Hold; simpl.
        -- apply list_lookup_insert_eq. eapply lookup_lt_Some; eassumption.
        -- apply lookup_ge_None. rewrite length_insert.
           now apply lookup_ge_None in Hold.
      * rewrite decide_False by congruence. now apply list_lookup_insert_ne.
    + now destruct (decide ((i', j) = (i', j'))).
  - rewrite decide_False by congruence. reflexivity.
Qed.

Lemma shape_grid_insert {A} (a : list (list A)) (p : nat * nat) (v : A) :
  shape (grid_insert p v a) = shape a.
Proof.
  unfold shape, grid_insert. rewrite length_alter. f_equal.
  destruct a as [| row a]; [reflexivity |]. destruct p as [[| i] j]; simpl;
    [apply length_insert | reflexivity].
Qed.

Lemma shape_foldl_insert {A} (a : list (list A)) (ps : list (nat * nat)) (v : A) :
  shape (foldl (fun acc p => grid_insert p v acc) a ps) = shape a.
Proof.
  revert a. induction ps as [| p ps IH]; intros a; simpl; [reflexivity |].
  now rewrite IH, shape_grid_insert.
Qed.

Lemma grid_lookup_foldl_insert {A} (a : list (list A)) (ps : list (nat * nat))
    (q : nat * nat) (v : A) :
  grid_lookup (foldl (fun acc p => grid_insert p v acc) a ps) q
  = if decide (q ∈ ps) then (fun _ => v) <$> grid_lookup a q else grid_lookup a q.
Proof.
  revert a. induction ps as [| p ps IH]; intros a; cbn [foldl].
  - destruct (decide (q ∈ [])) as [H | _]; [inversion H | reflexivity].
  - rewrite IH, grid_lookup_insert.
    destruct (decide (q ∈ ps)) as [Hin | Hnin];
      destruct (decide (p = q)) as [Heq | Hne];
      destruct (decide (q ∈ p :: ps)) as [Hin' | Hnin']; try reflexivity.
    + now destruct (grid_lookup a q).
    + exfalso. apply Hnin'. now apply list_elem_of_further.
    + exfalso. apply Hnin'. now apply list_elem_of_further.
    + exfalso. apply Hnin'. subst. apply list_elem_of_here.
    + exfalso. apply elem_of_cons in Hin' as [-> | Hin']; contradiction.
Qed.

Lemma np_position_shape {A B} (a : list (list A)) (b : list (list B)) (y x : Z) :
  shape a = shape b -> np_position a y x = np_position b y x.
Proof. unfold np_position. now intros ->. Qed.

Lemma put_points_spec {A} (a a' : list (list A)) (ys xs : list Z) (v : A) :
  put_points a ys xs v = Some a' ->
  exists ps, mapM (fun yx : Z * Z => np_position a yx.1 yx.2) (zip ys xs) = Some ps
             /\ shape a' = shape a
             /\ forall q, grid_lookup a' q
                          = if decide (q ∈ ps) then (fun _ => v) <$> grid_lookup a q
                            else grid_lookup a q.
Proof.
  unfold put_points. destruct (mapM _ _) as [ps |]; [| discriminate]. simpl.
  intros H. injection H as <-. exists ps. split; [reflexivity |].
  split; [apply shape_foldl_insert |]. intros q. apply grid_lookup_foldl_insert.
Qed.

Lemma shape_zeros_like {A B} (z : B) (a : list (list A)) :
  shape (zeros_like z a) = shape a.
Proof.
  destruct a as [| row a]; [reflexivity |].
  unfold zeros_like, shape; simpl. now rewrite !length_replicate.
Qed.

Lemma np_index_lt (n : nat) (i : Z) (k : nat) : np_index n i = Some k -> (k < n)%nat.
Proof.
  unfold np_index. repeat case_decide; intros Hk; inversion Hk; subst; lia.
Qed.

Lemma np_position_lt {A} (a : list (list A)) (y x : Z) (q : nat * nat) :
  np_position a y x = Some q -> (q.1 < (shape a).1)%nat /\ (q.2 < (shape a).2)%nat.
Proof.
  unfold np_position. destruct (np_index _ y) as [i |] eqn:Hi; [| discriminate].
  destruct (np_index _ x) as [j |] eqn:Hj; [| discriminate]. simpl.
  intros H. injection H as <-. simpl.
  split; eapply np_index_lt; eassumption.
Qed.

Lemma grid_lookup_zeros_like {A B} (z : B) (a : list (list A)) (q : nat * nat) :
  (q.1 < (shape a).1)%nat -> (q.2 < (shape a).2)%nat ->
  grid_lookup (zeros_like z a) q = Some z.
Proof.
  intros H1 H2. unfold grid_lookup, zeros_like.
  rewrite lookup_replicate_2 by exact H1. simpl.
  now apply lookup_replicate_2.
Qed.

(** ** Cropping and marking a region *)

Lemma take_points_positions (frame : list (list Pixel)) (ys xs : list Z)
    (pixels : list Pixel) :
  take_points frame ys xs = Some pixels ->
  exists Q, mapM (fun yx : Z * Z => np_position frame yx.1 yx.2) (zip ys xs) = Some Q
            /\ Forall2 (fun q px => grid_lookup frame q = Some px) Q pixels.
Proof.
  unfold take_points. intros H. apply mapM_Some_1 in H.
  induction H as [| yx px l k Hget _ (Q & HQ & HF)].
  - exists []. split; [reflexivity | constructor].
  - unfold getitem2 in Hget.
    destruct (np_position frame yx.1 yx.2) as [q |] eqn:Hq; [| discriminate].
    simpl in Hget. exists (q :: Q). split.
    + apply mapM_Some_2. constructor; [exact Hq |]. now apply mapM_Some_1.
    + now constructor.
Qed.

Lemma zip_select {A B} (mask : list bool) (u : list A) (v : list B) :
  zip (select mask u) (select mask v) = select mask (zip u v).
Proof.
  revert u v. induction mask as [| m mask IH]; intros u v; [reflexivity |].
  destruct u as [| a u]; [now rewrite !select_nil_r |].
  destruct v as [| b v].
  - simpl. now rewrite zip_with_nil_r.
  - simpl. destruct m; simpl; now rewrite IH.
Qed.

Lemma mapM_select {A B} (f : A -> option B) (mask : list bool) (l : list A)
    (k : list B) :
  mapM f l = Some k -> mapM f (select mask l) = Some (select mask k).
Proof.
  intros H. apply mapM_Some_2. apply mapM_Some_1 in H.
  revert mask. induction H as [| a b l k Hab _ IH]; intros mask.
  - rewrite !select_nil_r. constructor.
  - destruct mask as [| [|] mask]; simpl; [constructor | | apply IH].
    constructor; [exact Hab | apply IH].
Qed.

Lemma elem_of_select_positions (frame : list (list Pixel)) (Q : list (nat * nat))
    (pixels : list Pixel) (p : Pixel -> bool) (q : nat * nat) :
  Forall2 (fun q px => grid_lookup frame q = Some px) Q pixels ->
  q ∈ select (p <$> pixels) Q <-> q ∈ Q /\ p (pixel_at frame q) = true.
Proof.
  induction 1 as [| q0 px Q pixels Hq0 _ IH]; csimpl.
  - split; [intros H; inversion H | intros [H _]; inversion H].
  - assert (Hpx : pixel_at frame q0 = px) by (unfold pixel_at; now rewrite Hq0).
    destruct (p px) eqn:Hp.
    + rewrite !elem_of_cons, IH. split.
      * intros [-> | [H1 H2]]; [split; [now left | now rewrite Hpx] | split; [now right | exact H2]].
      * intros [[-> | H1] H2]; [now left | right; now split].
    + rewrite IH, elem_of_cons. split.
      * intros [H1 H2]. split; [now right | exact H2].
      * intros [[-> | H1] H2]; [rewrite Hpx in H2; congruence | now split].
Qed.

Lemma length_select {A} (mask : list bool) (v : list A) :
  length mask = length v -> length (select mask v) = count_nonzero mask.
Proof.
  unfold count_nonzero. revert v.
  induction mask as [| m mask IH]; intros [| a v] Hlen; try discriminate;
    [reflexivity |].
  injection Hlen as Hlen. simpl. rewrite filter_cons. destruct m.
  - rewrite decide_True by reflexivity. simpl. now rewrite IH.
  - rewrite decide_False by discriminate. now apply IH.
Qed.

Section Marking.
  Variable frame : list (list Pixel).
  Variable roi : ROI.
  Variable pixels : list Pixel.
  Variable Q : list (nat * nat).
  Hypothesis Hcrop : ROI_crop roi frame = Some pixels.
  Hypothesis HQ : region_positions roi frame = Some Q.

Lemma region_positions_pixels :
    Forall2 (fun q px => grid_lookup frame q = Some px) Q pixels.
  Proof.
    destruct (take_points_positions _ _ _ _ Hcrop) as (Q' & HQ' & HF).
    unfold region_positions in HQ. rewrite HQ in HQ'. now injection HQ' as <-.
  Qed.

Lemma ROI_mark_spec (M M' : list (list Pixel)) (p : Pixel -> bool) (v : Pixel) :
    shape M = shape frame ->
    ROI_mark roi M (p <$> pixels) v = Some M' ->
    shape M' = shape frame
    /\ forall q, grid_lookup M' q
                 = if decide (q ∈ Q /\ p (pixel_at frame q) = true)
                   then (fun _ => v) <$> grid_lookup M q
                   else grid_lookup M q.
  Proof.
    intros Hshape Hmark. unfold ROI_mark in Hmark.
    apply put_points_spec in Hmark as (ps & Hps & Hsh & Hlook).
    rewrite zip_select in Hps.
    assert (Hsel : mapM (fun yx : Z * Z => np_position M yx.1 yx.2)
                     (select (p <$> pixels) (zip (ypos roi) (xpos roi)))
                   = Some (select (p <$> pixels) Q)).
    { apply mapM_select. unfold region_positions in HQ. rewrite <- HQ.
      apply mapM_ext. intros yx. now apply np_position_shape. }
    rewrite Hsel in Hps. injection Hps as <-.
    split; [congruence |]. intros q. rewrite Hlook.
    pose proof (elem_of_select_positions frame Q pixels p q region_positions_pixels) as Hiff.
    destruct (decide (q ∈ select (p <$> pixels) Q)) as [Hin | Hnin];
      destruct (decide (q ∈ Q /\ p (pixel_at frame q) = true)) as [Hc | Hnc];
      try reflexivity; tauto.
  Qed.

Lemma ROI_mark_is_Some (M : list (list Pixel)) (mask : list bool) (v : Pixel) :
    shape M = shape frame -> is_Some (ROI_mark roi M mask v).
  Proof.
    intros Hshape. unfold ROI_mark, put_points. rewrite zip_select.
    erewrite mapM_select; [simpl; eauto |].
    unfold region_positions in HQ. rewrite <- HQ.
    apply mapM_ext. intros yx. now apply np_position_shape.
  Qed.

Lemma no_match_no_mark (p : Pixel -> bool) (q : nat * nat) :
    count_nonzero (p <$> pixels) = 0%nat -> q ∈ Q -> p (pixel_at frame q) = false.
  Proof.
    intros Hcount Hq. destruct (p (pixel_at frame q)) eqn:Hp; [| reflexivity].
    exfalso.
    assert (Hin : q ∈ select (p <$> pixels) Q)
      by (apply (elem_of_select_positions frame Q pixels p q region_positions_pixels); now split).
    assert (Hlen : length (select (p <$> pixels) Q) = 0%nat).
    { rewrite length_select; [exact Hcount |]. rewrite length_fmap.
      symmetry. eapply Forall2_length, region_positions_pixels. }
    destruct (select (p <$> pixels) Q); [inversion Hin | discriminate].
  Qed.
End Marking.

(** ** What the classes leave in the mask frame *)

Lemma paint_over_nil (p old : Pixel) : paint_over [] p old = old.
Proof. reflexivity. Qed.

Lemma paint_over_cons (kc : string * ColorMask) (rest : list (string * ColorMask))
    (p old : Pixel) :
  paint_over (kc :: rest) p old
  = paint_over rest p (if in_class kc p then color kc.2 else old).
Proof.
  unfold paint_over. rewrite filter_cons.
  destruct (in_class kc p) eqn:Hin.
  - rewrite decide_True by reflexivity. rewrite last_cons.
    now destruct (last (filter _ rest)).
  - rewrite decide_False by discriminate. reflexivity.
Qed.

Lemma paint_over_idem (cs : list (string * ColorMask)) (p old : Pixel) :
  paint_over cs p (paint_over cs p old) = paint_over cs p old.
Proof. unfold paint_over. now destruct (last _). Qed.

Lemma paint_over_none (cs : list (string * ColorMask)) (p old : Pixel) :
  (forall kc, kc ∈ cs -> in_class kc p = false) -> paint_over cs p old = old.
Proof.
  intros Hnone. unfold paint_over.
  destruct (last _) as [kc |] eqn:Hlast; [| reflexivity].
  apply last_Some_elem_of, list_elem_of_filter in Hlast as [Hin Hkc].
  rewrite (Hnone kc Hkc) in Hin. discriminate.
Qed.

(** When the class at [j] holds the pixel's hue and no class declared after
    it does, the pixel ends with that class's colour. *)
Lemma paint_over_last (cs : list (string * ColorMask)) (j : nat)
    (kc : string * ColorMask) (p old : Pixel) :
  cs !! j = Some kc -> in_class kc p = true ->
  (forall j' kc', (j < j')%nat -> cs !! j' = Some kc' -> in_class kc' p = false) ->
  paint_over cs p old = color kc.2.
Proof.
  revert j old. induction cs as [| c cs IH]; intros j old Hj Hin Hlater; [discriminate |].
  rewrite paint_over_cons. destruct j as [| j].
  - injection Hj as ->. rewrite Hin. apply paint_over_none.
    intros kc' Hkc'. apply list_elem_of_lookup in Hkc' as [j' Hj'].
    apply (Hlater (S j') kc'); [lia | exact Hj'].
  - apply (IH j); [exact Hj | exact Hin |].
    intros j' kc' Hlt Hj'. apply (Hlater (S j') kc'); [lia | exact Hj'].
Qed.

Lemma ColorMask_apply_in_class (name : string) (c : ColorMask) (pixels : list Pixel) :
  ColorMask_apply c (hue_of <$> pixels) = in_class (name, c) <$> pixels.
Proof. unfold ColorMask_apply. now rewrite <- list_fmap_compose. Qed.

Section ScanMasks.
  Variable frame : list (list Pixel).
  Variable roi : ROI.
  Variable pixels : list Pixel.
  Variable Q : list (nat * nat).
  Hypothesis Hcrop : ROI_crop roi frame = Some pixels.
  Hypothesis HQ : region_positions roi frame = Some Q.

  Local Abbreviation roi_H := (hue_of <$> pixels).
  Local Abbreviation roi_L := (luma_of <$> pixels).

Lemma scan_masks_marks (todo : list (string * ColorMask))
      (values values' : list float) (M M' : list (list Pixel)) :
    shape M = shape frame ->
    scan_masks roi roi_H roi_L todo values M = Some (values', M') ->
    shape M' = shape frame
    /\ forall q, grid_lookup M' q
                 = (fun old => if decide (q ∈ Q)
                               then paint_over todo (pixel_at frame q) old
                               else old) <$> grid_lookup M q.
  Proof.
    revert values M.
    induction todo as [| [maskname colormask] rest IH]; intros values M Hshape Hscan.
    - simpl in Hscan. injection Hscan as _ <-. split; [exact Hshape |].
      intros q. destruct (grid_lookup M q); simpl; [| reflexivity].
      now destruct (decide (q ∈ Q)).
    - cbn [scan_masks] in Hscan.
      rewrite (ColorMask_apply_in_class maskname) in Hscan.
      destruct (decide (0 < count_nonzero (in_class (maskname, colormask) <$> pixels))%nat)
        as [Hpos | Hzero].
      + destruct (ROI_mark roi M _ (color colormask)) as [M1 |] eqn:Hmark;
          [| discriminate].
        destruct (ROI_mark_spec frame roi pixels Q Hcrop HQ M M1 _ _ Hshape Hmark)
          as [Hsh1 Hl1].
        destruct (IH _ _ Hsh1 Hscan) as [Hsh' Hl'].
        split; [exact Hsh' |]. intros q. rewrite Hl', Hl1.
        destruct (decide (q ∈ Q /\ in_class (maskname, colormask) (pixel_at frame q) = true))
          as [[Hq Hin] | Hn]; destruct (grid_lookup M q) as [old |]; simpl;
          try reflexivity; f_equal.
        * rewrite decide_True by exact Hq. rewrite decide_True by exact Hq.
          rewrite paint_over_cons, Hin. reflexivity.
        * destruct (decide (q ∈ Q)) as [Hq | Hq]; [| reflexivity].
          rewrite paint_over_cons.
          destruct (in_class (maskname, colormask) (pixel_at frame q)) eqn:Hin;
            [exfalso; apply Hn; now split | reflexivity].
      + destruct (IH _ _ Hshape Hscan) as [Hsh' Hl'].
        split; [exact Hsh' |]. intros q. rewrite Hl'.
        destruct (grid_lookup M q) as [old |]; simpl; [| reflexivity]. f_equal.
        destruct (decide (q ∈ Q)) as [Hq | Hq]; [| reflexivity].
        rewrite paint_over_cons.
        rewrite (no_match_no_mark frame roi pixels Q Hcrop HQ
                   (in_class (maskname, colormask)) q); [reflexivity | lia | exact Hq].
  Qed.

Lemma scan_masks_is_Some (todo : list (string * ColorMask))
      (values : list float) (M : list (list Pixel)) :
    shape M = shape frame ->
    is_Some (scan_masks roi roi_H roi_L todo values M).
  Proof.
    revert values M.
    induction todo as [| [maskname colormask] rest IH]; intros values M Hshape.
    - simpl. eauto.
    - cbn [scan_masks]. destruct (decide _) as [Hpos | Hzero]; [| now apply IH].
      destruct (ROI_mark_is_Some frame roi Q HQ M
                  (ColorMask_apply colormask roi_H) (color colormask) Hshape)
        as [M1 Hmark].
      rewrite Hmark. apply IH.
      rewrite (ColorMask_apply_in_class maskname) in Hmark.
      now destruct (ROI_mark_spec frame roi pixels Q Hcrop HQ M M1 _ _ Hshape Hmark).
  Qed.
End ScanMasks.

Lemma ROI_crop_positions (roi : ROI) (frame : list (list Pixel)) (pixels : list Pixel) :
  ROI_crop roi frame = Some pixels ->
  exists Q, region_positions roi frame = Some Q
            /\ Forall2 (fun q px => grid_lookup frame q = Some px) Q pixels.
Proof. apply take_points_positions. Qed.

(** The whole of one region's turn: its row and its marks. *)
Lemma roi_update_spec (roi : ROI) (colors : list (string * ColorMask))
    (frame M M' : list (list Pixel)) (values : list float) :
  shape M = shape frame ->
  roi_update roi colors frame M = Some (values, M') ->
  exists pixels Q,
    ROI_crop roi frame = Some pixels
    /\ region_positions roi frame = Some Q
    /\ values = roi_values roi colors pixels
    /\ shape M' = shape frame
    /\ forall q, grid_lookup M' q
                 = (fun old => if decide (q ∈ Q)
                               then paint_over colors (pixel_at frame q) old
                               else old) <$> grid_lookup M q.
Proof.
  intros Hshape Hup.
  destruct (roi_update_values _ _ _ _ _ _ Hup) as (pixels & Hcrop & Hvalues).
  destruct (ROI_crop_positions _ _ _ Hcrop) as (Q & HQ & _).
  exists pixels, Q. repeat split; try assumption.
  - unfold roi_update in Hup. rewrite Hcrop in Hup. simpl in Hup.
    now destruct (scan_masks_marks frame roi pixels Q Hcrop HQ _ _ _ _ _ Hshape Hup).
  - unfold roi_update in Hup. rewrite Hcrop in Hup. simpl in Hup.
    now destruct (scan_masks_marks frame roi pixels Q Hcrop HQ _ _ _ _ _ Hshape Hup).
Qed.

Lemma roi_update_is_Some (roi : ROI) (colors : list (string * ColorMask))
    (frame M : list (list Pixel)) (pixels : list Pixel) :
  shape M = shape frame -> ROI_crop roi frame = Some pixels ->
  is_Some (roi_update roi colors frame M).
Proof.
  intros Hshape Hcrop. destruct (ROI_crop_positions _ _ _ Hcrop) as (Q & HQ & _).
  unfold roi_update. rewrite Hcrop. simpl.
  now apply (scan_masks_is_Some frame roi pixels Q Hcrop HQ).
Qed.

(** ** The loop over the regions *)

Lemma file_write_Ok (fp fp' : TextFile) (s : string) :
  file_write fp s = Ok fp' -> fclosed fp = false /\ fp' = with_row fp s.
Proof.
  unfold file_write, with_row. destruct (fclosed fp); [discriminate |].
  intros H. injection H as <-. now split.
Qed.

Lemma scan_ROIs_rows (i : nat) (frame : list (list Pixel))
    (colors : list (string * ColorMask)) (todo : list (string * ROI))
    (files files' : gmap string TextFile) (M M' : list (list Pixel)) :
  NoDup todo.*1 ->
  scan_ROIs i frame colors todo files M = (files', Ok M') ->
  (forall R, R ∉ todo.*1 -> files' !! R = files !! R)
  /\ (forall R, files !! R = None -> files' !! R = None)
  /\ (forall R roi fp, (R, roi) ∈ todo -> files !! R = Some fp ->
        exists pixels,
          ROI_crop roi frame = Some pixels
          /\ fclosed fp = false
          /\ files' !! R
             = Some (with_row fp (result_row i (roi_values roi colors pixels)))).
Proof.
  revert files M. induction todo as [| [R0 roi0] rest IH]; intros files M Hnd Hscan.
  - simpl in Hscan. injection Hscan as <- _.
    repeat split; try done. intros R roi fp Hin. inversion Hin.
  - apply NoDup_cons in Hnd as [Hfresh Hnd]. cbn [scan_ROIs] in Hscan.
    destruct (files !! R0) as [fp0 |] eqn:Hfp0.
    + destruct (roi_update roi0 colors frame M) as [[values M1] |] eqn:Hup;
        [| discriminate].
      destruct (file_write fp0 (result_row i values)) as [fp0' | e] eqn:Hw;
        [| discriminate].
      apply file_write_Ok in Hw as [Hopen ->].
      destruct (roi_update_values _ _ _ _ _ _ Hup) as (pixels & Hcrop & ->).
      destruct (IH _ _ Hnd Hscan) as (Hout & Hnone & Hrows).
      split; [| split].
      * intros R HR. apply not_elem_of_cons in HR as [Hne HR].
        rewrite (Hout R HR). now rewrite lookup_insert_ne.
      * intros R HR. apply Hnone. rewrite lookup_insert_ne; [exact HR | congruence].
      * intros R roi fp Hin Hfp. apply elem_of_cons in Hin as [Heq | Hin].
        -- injection Heq as -> ->. rewrite Hfp0 in Hfp. injection Hfp as <-.
           exists pixels. split; [exact Hcrop |]. split; [exact Hopen |].
           rewrite (Hout R0 Hfresh). apply lookup_insert_eq.
        -- assert (Hne : R0 <> R).
           { intros ->. apply Hfresh. apply list_elem_of_fmap. now exists (R, roi). }
           apply (Hrows R roi fp Hin). now rewrite lookup_insert_ne.
    + destruct (IH _ _ Hnd Hscan) as (Hout & Hnone & Hrows).
      split; [| split].
      * intros R HR. apply not_elem_of_cons in HR as [_ HR]. now apply Hout.
      * exact Hnone.
      * intros R roi fp Hin Hfp. apply elem_of_cons in Hin as [Heq | Hin].
        -- injection Heq as -> ->. congruence.
        -- now apply (Hrows R roi fp).
Qed.

Lemma covered_cons (frame : list (list Pixel)) (R0 : string) (roi0 : ROI)
    (rest : list (string * ROI)) (files : gmap string TextFile) (q : nat * nat) :
  covered frame ((R0, roi0) :: rest) files q
  <-> (is_Some (files !! R0)
       /\ exists Q, region_positions roi0 frame = Some Q /\ q ∈ Q)
      \/ covered frame rest files q.
Proof.
  unfold covered. split.
  - intros (R & roi & Q & Hin & Hopen & HQ & Hq).
    apply elem_of_cons in Hin as [Heq | Hin].
    + injection Heq as -> ->. left. split; [exact Hopen | now exists Q].
    + right. now exists R, roi, Q.
  - intros [[Hopen (Q & HQ & Hq)] | (R & roi & Q & Hin & Hopen & HQ & Hq)].
    + exists R0, roi0, Q. split; [apply list_elem_of_here | now repeat split].
    + exists R, roi, Q. split; [now apply list_elem_of_further | now repeat split].
Qed.

Lemma covered_insert (frame : list (list Pixel)) (rois : list (string * ROI))
    (files : gmap string TextFile) (R0 : string) (fp : TextFile) (q : nat * nat) :
  is_Some (files !! R0) ->
  covered frame rois (<[R0 := fp]> files) q <-> covered frame rois files q.
Proof.
  intros Hopen0. unfold covered.
  split; intros (R & roi & Q & Hin & Hopen & HQ & Hq); exists R, roi, Q;
    repeat split; try assumption.
  - destruct (decide (R0 = R)) as [<- | Hne]; [exact Hopen0 |].
    now rewrite lookup_insert_ne in Hopen.
  - destruct (decide (R0 = R)) as [<- | Hne];
      [rewrite lookup_insert_eq; eauto | now rewrite lookup_insert_ne].
Qed.

Lemma scan_ROIs_marks (i : nat) (frame : list (list Pixel))
    (colors : list (string * ColorMask)) (todo : list (string * ROI))
    (files files' : gmap string TextFile) (M M' : list (list Pixel)) :
  shape M = shape frame ->
  scan_ROIs i frame colors todo files M = (files', Ok M') ->
  shape M' = shape frame
  /\ (forall q, grid_lookup M' q = grid_lookup M q
                \/ grid_lookup M' q
                   = paint_over colors (pixel_at frame q) <$> grid_lookup M q)
  /\ (forall q, covered frame todo files q ->
        grid_lookup M' q = paint_over colors (pixel_at frame q) <$> grid_lookup M q)
  /\ (forall q, ~ covered frame todo files q -> grid_lookup M' q = grid_lookup M q).
Proof.
  revert files M. induction todo as [| [R0 roi0] rest IH]; intros files M Hshape Hscan.
  - simpl in Hscan. injection Hscan as _ <-.
    repeat split; try done; [now left |].
    intros q (R & roi & Q & Hin & _). inversion Hin.
  - cbn [scan_ROIs] in Hscan. destruct (files !! R0) as [fp0 |] eqn:Hfp0.
    + destruct (roi_update roi0 colors frame M) as [[values M1] |] eqn:Hup;
        [| discriminate].
      destruct (file_write fp0 (result_row i values)) as [fp0' | e] eqn:Hw;
        [| discriminate].
      destruct (roi_update_spec _ _ _ _ _ _ Hshape Hup)
        as (pixels & Q & Hcrop & HQ & _ & Hsh1 & Hl1).
      destruct (IH _ _ Hsh1 Hscan) as (Hsh' & Hweak & Hcov & Hnot).
      assert (Hopen0 : is_Some (files !! R0)) by (rewrite Hfp0; eauto).
      split; [exact Hsh' |]. split; [| split].
      * intros q. specialize (Hweak q). rewrite Hl1 in Hweak.
        destruct (grid_lookup M q) as [old |]; simpl in *;
          [| destruct Hweak as [-> | ->]; now left].
        destruct (decide (q ∈ Q)); destruct Hweak as [-> | ->]; simpl;
          rewrite ?paint_over_idem; auto.
      * intros q Hq. apply covered_cons in Hq as [[_ (Q' & HQ' & Hq)] | Hq].
        -- rewrite HQ in HQ'. injection HQ' as <-.
           specialize (Hweak q). rewrite Hl1 in Hweak.
           destruct (grid_lookup M q) as [old |]; simpl in *;
             [| now destruct Hweak].
           rewrite decide_True in Hweak by exact Hq.
           destruct Hweak as [-> | ->]; simpl; now rewrite ?paint_over_idem.
        -- rewrite (Hcov q) by (now apply covered_insert).
           rewrite Hl1. destruct (grid_lookup M q) as [old |]; simpl; [| reflexivity].
           destruct (decide (q ∈ Q)); now rewrite ?paint_over_idem.
      * intros q Hq.
        rewrite (Hnot q).
        -- rewrite Hl1. destruct (grid_lookup M q) as [old |]; simpl; [| reflexivity].
           rewrite decide_False; [reflexivity |].
           intros HqQ. apply Hq, covered_cons. left. split; [exact Hopen0 | now exists Q].
        -- intros Hc. apply Hq, covered_cons. right. now apply covered_insert in Hc.
    + destruct (IH _ _ Hshape Hscan) as (Hsh' & Hweak & Hcov & Hnot).
      split; [exact Hsh' |]. split; [exact Hweak |]. split.
      * intros q Hq. apply covered_cons in Hq as [[[fp Hfp] _] | Hq];
          [congruence | now apply Hcov].
      * intros q Hq. apply Hnot. intros Hc. apply Hq, covered_cons. now right.
Qed.

(** What a call of [__update__] that returns has done. *)
Lemma Pixylation__update__Returned (i : nat) (frame : list (list Pixel))
    (self self' : Pixylation) :
  Pixylation__update__ i frame self = (self', Returned) ->
  exists M',
    scan_ROIs i frame (masks self) (ROIs self) (_resultfiles self)
      (zeros_like black frame) = (_resultfiles self', Ok M')
    /\ masks self' = masks self /\ ROIs self' = ROIs self
    /\ _maskfile self' = (fun w => with_frame w M') <$> _maskfile self.
Proof.
  unfold Pixylation__update__.
  destruct (scan_ROIs _ _ _ _ _ _) as [files [M' | e]] eqn:Hscan; [| discriminate].
  destruct (_maskfile self) as [w |] eqn:Hw.
  - unfold writeFrame. destruct (wclosed w); [discriminate |].
    intros H. injection H as <-. exists M'. now repeat split.
  - intros H. injection H as <-. exists M'. now repeat split.
Qed.

(** ** One region, one coordinate, one frame *)

Lemma region_position_at (roi : ROI) (frame : list (list Pixel))
    (pixels : list Pixel) (k : nat) (x y : Z) (px : Pixel) :
  ROI_crop roi frame = Some pixels ->
  xpos roi !! k = Some x -> ypos roi !! k = Some y -> pixels !! k = Some px ->
  exists Q q, region_positions roi frame = Some Q /\ q ∈ Q
              /\ np_position frame y x = Some q
              /\ grid_lookup frame q = Some px
              /\ (x, y, px) ∈ region_pixels roi pixels.
Proof.
  intros Hcrop Hx Hy Hpx.
  destruct (ROI_crop_positions _ _ _ Hcrop) as (Q & HQ & HF).
  assert (Hzip : zip (ypos roi) (xpos roi) !! k = Some (y, x))
    by now apply lookup_zip_Some.
  pose proof HQ as HQ'. unfold region_positions in HQ'. apply mapM_Some_1 in HQ'.
  destruct (Forall2_lookup_l _ _ _ _ _ HQ' Hzip) as (q & Hq & Hpos).
  exists Q, q. split; [exact HQ |]. split; [eapply list_elem_of_lookup_2; eassumption |].
  split; [exact Hpos |]. split.
  - exact (Forall2_lookup_lr _ _ _ _ _ _ HF Hq Hpx).
  - unfold region_pixels. apply (list_elem_of_lookup_2 _ k).
    apply lookup_zip_Some. split; [now apply lookup_zip_Some | exact Hpx].
Qed.

Lemma crop_pixels_ok (roi : ROI) (frame : list (list Pixel)) (pixels : list Pixel) :
  frame_ok frame -> ROI_crop roi frame = Some pixels ->
  Forall (fun t => pixel_ok (loc_pixel t)) (region_pixels roi pixels).
Proof.
  intros Hok Hcrop. destruct (ROI_crop_positions _ _ _ Hcrop) as (Q & _ & HF).
  assert (Hpix : Forall pixel_ok pixels).
  { apply Forall_forall. intros px Hpx.
    apply list_elem_of_lookup in Hpx as [k Hk].
    destruct (Forall2_lookup_r _ _ _ _ _ HF Hk) as ([r c] & _ & Hq).
    unfold grid_lookup in Hq. simpl in Hq.
    destruct (frame !! r) as [row |] eqn:Hrow; [| discriminate]. simpl in Hq.
    unfold frame_ok in Hok. rewrite Forall_forall in Hok.
    specialize (Hok row (list_elem_of_lookup_2 _ _ _ Hrow)).
    rewrite Forall_forall in Hok. apply Hok. eapply list_elem_of_lookup_2; eassumption. }
  pose proof (take_points_length _ _ _ _ Hcrop) as Hlen.
  destruct (region_pixels_fmap roi pixels Hlen) as [Heq _].
  apply (proj1 (Forall_fmap loc_pixel pixel_ok (region_pixels roi pixels))).
  rewrite <- Heq. exact Hpix.
Qed.

(** The row a returning [__update__] appends to the file of a region. *)
Lemma update_row (i : nat) (frame : list (list Pixel)) (self self' : Pixylation)
    (R : string) (roi : ROI) (fp : TextFile) (pixels : list Pixel) :
  Pixylation__update__ i frame self = (self', Returned) ->
  NoDup (ROIs self).*1 ->
  (R, roi) ∈ ROIs self -> _resultfiles self !! R = Some fp ->
  ROI_crop roi frame = Some pixels ->
  _resultfiles self' !! R
  = Some (with_row fp (result_row i (roi_values roi (masks self) pixels))).
Proof.
  intros Hup Hnd Hin Hfp Hcrop.
  apply Pixylation__update__Returned in Hup as (M' & Hscan & _).
  destruct (scan_ROIs_rows _ _ _ _ _ _ _ _ Hnd Hscan) as (_ & _ & Hrows).
  destruct (Hrows R roi fp Hin Hfp) as (pixels' & Hcrop' & _ & Hrow).
  rewrite Hcrop in Hcrop'. injection Hcrop' as <-. exact Hrow.
Qed.

(** The frame a returning [__update__] pushes to the writer, at a
    coordinate of a region that has a result file. *)
Lemma update_mask_at (i : nat) (frame : list (list Pixel)) (self self' : Pixylation)
    (R : string) (roi : ROI) (fp : TextFile) (pixels : list Pixel)
    (k : nat) (x y : Z) (px : Pixel) (w : VideoWriter) :
  Pixylation__update__ i frame self = (self', Returned) ->
  (R, roi) ∈ ROIs self -> _resultfiles self !! R = Some fp ->
  ROI_crop roi frame = Some pixels ->
  xpos roi !! k = Some x -> ypos roi !! k = Some y -> pixels !! k = Some px ->
  _maskfile self = Some w ->
  exists M', _maskfile self' = Some (with_frame w M')
             /\ shape M' = shape frame
             /\ getitem2 M' y x = Some (paint (masks self) px).
Proof.
  intros Hup Hin Hfp Hcrop Hx Hy Hpx Hw.
  apply Pixylation__update__Returned in Hup as (M' & Hscan & _ & _ & Hmf).
  rewrite Hw in Hmf. simpl in Hmf. exists M'. split; [exact Hmf |].
  destruct (scan_ROIs_marks _ _ _ _ _ _ _ _ (shape_zeros_like black frame) Hscan)
    as (Hsh & _ & Hcov & _).
  split; [exact Hsh |].
  destruct (region_position_at _ _ _ _ _ _ _ Hcrop Hx Hy Hpx)
    as (Q & q & HQ & Hq & Hpos & Hlook & _).
  unfold getitem2. rewrite (np_position_shape M' frame y x Hsh), Hpos. simpl.
  rewrite Hcov.
  - destruct (np_position_lt _ _ _ _ Hpos) as [H1 H2].
    rewrite (grid_lookup_zeros_like black frame q H1 H2). simpl.
    unfold paint, pixel_at. now rewrite Hlook.
  - exists R, roi, Q. repeat split; try assumption. rewrite Hfp. eauto.
Qed.

Lemma roi_values_at (roi : ROI) (colors : list (string * ColorMask))
    (pixels : list Pixel) (j : nat) (name : string) (c : ColorMask) :
  length pixels = length (zip (ypos roi) (xpos roi)) ->
  colors !! j = Some (name, c) ->
  let pts := matched_pixels (onset c) (offset c) (region_pixels roi pixels) in
  let pair := if decide (pts = []) then [NaN; NaN]
              else [one_based_centroid loc_x pts; one_based_centroid loc_y pts] in
  roi_values roi colors pixels !! (2 * j)%nat = pair !! 0%nat
  /\ roi_values roi colors pixels !! (2 * j + 1)%nat = pair !! 1%nat.
Proof.
  intros Hlen Hj pts pair. unfold roi_values.
  destruct (lookup_concat_pairs
              (fun kc : string * ColorMask =>
                 class_values roi (hue_of <$> pixels) (luma_of <$> pixels) kc.2)
              colors j (name, c)) as [H0 H1];
    [intros a; apply class_values_length | exact Hj |].
  simpl in H0, H1. rewrite (class_values_matched roi pixels c Hlen) in H0, H1.
  now split.
Qed.

Lemma matched_pixels_nil_count (roi : ROI) (pixels : list Pixel) (name : string)
    (c : ColorMask) :
  length pixels = length (zip (ypos roi) (xpos roi)) ->
  matched_pixels (onset c) (offset c) (region_pixels roi pixels) = [] ->
  count_nonzero (ColorMask_apply c (hue_of <$> pixels)) = 0%nat.
Proof.
  intros Hlen Hnil. rewrite (ColorMask_apply_in_class name).
  destruct (select_region roi pixels (in_class (name, c)) Hlen) as (_ & _ & _ & Hcount).
  rewrite Hcount. unfold in_class; simpl.
  fold (matched_pixels (onset c) (offset c) (region_pixels roi pixels)).
  now rewrite Hnil.
Qed.

Lemma elem_of_matched_pixels (on off : Qc) (region : list located) (t : located) :
  t ∈ matched_pixels on off region
  <-> t ∈ region /\ hue_in on off (hue_of (loc_pixel t)) = true.
Proof. unfold matched_pixels. rewrite list_elem_of_filter. tauto. Qed.

Lemma with_frame_inj (w : VideoWriter) (M1 M2 : list (list Pixel)) :
  with_frame w M1 = with_frame w M2 -> M1 = M2.
Proof.
  unfold with_frame. intros H. injection H as H.
  apply app_inj_tail in H as [_ H]. exact H.
Qed.

(** C4: in a frame update that returns, for a region with a result file, a
    colour class with no matched pixel contributes the NaN pair to the row,
    its turn in the loop leaves the mask frame as it was, and when no class
    matches anywhere in the region the frame pushed to the writer is black
    (all zero) at every coordinate of the region. *)
Theorem C4_no_match_is_NaN_and_unmarked
    (i : nat) (frame : list (list Pixel)) (self self' : Pixylation)
    (R : string) (roi : ROI) (fp : TextFile) (pixels : list Pixel) :
  Pixylation__update__ i frame self = (self', Returned) ->
  NoDup (ROIs self).*1 ->
  (R, roi) ∈ ROIs self -> _resultfiles self !! R = Some fp ->
  ROI_crop roi frame = Some pixels ->
  let values := roi_values roi (masks self) pixels in
  let region := region_pixels roi pixels in
  _resultfiles self' !! R = Some (with_row fp (result_row i values))
  /\ (forall j name c,
        masks self !! j = Some (name, c) ->
        matched_pixels (onset c) (offset c) region = [] ->
        values !! (2 * j)%nat = Some NaN
        /\ values !! (2 * j + 1)%nat = Some NaN
        /\ forall rest vals M,
             scan_masks roi (hue_of <$> pixels) (luma_of <$> pixels)
               ((name, c) :: rest) vals M
             = scan_masks roi (hue_of <$> pixels) (luma_of <$> pixels)
                 rest (vals ++ [NaN; NaN]) M)
  /\ ((forall name c, (name, c) ∈ masks self ->
         matched_pixels (onset c) (offset c) region = []) ->
      forall w, _maskfile self = Some w ->
        exists M', _maskfile self' = Some (with_frame w M')
                   /\ forall k x y,
                        xpos roi !! k = Some x -> ypos roi !! k = Some y ->
                        getitem2 M' y x = Some black).
Proof.
  intros Hup Hnd Hin Hfp Hcrop values region.
  pose proof (take_points_length _ _ _ _ Hcrop) as Hlen.
  split; [now apply (update_row i frame self self' R roi fp pixels) |]. split.
  - intros j name c Hj Hnil.
    destruct (roi_values_at roi (masks self) pixels j name c Hlen Hj) as [H0 H1].
    fold region in H0, H1. rewrite Hnil in H0, H1.
    split; [exact H0 |]. split; [exact H1 |].
    intros rest vals M. cbn [scan_masks].
    rewrite (matched_pixels_nil_count roi pixels name c Hlen Hnil).
    reflexivity.
  - intros Hnone w Hw.
    pose proof Hup as Hup'.
    apply Pixylation__update__Returned in Hup' as (M' & _ & _ & _ & Hmf).
    rewrite Hw in Hmf. simpl in Hmf. exists M'. split; [exact Hmf |].
    intros k x y Hx Hy.
    assert (Hk : (k < length pixels)%nat).
    { rewrite Hlen, length_zip. apply lookup_lt_Some in Hx, Hy. lia. }
    destruct (lookup_lt_is_Some_2 pixels k Hk) as [px Hpx].
    destruct (update_mask_at i frame self self' R roi fp pixels k x y px w
                Hup Hin Hfp Hcrop Hx Hy Hpx Hw) as (M1 & Hmf1 & _ & Hget).
    rewrite Hmf in Hmf1.
    assert (Heq : with_frame w M' = with_frame w M1) by congruence.
    apply with_frame_inj in Heq as <-.
    rewrite Hget. f_equal. unfold paint. apply paint_over_none.
    intros [name c] Hkc. specialize (Hnone name c Hkc).
    destruct (region_position_at _ _ _ _ _ _ _ Hcrop Hx Hy Hpx)
      as (_ & _ & _ & _ & _ & _ & Hreg).
    destruct (in_class (name, c) px) eqn:Hc; [| reflexivity].
    assert (Hm : (x, y, px) ∈ matched_pixels (onset c) (offset c) region)
      by (apply elem_of_matched_pixels; split; [exact Hreg | exact Hc]).
    rewrite Hnone in Hm. inversion Hm.
Qed.

(** C7: a pixel of a region whose hue lies in the intervals of two classes
    is among the matched pixels of both, each class's two values are the
    centroid over its own matched pixels, and the frame pushed to the writer
    holds, at that pixel, the colour of the later of the two classes (no
    class declared after it matching the pixel). *)
Theorem C7_overlapping_classes
    (i : nat) (frame : list (list Pixel)) (self self' : Pixylation)
    (R : string) (roi : ROI) (fp : TextFile) (pixels : list Pixel)
    (k : nat) (x y : Z) (px : Pixel)
    (j1 j2 : nat) (n1 n2 : string) (c1 c2 : ColorMask) :
  Pixylation__update__ i frame self = (self', Returned) ->
  NoDup (ROIs self).*1 ->
  (R, roi) ∈ ROIs self -> _resultfiles self !! R = Some fp ->
  ROI_crop roi frame = Some pixels ->
  xpos roi !! k = Some x -> ypos roi !! k = Some y -> pixels !! k = Some px ->
  masks self !! j1 = Some (n1, c1) -> masks self !! j2 = Some (n2, c2) ->
  (j1 < j2)%nat ->
  hue_in (onset c1) (offset c1) (hue_of px) = true ->
  hue_in (onset c2) (offset c2) (hue_of px) = true ->
  let values := roi_values roi (masks self) pixels in
  let region := region_pixels roi pixels in
  let pts1 := matched_pixels (onset c1) (offset c1) region in
  let pts2 := matched_pixels (onset c2) (offset c2) region in
  _resultfiles self' !! R = Some (with_row fp (result_row i values))
  /\ (x, y, px) ∈ pts1 /\ (x, y, px) ∈ pts2
  /\ values !! (2 * j1)%nat = Some (one_based_centroid loc_x pts1)
  /\ values !! (2 * j1 + 1)%nat = Some (one_based_centroid loc_y pts1)
  /\ values !! (2 * j2)%nat = Some (one_based_centroid loc_x pts2)
  /\ values !! (2 * j2 + 1)%nat = Some (one_based_centroid loc_y pts2)
  /\ ((forall j' kc', (j2 < j')%nat -> masks self !! j' = Some kc' ->
         in_class kc' px = false) ->
      forall w, _maskfile self = Some w ->
        exists M', _maskfile self' = Some (with_frame w M')
                   /\ getitem2 M' y x = Some (color c2)).
Proof.
  intros Hup Hnd Hin Hfp Hcrop Hx Hy Hpx Hj1 Hj2 Hlt Hc1 Hc2 values region pts1 pts2.
  pose proof (take_points_length _ _ _ _ Hcrop) as Hlen.
  destruct (region_position_at _ _ _ _ _ _ _ Hcrop Hx Hy Hpx)
    as (_ & _ & _ & _ & _ & _ & Hreg).
  assert (Hm1 : (x, y, px) ∈ pts1) by (apply elem_of_matched_pixels; now split).
  assert (Hm2 : (x, y, px) ∈ pts2) by (apply elem_of_matched_pixels; now split).
  destruct (roi_values_at roi (masks self) pixels j1 n1 c1 Hlen Hj1) as [H10 H11].
  destruct (roi_values_at roi (masks self) pixels j2 n2 c2 Hlen Hj2) as [H20 H21].
  fold region in H10, H11, H20, H21. fold pts1 in H10, H11. fold pts2 in H20, H21.
  rewrite decide_False in H10, H11 by (intros Hnil; rewrite Hnil in Hm1; inversion Hm1).
  rewrite decide_False in H20, H21 by (intros Hnil; rewrite Hnil in Hm2; inversion Hm2).
  split; [now apply (update_row i frame self self' R roi fp pixels) |].
  repeat (split; [assumption |]).
  intros Hlast w Hw.
  destruct (update_mask_at i frame self self' R roi fp pixels k x y px w
              Hup Hin Hfp Hcrop Hx Hy Hpx Hw) as (M' & Hmf & _ & Hget).
  exists M'. split; [exact Hmf |]. rewrite Hget. f_equal.
  unfold paint. now apply (paint_over_last (masks self) j2 (n2, c2) px black Hj2 Hc2).
Qed.

Lemma C4_no_match_is_NaN_and_unmarked_witness :
  let roi := RectangularROI (rect_specs 2 0 1 1) in
  let pixels := [RGB 0 0 0] in
  let fp := fresh_result_file "out" "clip" ["red"; "warm"; "cyan"] "dot" in
  let w := {| wpath := "out/MASK_clip.mp4"; wframes := []; wclosed := false |} in
  let values := roi_values roi example_colors pixels in
  _resultfiles example_updated !! "dot" = Some (with_row fp (result_row 0 values))
  /\ values !! (2 * 0)%nat = Some NaN /\ values !! (2 * 0 + 1)%nat = Some NaN
  /\ exists M', _maskfile example_updated = Some (with_frame w M')
                /\ getitem2 M' 0 2 = Some black.
Proof.
  intros roi pixels fp w values.
  destruct (C4_no_match_is_NaN_and_unmarked 0 example_frame example_started
              example_updated "dot" roi fp pixels) as (Hrow & Hnan & Hblack).
  - vm_compute; reflexivity.
  - apply (bool_decide_unpack _). vm_compute; reflexivity.
  - vm_compute. apply list_elem_of_further, list_elem_of_here.
  - vm_compute; reflexivity.
  - vm_compute; reflexivity.
  - assert (Hm : masks example_started = example_colors) by (vm_compute; reflexivity).
    destruct (Hnan 0%nat "red" {| onset := 0; offset := Qc_of_Z 30; color := RGB 255 0 0 |})
      as (H0 & H1 & _); [rewrite Hm; reflexivity | vm_compute; reflexivity |].
    refine (conj Hrow (conj H0 (conj H1 _))).
    destruct (Hblack ltac:(intros name c Hin; rewrite Hm in Hin;
                           repeat (apply elem_of_cons in Hin as [Hin | Hin];
                                   [injection Hin as -> ->; vm_compute; reflexivity |]);
                           inversion Hin) w ltac:(vm_compute; reflexivity))
      as (M' & Hmf & Hget).
    exists M'. split; [exact Hmf |].
    apply (Hget 0%nat 2 0); vm_compute; reflexivity.
Defined.

Lemma C7_overlapping_classes_witness :
  let roi := RectangularROI (rect_specs 0 0 2 2) in
  let pixels := [RGB 255 0 0; RGB 255 255 0; RGB 0 255 0; RGB 200 10 10] in
  let c1 := {| onset := 0; offset := Qc_of_Z 30; color := RGB 255 0 0 |} in
  let c2 := {| onset := 0; offset := Qc_of_Z 90; color := RGB 255 191 0 |} in
  let fp := fresh_result_file "out" "clip" ["red"; "warm"; "cyan"] "A" in
  let w := {| wpath := "out/MASK_clip.mp4"; wframes := []; wclosed := false |} in
  let values := roi_values roi (masks example_started) pixels in
  let region := region_pixels roi pixels in
  let pts1 := matched_pixels (onset c1) (offset c1) region in
  let pts2 := matched_pixels (onset c2) (offset c2) region in
  _resultfiles example_updated !! "A" = Some (with_row fp (result_row 0 values))
  /\ (0, 0, RGB 255 0 0) ∈ pts1 /\ (0, 0, RGB 255 0 0) ∈ pts2
  /\ values !! (2 * 0)%nat = Some (one_based_centroid loc_x pts1)
  /\ values !! (2 * 0 + 1)%nat = Some (one_based_centroid loc_y pts1)
  /\ values !! (2 * 1)%nat = Some (one_based_centroid loc_x pts2)
  /\ values !! (2 * 1 + 1)%nat = Some (one_based_centroid loc_y pts2)
  /\ exists M', _maskfile example_updated = Some (with_frame w M')
                /\ getitem2 M' 0 0 = Some (RGB 255 191 0).
Proof.
  intros roi pixels c1 c2 fp w values region pts1 pts2.
  destruct (C7_overlapping_classes 0 example_frame example_started example_updated
              "A" roi fp pixels 0 0 0 (RGB 255 0 0) 0 1 "red" "warm" c1 c2)
    as (H1 & H2 & H3 & H4 & H5 & H6 & H7 & H8).
  - vm_compute; reflexivity.
  - apply (bool_decide_unpack _). vm_compute; reflexivity.
  - vm_compute. apply list_elem_of_here.
  - vm_compute; reflexivity.
  - vm_compute; reflexivity.
  - vm_compute; reflexivity.
  - vm_compute; reflexivity.
  - vm_compute; reflexivity.
  - vm_compute; reflexivity.
  - vm_compute; reflexivity.
  - lia.
  - vm_compute; reflexivity.
  - vm_compute; reflexivity.
  - refine (conj H1 (conj H2 (conj H3 (conj H4 (conj H5 (conj H6 (conj H7 _))))))).
    assert (Hlast : forall j' kc', (1 < j')%nat ->
                      masks example_started !! j' = Some kc' ->
                      in_class kc' (RGB 255 0 0) = false).
    { intros j' kc' Hlt Hj'. vm_compute in Hj'.
      destruct j' as [| [| [| j']]]; try lia; [| discriminate].
      injection Hj' as <-. vm_compute; reflexivity. }
    apply (H8 Hlast w). vm_compute; reflexivity.
Defined.

(** ** Clipping a mask to a rectangle (the single-module variant) *)

Lemma select_all_false {A} (mask : list bool) (v : list A) :
  Forall (fun m => m = false) mask -> select mask v = [].
Proof.
  intros H. revert v. induction H as [| m mask -> _ IH]; intros v; [reflexivity |].
  destruct v as [| a v]; [reflexivity | apply IH].
Qed.

Lemma select_app {A} (m1 m2 : list bool) (v1 v2 : list A) :
  length m1 = length v1 ->
  select (m1 ++ m2) (v1 ++ v2) = select m1 v1 ++ select m2 v2.
Proof.
  revert v1. induction m1 as [| m m1 IH]; intros [| a v1] Hlen; try discriminate;
    [reflexivity |].
  injection Hlen as Hlen. simpl. rewrite IH by exact Hlen. now destruct m.
Qed.

Lemma take_drop_3 {A} (a b : nat) (l : list A) :
  (a <= b)%nat -> l = take a l ++ take (b - a) (drop a l) ++ drop b l.
Proof.
  intros Hab. rewrite <- (take_drop a l) at 1. f_equal.
  rewrite <- (take_drop (b - a) (drop a l)) at 1. f_equal.
  rewrite drop_drop. f_equal. lia.
Qed.

Lemma map_before_from_3 {A} (f : A -> A) (a b : nat) (l : list A) :
  (a <= b)%nat -> (a <= length l)%nat ->
  Legacy.map_from f b (Legacy.map_before f a l)
  = (f <$> take a l) ++ take (b - a) (drop a l) ++ (f <$> drop b l).
Proof.
  intros Hab Ha. unfold Legacy.map_from, Legacy.map_before.
  assert (Hlen : length (f <$> take a l) = a)
    by (rewrite length_fmap, length_take; lia).
  rewrite take_app_ge by (rewrite Hlen; exact Hab).
  rewrite drop_app_ge by (rewrite Hlen; exact Hab).
  rewrite Hlen, drop_drop. rewrite <- app_assoc.
  replace (a + (b - a))%nat with b by lia. reflexivity.
Qed.

Lemma length_map_before {A} (f : A -> A) (k : nat) (l : list A) :
  length (Legacy.map_before f k l) = length l.
Proof.
  unfold Legacy.map_before. rewrite length_app, length_fmap.
  rewrite <- (take_drop k l) at 3. now rewrite length_app.
Qed.

Lemma length_map_from {A} (f : A -> A) (k : nat) (l : list A) :
  length (Legacy.map_from f k l) = length l.
Proof.
  unfold Legacy.map_from. rewrite length_app, length_fmap.
  rewrite <- (take_drop k l) at 3. now rewrite length_app.
Qed.

Lemma Forall_map_before {A} (P : A -> Prop) (f : A -> A) (k : nat) (l : list A) :
  (forall v, P v -> P (f v)) -> Forall P l -> Forall P (Legacy.map_before f k l).
Proof.
  intros Hf Hl. unfold Legacy.map_before. apply Forall_app. split.
  - apply Forall_fmap. eapply Forall_impl; [apply Forall_take; exact Hl |].
    intros v Hv. now apply Hf.
  - now apply Forall_drop.
Qed.

Lemma Forall_map_from {A} (P : A -> Prop) (f : A -> A) (k : nat) (l : list A) :
  (forall v, P v -> P (f v)) -> Forall P l -> Forall P (Legacy.map_from f k l).
Proof.
  intros Hf Hl. unfold Legacy.map_from. apply Forall_app. split.
  - now apply Forall_take.
  - apply Forall_fmap. eapply Forall_impl; [apply Forall_drop; exact Hl |].
    intros v Hv. now apply Hf.
Qed.

(** When the upper bound lies below the lower one, nothing is left. *)
Lemma map_before_from_all {A} (P : A -> Prop) (f : A -> A) (a b : nat) (l : list A) :
  (b < a)%nat -> (a <= length l)%nat -> (forall v, P (f v)) ->
  Forall P (Legacy.map_from f b (Legacy.map_before f a l)).
Proof.
  intros Hba Ha Hf. unfold Legacy.map_from. apply Forall_app. split.
  - unfold Legacy.map_before. rewrite take_app_le
      by (rewrite length_fmap, length_take; lia).
    apply Forall_take, Forall_fmap, Forall_forall. intros v _. apply Hf.
  - apply Forall_fmap, Forall_forall. intros v _. apply Hf.
Qed.

Lemma select_clear_cols {A} (c0 c1 : nat) (mrow : list bool) (grow : list A) :
  length mrow = length grow -> (c0 <= length mrow)%nat ->
  select (clear_cols c0 c1 mrow) grow
  = select (take (c1 - c0) (drop c0 mrow)) (take (c1 - c0) (drop c0 grow)).
Proof.
  intros Hlen Hc0. unfold clear_cols.
  destruct (decide (c0 <= c1)%nat) as [Hle | Hgt].
  - rewrite map_before_from_3 by assumption.
    rewrite (take_drop_3 c0 c1 grow Hle) at 1.
    rewrite select_app by (rewrite length_fmap, !length_take; lia).
    rewrite select_app by (rewrite !length_take, !length_drop; lia).
    rewrite (select_all_false ((fun _ => false) <$> take c0 mrow))
      by (apply Forall_fmap, Forall_forall; now intros).
    rewrite (select_all_false ((fun _ => false) <$> drop c1 mrow))
      by (apply Forall_fmap, Forall_forall; now intros).
    now rewrite app_nil_r.
  - rewrite select_all_false
      by (apply (map_before_from_all (fun m => m = false)); [lia | lia | now intros]).
    replace (c1 - c0)%nat with 0%nat by lia. reflexivity.
Qed.

Lemma select_cleared_row {A} (c0 c1 : nat) (mrow : list bool) (grow : list A) :
  select (clear_cols c0 c1 (Legacy.clear_row mrow)) grow = [].
Proof.
  apply select_all_false. unfold clear_cols.
  apply Forall_map_from; [now intros |]. apply Forall_map_before; [now intros |].
  unfold Legacy.clear_row. apply Forall_fmap, Forall_forall. now intros.
Qed.

Lemma select2_all_false {A} (c0 c1 : nat) (rows : list (list bool))
    (G : list (list A)) :
  Forall (Forall (fun m => m = false)) rows ->
  select2 (clear_cols c0 c1 <$> rows) G = [].
Proof.
  unfold select2. intros H. revert G.
  induction H as [| row rows Hrow _ IH]; intros G; [reflexivity |].
  destruct G as [| grow G]; [reflexivity |]. csimpl.
  rewrite IH, app_nil_r. apply select_all_false. unfold clear_cols.
  apply Forall_map_from; [now intros |]. now apply Forall_map_before.
Qed.

Lemma select2_app {A} (m1 m2 : list (list bool)) (g1 g2 : list (list A)) :
  length m1 = length g1 ->
  select2 (m1 ++ m2) (g1 ++ g2) = select2 m1 g1 ++ select2 m2 g2.
Proof.
  intros Hlen. unfold select2. rewrite zip_with_app by exact Hlen.
  apply concat_app.
Qed.

Lemma select2_rows {T B} (p : T -> bool) (g : T -> B) (c0 c1 : nat)
    (W : list (list T)) :
  Forall (fun row => (c0 <= length row)%nat) W ->
  select2 (clear_cols c0 c1 <$> (map2 p W)) (map2 g W)
  = g <$> filter (fun t => p t = true)
            (concat ((fun row => take (c1 - c0) (drop c0 row)) <$> W)).
Proof.
  unfold select2, map2. induction 1 as [| row W Hrow _ IH]; [reflexivity |]. csimpl.
  rewrite IH, filter_app, fmap_app. f_equal.
  rewrite select_clear_cols by (rewrite ?length_fmap; done).
  rewrite <- !fmap_drop, <- !fmap_take. apply select_fmap_filter.
Qed.

(** What the four slice assignments leave of a mask, read against any
    array laid out like the frame. *)
Lemma select2_clipped {T B} (p : T -> bool) (g : T -> B) (r0 r1 c0 c1 : nat)
    (I : list (list T)) :
  (r0 <= length I)%nat -> Forall (fun row => (c0 <= length row)%nat) I ->
  select2 (clear_cols c0 c1 <$>
             Legacy.map_from Legacy.clear_row r1
               (Legacy.map_before Legacy.clear_row r0 (map2 p I)))
          (map2 g I)
  = g <$> filter (fun t => p t = true) (concat (window r0 r1 c0 c1 I)).
Proof.
  intros Hr0 Hcols. unfold window.
  assert (Hlen2 : forall (X : Type) (f : T -> X), length (map2 f I) = length I)
    by (intros; unfold map2; apply length_fmap).
  assert (Htake : forall (X : Type) (f : T -> X) n, take n (map2 f I) = map2 f (take n I))
    by (intros; unfold map2; now rewrite fmap_take).
  assert (Hdrop : forall (X : Type) (f : T -> X) n, drop n (map2 f I) = map2 f (drop n I))
    by (intros; unfold map2; now rewrite fmap_drop).
  assert (Hclr : forall rows : list (list bool),
            Forall (Forall (fun m => m = false)) (Legacy.clear_row <$> rows)).
  { intros rows. apply Forall_fmap, Forall_forall. intros row _.
    unfold Legacy.clear_row. simpl. apply Forall_fmap, Forall_forall. now intros. }
  destruct (decide (r0 <= r1)%nat) as [Hle | Hgt].
  - rewrite map_before_from_3 by (rewrite ?Hlen2; assumption).
    rewrite (take_drop_3 r0 r1 (map2 g I) Hle) at 1.
    rewrite !fmap_app.
    rewrite select2_app
      by (rewrite ?length_fmap, ?length_take, ?Hlen2; lia).
    rewrite select2_app
      by (rewrite ?length_fmap, ?length_take, ?length_drop, ?Hlen2; lia).
    rewrite (select2_all_false c0 c1 (Legacy.clear_row <$> take r0 (map2 p I)))
      by apply Hclr.
    rewrite (select2_all_false c0 c1 (Legacy.clear_row <$> drop r1 (map2 p I)))
      by apply Hclr.
    rewrite app_nil_r. simpl.
    rewrite !Hdrop.
    assert (Htake' : forall (X : Type) (f : T -> X) n (J : list (list T)),
              take n (map2 f J) = map2 f (take n J))
      by (intros; unfold map2; now rewrite fmap_take).
    rewrite !Htake'.
    apply select2_rows. now apply Forall_take, Forall_drop.
  - rewrite select2_all_false.
    + replace (r1 - r0)%nat with 0%nat by lia. reflexivity.
    + apply (map_before_from_all (Forall (fun m => m = false))).
      * lia.
      * now rewrite Hlen2.
      * intros row. unfold Legacy.clear_row.
        apply Forall_fmap, Forall_forall. now intros.
Qed.

Lemma ROI_apply_rows (roi : Legacy.ROI) (values : list (list bool)) :
  Legacy.ROI_apply roi values
  = clear_cols (slice_bound (shape values).2 (Legacy.x roi))
               (slice_bound (shape values).2 (Legacy.x roi + Legacy.w roi))
    <$> Legacy.map_from Legacy.clear_row
          (slice_bound (shape values).1 (Legacy.y roi + Legacy.h roi))
          (Legacy.map_before Legacy.clear_row
             (slice_bound (shape values).1 (Legacy.y roi)) values).
Proof.
  unfold Legacy.ROI_apply, clear_cols. now rewrite <- list_fmap_compose.
Qed.

Lemma slice_bound_le (n : nat) (k : Z) : (slice_bound n k <= n)%nat.
Proof. unfold slice_bound. case_decide; lia. Qed.

(** ** The frame with positions *)

Lemma fmap_imap_inv {A B} (g : B -> A) (f : nat -> A -> B) (l : list A) :
  (forall j a, g (f j a) = a) -> g <$> imap f l = l.
Proof.
  revert f. induction l as [| a l IH]; intros f Hgf; [reflexivity |].
  csimpl. rewrite Hgf. f_equal. apply IH. intros j' a'. apply Hgf.
Qed.

Lemma indexed_pixels (frame : list (list Pixel)) :
  map2 loc_pixel (indexed frame) = frame.
Proof.
  unfold map2, indexed.
  apply (fmap_imap_inv (fun irow : list located => loc_pixel <$> irow)).
  intros i row. now apply fmap_imap_inv.
Qed.

Lemma indexed_fmap {B} (g : Pixel -> B) (frame : list (list Pixel)) :
  map2 g frame = map2 (fun t => g (loc_pixel t)) (indexed frame).
Proof.
  rewrite <- (indexed_pixels frame) at 1. unfold map2. rewrite <- list_fmap_compose.
  apply list_fmap_ext. intros _ irow _. simpl. now rewrite <- list_fmap_compose.
Qed.

Lemma length_indexed (frame : list (list Pixel)) :
  length (indexed frame) = length frame.
Proof. unfold indexed. apply length_imap. Qed.

Lemma indexed_row_lengths (frame : list (list Pixel)) (n : nat) :
  Forall (fun row => length row = n) frame ->
  Forall (fun row => length row = n) (indexed frame).
Proof.
  intros H. apply Forall_lookup. intros i irow Hi.
  unfold indexed in Hi. rewrite list_lookup_imap in Hi.
  destruct (frame !! i) as [row |] eqn:Hrow; [| discriminate].
  simpl in Hi. injection Hi as <-. rewrite length_imap.
  exact (Forall_lookup_1 _ _ _ _ H Hrow).
Qed.

Lemma imap_index_seqZ {A} (row : list A) (k : Z) :
  imap (fun j _ => Z.of_nat j + k) row = seqZ k (Z.of_nat (length row)).
Proof.
  revert k. induction row as [| a row IH]; intros k; [reflexivity |].
  rewrite imap_cons, seqZ_cons by (simpl; lia). simpl (Z.of_nat 0 + k). f_equal.
  rewrite (imap_ext _ (fun j _ => Z.of_nat j + Z.succ k) row)
    by (intros; unfold compose; lia).
  rewrite IH. f_equal. simpl length. lia.
Qed.

Lemma imap_const_replicate {A B} (row : list A) (v : B) :
  imap (fun _ _ => v) row = replicate (length row) v.
Proof. induction row as [| a row IH]; [reflexivity |]. simpl. now rewrite <- IH. Qed.

Lemma fmap_const_replicate {A B} (l : list A) (v : B) :
  (fun _ => v) <$> l = replicate (length l) v.
Proof. induction l as [| a l IH]; [reflexivity |]. csimpl. now rewrite IH. Qed.

(** On a rectangular frame the 1-based grids of the single-module variant
    are the 0-based positions plus one. *)
Lemma frame_grids_indexed (frame : list (list Pixel)) :
  rectangular frame ->
  (Legacy.frame_grids frame).1 = map2 (fun t => loc_x t + 1) (indexed frame)
  /\ (Legacy.frame_grids frame).2 = map2 (fun t => loc_y t + 1) (indexed frame).
Proof.
  intros Hrect. unfold Legacy.frame_grids, rectangular in *.
  destruct (shape frame) as [fh fw] eqn:Hshape. simpl in Hrect.
  assert (Hfh : fh = length frame) by (unfold shape in Hshape; congruence).
  unfold meshgrid_xy, arange, map2, indexed. simpl.
  replace (Z.of_nat fw + 1 - 1) with (Z.of_nat fw) by lia.
  replace (Z.of_nat fh + 1 - 1) with (Z.of_nat fh) by lia.
  split; apply list_eq; intros i; rewrite !list_lookup_fmap, list_lookup_imap.
  - destruct (frame !! i) as [row |] eqn:Hrow; simpl.
    + rewrite lookup_seqZ_lt by (apply lookup_lt_Some in Hrow; lia). simpl. f_equal.
      rewrite fmap_imap. unfold compose, loc_x. simpl.
      rewrite (imap_index_seqZ row 1).
      now rewrite (Forall_lookup_1 _ _ _ _ Hrect Hrow).
    + rewrite lookup_seqZ_ge by (apply lookup_ge_None in Hrow; lia). reflexivity.
  - destruct (frame !! i) as [row |] eqn:Hrow; simpl.
    + rewrite lookup_seqZ_lt by (apply lookup_lt_Some in Hrow; lia). simpl. f_equal.
      rewrite fmap_imap. unfold compose, loc_y. simpl.
      rewrite imap_const_replicate, fmap_const_replicate, length_seqZ.
      rewrite (Forall_lookup_1 _ _ _ _ Hrect Hrow). f_equal; lia.
    + rewrite lookup_seqZ_ge by (apply lookup_ge_None in Hrow; lia). reflexivity.
Qed.

Lemma shape_map2 {A B} (f : A -> B) (a : list (list A)) : shape (map2 f a) = shape a.
Proof.
  unfold shape, map2. rewrite length_fmap. f_equal.
  destruct a as [| row a]; [reflexivity |]. simpl. apply length_fmap.
Qed.

Lemma count_nonzero_app (m1 m2 : list bool) :
  count_nonzero (m1 ++ m2) = (count_nonzero m1 + count_nonzero m2)%nat.
Proof. unfold count_nonzero. now rewrite filter_app, length_app. Qed.

Lemma count_nonzero2_select2 {A} (mask : list (list bool)) (G : list (list A)) :
  Forall2 (fun (m : list bool) (g : list A) => length m = length g) mask G ->
  count_nonzero2 mask = length (select2 mask G).
Proof.
  unfold count_nonzero2, select2.
  induction 1 as [| m g mask G Hlen _ IH]; [reflexivity |]. csimpl.
  now rewrite count_nonzero_app, length_app, IH, length_select.
Qed.

Lemma Forall2_same_row_length {A B} (n : nat) (l1 : list (list A)) (l2 : list (list B)) :
  Forall (fun x => length x = n) l1 -> Forall (fun y => length y = n) l2 ->
  length l1 = length l2 ->
  Forall2 (fun (x : list A) (y : list B) => length x = length y) l1 l2.
Proof.
  intros H1 H2 Hlen. apply Forall2_same_length_lookup. split; [exact Hlen |].
  intros i x y Hx Hy.
  rewrite (Forall_lookup_1 _ _ _ _ H1 Hx). symmetry.
  exact (Forall_lookup_1 _ _ _ _ H2 Hy).
Qed.

Lemma ROI_apply_lengths (roi : Legacy.ROI) (values : list (list bool)) (n : nat) :
  Forall (fun row => length row = n) values ->
  length (Legacy.ROI_apply roi values) = length values
  /\ Forall (fun row => length row = n) (Legacy.ROI_apply roi values).
Proof.
  intros Hrows. rewrite ROI_apply_rows. split.
  - now rewrite length_fmap, length_map_from, length_map_before.
  - apply Forall_fmap.
    eapply Forall_impl;
      [apply Forall_map_from;
         [| apply Forall_map_before; [| exact Hrows]] |].
    + intros v Hv. unfold Legacy.clear_row. now rewrite length_fmap.
    + intros v Hv. unfold Legacy.clear_row. now rewrite length_fmap.
    + intros row Hrow. simpl. unfold clear_cols.
      now rewrite length_map_from, length_map_before.
Qed.

(** ** The values of a rectangle's row (single-module variant) *)

(** The selections of one class, read off the pixels of the rectangle. *)
Lemma legacy_match_spec (roi : Legacy.ROI) (frame : list (list Pixel))
    (m : Legacy.Mask) :
  rectangular frame ->
  let H := (Legacy.as_HL frame).1 in
  let L := (Legacy.as_HL frame).2 in
  let xg := (Legacy.frame_grids frame).1 in
  let yg := (Legacy.frame_grids frame).2 in
  let _match := Legacy.ROI_apply roi (Legacy.Mask_apply m H) in
  let pts := matched_pixels (Legacy.onset m) (Legacy.offset m)
               (legacy_region_pixels roi frame) in
  count_nonzero2 _match = length pts
  /\ Legacy.centroid2 _match xg L = one_based_centroid loc_x pts
  /\ Legacy.centroid2 _match yg L = one_based_centroid loc_y pts.
Proof.
  intros Hrect H L xg yg _match pts.
  destruct (frame_grids_indexed frame Hrect) as [Hxg Hyg].
  set (p := fun t : located =>
              hue_in (Legacy.onset m) (Legacy.offset m) (hue_of (loc_pixel t))).
  assert (Hmask : Legacy.Mask_apply m H = map2 p (indexed frame)).
  { subst H p. unfold Legacy.Mask_apply, Legacy.as_HL. simpl.
    change ((fun row : list Pixel => hue_of <$> row) <$> frame) with (map2 hue_of frame).
    rewrite (indexed_fmap hue_of frame). unfold map2.
    rewrite <- list_fmap_compose. apply list_fmap_ext. intros _ irow _. simpl.
    now rewrite <- list_fmap_compose. }
  assert (HL : L = map2 (fun t => luma_of (loc_pixel t)) (indexed frame)).
  { subst L. unfold Legacy.as_HL. simpl. apply (indexed_fmap luma_of frame). }
  assert (Hsel : forall (B : Type) (g : located -> B),
            select2 _match (map2 g (indexed frame)) = g <$> pts).
  { intros B g. subst _match pts. rewrite ROI_apply_rows, Hmask, shape_map2.
    unfold legacy_region_pixels, matched_pixels.
    assert (Hsh : shape (indexed frame) = shape frame).
    { rewrite <- (indexed_pixels frame) at 2. now rewrite shape_map2. }
    rewrite Hsh. apply select2_clipped.
    - rewrite length_indexed. apply slice_bound_le.
    - apply (Forall_impl _ _ _ (indexed_row_lengths frame _ Hrect)).
      intros row ->. apply slice_bound_le. }
  split; [| split].
  - rewrite <- (length_fmap (fun t : located => t) pts), <- Hsel.
    apply count_nonzero2_select2.
    assert (Hidx : Forall (fun row : list located => length row = (shape frame).2)
                     (indexed frame)) by now apply indexed_row_lengths.
    destruct (ROI_apply_lengths roi (Legacy.Mask_apply m H) (shape frame).2)
      as [Hlen Hrows].
    { rewrite Hmask. unfold map2. apply Forall_fmap.
      eapply Forall_impl; [exact Hidx |]. intros row Hrow. simpl.
      now rewrite length_fmap. }
    apply (Forall2_same_row_length (shape frame).2); [exact Hrows | |].
    + unfold map2. apply Forall_fmap. eapply Forall_impl; [exact Hidx |].
      intros row Hrow. simpl. now rewrite length_fmap.
    + subst _match. rewrite Hlen, Hmask. unfold map2. now rewrite !length_fmap.
  - unfold Legacy.centroid2. subst xg. rewrite Hxg, HL, !Hsel.
    unfold one_based_centroid. now rewrite weighted_sum_fmap.
  - unfold Legacy.centroid2. subst yg. rewrite Hyg, HL, !Hsel.
    unfold one_based_centroid. now rewrite weighted_sum_fmap.
Qed.

Lemma legacy_class_values_spec (roi : Legacy.ROI) (frame : list (list Pixel))
    (m : Legacy.Mask) :
  rectangular frame ->
  legacy_class_values roi frame (Legacy.frame_grids frame).1
    (Legacy.frame_grids frame).2 m
  = centroid_pair (matched_pixels (Legacy.onset m) (Legacy.offset m)
                     (legacy_region_pixels roi frame)).
Proof.
  intros Hrect. destruct (legacy_match_spec roi frame m Hrect) as (Hcount & Hx & Hy).
  unfold legacy_class_values, centroid_pair. rewrite Hcount, Hx, Hy.
  destruct (matched_pixels _ _ _) as [| t pts].
  - reflexivity.
  - destruct (decide (0 < length (t :: pts))%nat) as [_ | Hn]; [| simpl in Hn; lia].
    destruct (decide (t :: pts = [])) as [Hnil | _]; [discriminate Hnil | reflexivity].
Qed.

Lemma foldl_insert_other {V} (items : list (string * V)) (m : gmap string V)
    (k : string) :
  k ∉ items.*1 ->
  foldl (fun acc kv => <[kv.1 := kv.2]> acc) m items !! k = m !! k.
Proof.
  revert m. induction items as [| [k0 v0] items IH]; intros m Hk; [reflexivity |].
  csimpl in *. apply not_elem_of_cons in Hk as [Hne Hk].
  rewrite IH by exact Hk. now rewrite lookup_insert_ne.
Qed.

Lemma dict_of_items_lookup {V} (items : list (string * V)) (k : string) (v : V) :
  NoDup items.*1 -> (k, v) ∈ items -> Legacy.dict_of_items items !! k = Some v.
Proof.
  unfold Legacy.dict_of_items. generalize (∅ : gmap string V).
  induction items as [| [k0 v0] items IH]; intros m Hnd Hin; [inversion Hin |].
  csimpl in *. apply NoDup_cons in Hnd as [Hfresh Hnd].
  apply elem_of_cons in Hin as [Heq | Hin].
  - injection Heq as -> ->. rewrite foldl_insert_other by exact Hfresh.
    apply lookup_insert_eq.
  - now apply IH.
Qed.

Section LegacyScan.
Variable _hsv : colormap.
Variable roi : Legacy.ROI.
Variable frame : list (list Pixel).
Variable colors : list (string * Legacy.Mask).
Variables xg yg : list (list Z).
Hypothesis Hnd : NoDup colors.*1.

Local Abbreviation masked :=
  (Legacy.dict_of_items
     ((fun kv : string * Legacy.Mask =>
         (kv.1, Legacy.Mask_apply kv.2 (Legacy.as_HL frame).1)) <$> colors)).

Lemma legacy_scan_masknames (todo : list (string * Legacy.Mask))
    (values : list float) (M : list (list Pixel)) :
  (forall kv, kv ∈ todo -> kv ∈ colors) ->
  exists M',
    Legacy.scan_masknames _hsv roi (Legacy.dict_of_items colors) masked
      (Legacy.as_HL frame).2 xg yg todo.*1 values M
    = Ok (values ++ concat ((fun kv : string * Legacy.Mask =>
                               legacy_class_values roi frame xg yg kv.2) <$> todo),
          M').
Proof.
  revert values M. induction todo as [| [name m] todo IH]; intros values M Hsub.
  - exists M. simpl. now rewrite app_nil_r.
  - assert (Hin : (name, m) ∈ colors) by (apply Hsub, list_elem_of_here).
    assert (Hsub' : forall kv, kv ∈ todo -> kv ∈ colors)
      by (intros kv Hkv; apply Hsub; now apply list_elem_of_further).
    csimpl. cbn [Legacy.scan_masknames].
    rewrite (dict_of_items_lookup colors name m Hnd Hin).
    rewrite (dict_of_items_lookup _ name (Legacy.Mask_apply m (Legacy.as_HL frame).1)).
    + unfold legacy_class_values at 1. simpl.
      destruct (decide (0 < count_nonzero2 _)%nat);
        match goal with
        | |- exists M', Legacy.scan_masknames _ _ _ _ _ _ _ _ ?v ?M0 = _ =>
            destruct (IH v M0 Hsub') as [M' HM']
        end;
        exists M'; (etrans; [exact HM' |]); now rewrite <- app_assoc.
    + rewrite <- list_fmap_compose. exact Hnd.
    + apply list_elem_of_fmap. now exists (name, m).
Qed.

Lemma legacy_roi_update_values (M : list (list Pixel)) :
  exists M',
    Legacy.roi_update _hsv roi colors colors.*1 frame xg yg M
    = Ok (concat ((fun kv : string * Legacy.Mask =>
                     legacy_class_values roi frame xg yg kv.2) <$> colors), M').
Proof.
  unfold Legacy.roi_update.
  destruct (Legacy.as_HL frame) as [H L] eqn:HHL.
  destruct (legacy_scan_masknames colors [] M ltac:(auto)) as [M' HM'].
  rewrite HHL in HM'. simpl in HM'. exists M'. exact HM'.
Qed.
End LegacyScan.

(** The row of a rectangle in the single-module variant is the row of the
    specification over the pixels the rectangle keeps. *)
Lemma legacy_roi_update_spec (_hsv : colormap) (roi : Legacy.ROI)
    (frame : list (list Pixel)) (colors : list (string * Legacy.Mask))
    (M : list (list Pixel)) :
  rectangular frame -> NoDup colors.*1 ->
  exists M',
    Legacy.roi_update _hsv roi colors colors.*1 frame
      (Legacy.frame_grids frame).1 (Legacy.frame_grids frame).2 M
    = Ok (spec_values (legacy_intervals colors) (legacy_region_pixels roi frame), M').
Proof.
  intros Hrect Hnd.
  destruct (legacy_roi_update_values _hsv roi frame colors
              (Legacy.frame_grids frame).1 (Legacy.frame_grids frame).2 Hnd M)
    as [M' HM'].
  exists M'. rewrite HM'. do 2 f_equal.
  unfold spec_values, legacy_intervals. rewrite <- list_fmap_compose.
  f_equal. apply list_fmap_ext. intros _ [name m] _. simpl.
  now apply legacy_class_values_spec.
Qed.


(** ** A rectangle inside the frame, in the package *)


Lemma zip_fmap_diag {A B C} (f : A -> B) (g : A -> C) (l : list A) :
  zip (f <$> l) (g <$> l) = (fun a => (f a, g a)) <$> l.
Proof. induction l as [| a l IH]; [reflexivity |]. csimpl. now rewrite IH. Qed.

Lemma drop_imap {A B} (f : nat -> A -> B) (k : nat) (l : list A) :
  drop k (imap f l) = imap (fun j => f (k + j)%nat) (drop k l).
Proof.
  revert f l. induction k as [| k IH]; intros f l; [reflexivity |].
  destruct l as [| a l]; [reflexivity |].
  rewrite imap_cons. simpl. now rewrite IH.
Qed.

Lemma take_imap {A B} (f : nat -> A -> B) (n : nat) (l : list A) :
  take n (imap f l) = imap f (take n l).
Proof.
  revert f l. induction n as [| n IH]; intros f l; [reflexivity |].
  destruct l as [| a l]; [reflexivity |].
  rewrite imap_cons. simpl. now rewrite IH.
Qed.

(** A window of the indexed frame is the window of the frame, indexed from
    its corner. *)
Lemma window_indexed (r0 r1 c0 c1 : nat) (frame : list (list Pixel)) :
  window r0 r1 c0 c1 (indexed frame)
  = imap (fun i row =>
            imap (fun j p => (Z.of_nat (c0 + j), Z.of_nat (r0 + i), p)) row)
         (window r0 r1 c0 c1 frame).
Proof.
  unfold window, indexed.
  rewrite drop_imap, take_imap, fmap_imap, imap_fmap.
  apply imap_ext. intros i row _. simpl.
  now rewrite drop_imap, take_imap.
Qed.



Lemma elem_of_concat {A} (t : A) (ls : list (list A)) :
  t ∈ concat ls <-> exists l, t ∈ l /\ l ∈ ls.
Proof.
  induction ls as [| l0 ls IH]; simpl.
  - split; [intros H; inversion H | intros (l & _ & H); inversion H].
  - rewrite elem_of_app, IH. split.
    + intros [H | (l & Ht & Hl)].
      * exists l0. split; [exact H | apply list_elem_of_here].
      * exists l. split; [exact Ht | now apply list_elem_of_further].
    + intros (l & Ht & Hl). apply elem_of_cons in Hl as [-> | Hl].
      * now left.
      * right. now exists l.
Qed.

Lemma window_subset {A} (r0 r1 c0 c1 : nat) (a : list (list A)) (t : A) :
  t ∈ concat (window r0 r1 c0 c1 a) -> t ∈ concat a.
Proof.
  unfold window. rewrite !elem_of_concat.
  intros (row & Ht & Hrow). apply list_elem_of_fmap in Hrow as (row0 & -> & Hrow0).
  exists row0. split.
  - eapply subseteq_drop, subseteq_take. exact Ht.
  - eapply subseteq_drop, subseteq_take. exact Hrow0.
Qed.

(** Every entry of the indexed frame is the pixel the frame holds at the
    entry's position. *)
Lemma indexed_getitem2 (frame : list (list Pixel)) (t : located) :
  rectangular frame -> t ∈ concat (indexed frame) ->
  getitem2 frame (loc_y t) (loc_x t) = Some (loc_pixel t).
Proof.
  intros Hrect Ht. apply elem_of_concat in Ht as (irow & Ht & Hirow).
  unfold indexed in Hirow. apply elem_of_lookup_imap in Hirow as (i & row & -> & Hrow).
  apply elem_of_lookup_imap in Ht as (j & p & -> & Hp).
  unfold loc_x, loc_y, loc_pixel; simpl.
  assert (Hi : (i < length frame)%nat) by (eapply lookup_lt_Some; exact Hrow).
  assert (Hlen : length row = (shape frame).2).
  { eapply (proj1 (Forall_lookup _ _) Hrect). exact Hrow. }
  assert (Hj : (j < (shape frame).2)%nat) by (rewrite <- Hlen; eapply lookup_lt_Some; exact Hp).
  unfold getitem2, np_position, np_index.
  change (shape frame).1 with (length frame).
  rewrite decide_True by lia. simpl.
  rewrite decide_True by lia. simpl.
  unfold grid_lookup; simpl. rewrite !Nat2Z.id, Hrow. simpl. exact Hp.
Qed.




Lemma legacy_colors_names (colors : list (string * ColorMask)) :
  (legacy_colors colors).*1 = colors.*1.
Proof.
  unfold legacy_colors. rewrite <- list_fmap_compose.
  apply list_fmap_ext. now intros _ [name c] _.
Qed.

Lemma legacy_colors_intervals (colors : list (string * ColorMask)) :
  legacy_intervals (legacy_colors colors) = intervals colors.
Proof.
  unfold legacy_intervals, legacy_colors, intervals. rewrite <- list_fmap_compose.
  apply list_fmap_ext. now intros _ [name c] _.
Qed.




(** ** One frame update of the single-module variant *)

Lemma legacy_scan_ROIs_rows (_hsv : colormap) (i : nat) (frame : list (list Pixel))
    (colors : list (string * Legacy.Mask)) (todo : list (string * Legacy.ROI))
    (files files' : gmap string TextFile) (M M' : list (list Pixel)) :
  rectangular frame -> NoDup colors.*1 -> NoDup todo.*1 ->
  Legacy.scan_ROIs _hsv i frame colors colors.*1 (Legacy.frame_grids frame).1
    (Legacy.frame_grids frame).2 todo files M = (files', Ok M') ->
  (forall R, R ∉ todo.*1 -> files' !! R = files !! R)
  /\ (forall R roi fp, (R, roi) ∈ todo -> files !! R = Some fp ->
        files' !! R
        = Some (with_row fp
                  (result_row i (spec_values (legacy_intervals colors)
                                   (legacy_region_pixels roi frame))))).
Proof.
  intros Hrect Hcol. revert files M.
  induction todo as [| [R0 roi0] rest IH]; intros files M Hnd Hscan.
  - simpl in Hscan. injection Hscan as <- _.
    split; [done |]. intros R roi fp Hin. inversion Hin.
  - apply NoDup_cons in Hnd as [Hfresh Hnd]. cbn [Legacy.scan_ROIs] in Hscan.
    destruct (files !! R0) as [fp0 |] eqn:Hfp0.
    + destruct (legacy_roi_update_spec _hsv roi0 frame colors M Hrect Hcol)
        as [M1 Hup].
      rewrite Hup in Hscan.
      destruct (file_write fp0 _) as [fp0' | e] eqn:Hw; [| discriminate].
      apply file_write_Ok in Hw as [Hopen ->].
      destruct (IH _ _ Hnd Hscan) as (Hout & Hrows).
      split.
      * intros R HR. apply not_elem_of_cons in HR as [Hne HR].
        rewrite (Hout R HR). now rewrite lookup_insert_ne.
      * intros R roi fp Hin Hfp. apply elem_of_cons in Hin as [Heq | Hin].
        -- injection Heq as -> ->. rewrite Hfp0 in Hfp. injection Hfp as <-.
           rewrite (Hout R0 Hfresh). apply lookup_insert_eq.
        -- assert (Hne : R0 <> R).
           { intros ->. apply Hfresh. apply list_elem_of_fmap. now exists (R, roi). }
           apply (Hrows R roi fp Hin). now rewrite lookup_insert_ne.
    + destruct (IH _ _ Hnd Hscan) as (Hout & Hrows).
      split.
      * intros R HR. apply not_elem_of_cons in HR as [_ HR]. now apply Hout.
      * intros R roi fp Hin Hfp. apply elem_of_cons in Hin as [Heq | Hin].
        -- injection Heq as -> ->. congruence.
        -- now apply (Hrows R roi fp).
Qed.

(** The row a returning [__update__] of the single-module variant appends to
    the result file of a rectangle. *)
Lemma legacy_update_row (_hsv : colormap) (i : nat) (frame : list (list Pixel))
    (self self' : Legacy.Pixylation) (R : string) (roi : Legacy.ROI) (fp : TextFile) :
  Legacy.Pixylation__update__ _hsv i frame self = (self', Returned) ->
  rectangular frame ->
  Legacy._masknames self = (Legacy.masks self).*1 ->
  legacy_grids self frame = Legacy.frame_grids frame ->
  NoDup (Legacy.masks self).*1 -> NoDup (Legacy.ROIs self).*1 ->
  (R, roi) ∈ Legacy.ROIs self -> Legacy._resultfiles self !! R = Some fp ->
  Legacy._resultfiles self' !! R
  = Some (with_row fp
            (result_row i (spec_values (legacy_intervals (Legacy.masks self))
                             (legacy_region_pixels roi frame)))).
Proof.
  intros Hup Hrect Hnames Hgrids Hcol Hnd Hin Hfp.
  unfold Legacy.Pixylation__update__ in Hup.
  fold (legacy_grids self frame) in Hup. rewrite Hgrids, Hnames in Hup.
  destruct (Legacy.frame_grids frame) as [xg yg] eqn:Hg.
  destruct (Legacy.scan_ROIs _ _ _ _ _ _ _ _ _ _) as [files [M' | e]] eqn:Hscan.
  - assert (Hfiles : Legacy._resultfiles self' = files).
    { destruct (Legacy._maskfile self) as [wr |].
      - destruct (writeFrame wr M'); [| discriminate]. now injection Hup as <-.
      - now injection Hup as <-. }
    rewrite Hfiles.
    change xg with (xg, yg).1 in Hscan. change yg with (xg, yg).2 in Hscan at 2.
    rewrite <- Hg in Hscan.
    destruct (legacy_scan_ROIs_rows _ _ _ _ _ _ _ _ _ Hrect Hcol Hnd Hscan)
      as [_ Hrows].
    now apply (Hrows R roi fp).
  - discriminate.
Qed.

Lemma centroid_pair_length (pts : list located) : length (centroid_pair pts) = 2%nat.
Proof. unfold centroid_pair. now destruct (decide (pts = [])). Qed.

(** The two positions of a class in the row. *)
Lemma spec_values_at (ivs : list (Qc * Qc)) (region : list located) (j : nat)
    (on off : Qc) :
  ivs !! j = Some (on, off) ->
  let pts := matched_pixels on off region in
  pts <> [] ->
  spec_values ivs region !! (2 * j)%nat = Some (one_based_centroid loc_x pts)
  /\ spec_values ivs region !! (2 * j + 1)%nat = Some (one_based_centroid loc_y pts).
Proof.
  intros Hj pts Hne. unfold spec_values.
  destruct (lookup_concat_pairs
              (fun iv : Qc * Qc => centroid_pair (matched_pixels iv.1 iv.2 region))
              ivs j (on, off)) as [H0 H1];
    [intros a; apply centroid_pair_length | exact Hj |].
  rewrite H0, H1. simpl. fold pts. unfold centroid_pair.
  now rewrite decide_False by exact Hne.
Qed.

(** One matched pixel of non-zero luminance is its own centroid, counted
    from 1. *)
Lemma one_based_centroid_single (coord : located -> Z) (t : located) :
  luma_of (loc_pixel t) <> 0%Qc ->
  one_based_centroid coord [t] = Fin (Qc_of_Z (coord t + 1)).
Proof.
  intros Hl. unfold one_based_centroid, np_div, np_sum.
  cbn [fmap list_fmap foldr].
  rewrite !Qcplus_0_r. rewrite decide_False by exact Hl.
  f_equal. field. exact Hl.
Qed.

(** The pixels of a region of the package are the pixels the frame holds at
    the region's coordinates. *)
Lemma region_pixels_getitem2 (roi : ROI) (frame : list (list Pixel))
    (pixels : list Pixel) (t : located) :
  ROI_crop roi frame = Some pixels -> t ∈ region_pixels roi pixels ->
  getitem2 frame (loc_y t) (loc_x t) = Some (loc_pixel t).
Proof.
  intros Hcrop Ht. unfold ROI_crop, take_points in Hcrop.
  apply mapM_Some_1 in Hcrop.
  apply list_elem_of_lookup in Ht as [k Hk]. unfold region_pixels in Hk.
  apply lookup_zip_with_Some in Hk as (xy & px & -> & Hxy & Hpx).
  apply lookup_zip_with_Some in Hxy as (x & y & -> & Hx & Hy).
  assert (Hyx : zip (ypos roi) (xpos roi) !! k = Some (y, x)).
  { apply lookup_zip_with_Some. now exists y, x. }
  exact (Forall2_lookup_lr _ _ _ _ _ _ Hcrop Hyx Hpx).
Qed.

Lemma intervals_lookup (colors : list (string * ColorMask)) (j : nat)
    (name : string) (c : ColorMask) :
  colors !! j = Some (name, c) -> intervals colors !! j = Some (onset c, offset c).
Proof. intros Hj. unfold intervals. now rewrite list_lookup_fmap, Hj. Qed.

Lemma legacy_intervals_lookup (colors : list (string * Legacy.Mask)) (j : nat)
    (name : string) (m : Legacy.Mask) :
  colors !! j = Some (name, m) ->
  legacy_intervals colors !! j = Some (Legacy.onset m, Legacy.offset m).
Proof. intros Hj. unfold legacy_intervals. now rewrite list_lookup_fmap, Hj. Qed.

(** C1: in a frame update that returns, for a region R with a result file and
    the class at position j of the declaration order with at least one
    matched pixel in the region, the row appended to the file of R holds at
    the positions 2j and 2j+1 the values sum((x+1)*lum)/sum(lum) and
    sum((y+1)*lum)/sum(lum), the sums running over the matched pixels only:
    the pixels the frame holds at the region's coordinates whose hue lies in
    the interval of the class, x and y being their 0-based array positions.
    For 8-bit pixels and a class whose interval starts at 0 or above the sum
    of luminances is positive and the two values are finite; a single matched
    pixel is reported at its own position plus one, so the top-left pixel is
    at (1, 1).  The single-module variant writes the same two values for a
    rectangle, over the pixels of the frame inside the rectangle. *)
Theorem C1_luminance_weighted_centroid
    (i : nat) (frame : list (list Pixel)) (self self' : Pixylation)
    (R : string) (roi : ROI) (fp : TextFile) (pixels : list Pixel)
    (j : nat) (name : string) (c : ColorMask) :
  Pixylation__update__ i frame self = (self', Returned) ->
  NoDup (ROIs self).*1 ->
  (R, roi) ∈ ROIs self -> _resultfiles self !! R = Some fp ->
  ROI_crop roi frame = Some pixels ->
  masks self !! j = Some (name, c) ->
  let region := region_pixels roi pixels in
  let pts := matched_pixels (onset c) (offset c) region in
  pts <> [] ->
  let values := roi_values roi (masks self) pixels in
  let lum := fun t : located => luma_of (loc_pixel t) in
  _resultfiles self' !! R = Some (with_row fp (result_row i values))
  /\ values !! (2 * j)%nat = Some (one_based_centroid loc_x pts)
  /\ values !! (2 * j + 1)%nat = Some (one_based_centroid loc_y pts)
  /\ (forall t, t ∈ pts
                <-> t ∈ region /\ hue_in (onset c) (offset c) (hue_of (loc_pixel t)) = true)
  /\ (forall t, t ∈ region ->
                getitem2 frame (loc_y t) (loc_x t) = Some (loc_pixel t))
  /\ (frame_ok frame -> (0 <= onset c)%Qc ->
      one_based_centroid loc_x pts
      = Fin (np_sum ((fun t => Qc_of_Z (loc_x t + 1) * lum t) <$> pts)
             / np_sum (lum <$> pts))%Qc
      /\ one_based_centroid loc_y pts
         = Fin (np_sum ((fun t => Qc_of_Z (loc_y t + 1) * lum t) <$> pts)
                / np_sum (lum <$> pts))%Qc)
  /\ (forall t, pts = [t] -> lum t <> 0%Qc ->
        one_based_centroid loc_x pts = Fin (Qc_of_Z (loc_x t + 1))
        /\ one_based_centroid loc_y pts = Fin (Qc_of_Z (loc_y t + 1)))
  /\ (forall (_hsv : colormap) (lself lself' : Legacy.Pixylation)
             (lroi : Legacy.ROI) (lfp : TextFile) (m : Legacy.Mask),
        Legacy.Pixylation__update__ _hsv i frame lself = (lself', Returned) ->
        rectangular frame ->
        Legacy._masknames lself = (Legacy.masks lself).*1 ->
        legacy_grids lself frame = Legacy.frame_grids frame ->
        NoDup (Legacy.masks lself).*1 -> NoDup (Legacy.ROIs lself).*1 ->
        (R, lroi) ∈ Legacy.ROIs lself -> Legacy._resultfiles lself !! R = Some lfp ->
        Legacy.masks lself !! j = Some (name, m) ->
        let lregion := legacy_region_pixels lroi frame in
        let lpts := matched_pixels (Legacy.onset m) (Legacy.offset m) lregion in
        lpts <> [] ->
        (forall t, t ∈ lregion ->
                   getitem2 frame (loc_y t) (loc_x t) = Some (loc_pixel t))
        /\ exists lvalues,
             Legacy._resultfiles lself' !! R
             = Some (with_row lfp (result_row i lvalues))
             /\ lvalues !! (2 * j)%nat = Some (one_based_centroid loc_x lpts)
             /\ lvalues !! (2 * j + 1)%nat = Some (one_based_centroid loc_y lpts)).
Proof.
  intros Hup Hnd Hin Hfp Hcrop Hj region pts Hne values lum.
  assert (Hlen : length pixels = length (zip (ypos roi) (xpos roi)))
    by (apply (take_points_length frame); exact Hcrop).
  destruct (roi_values_at roi (masks self) pixels j name c Hlen Hj) as [H0 H1].
  fold region pts in H0, H1. rewrite decide_False in H0, H1 by exact Hne.
  split; [exact (update_row i frame self self' R roi fp pixels Hup Hnd Hin Hfp Hcrop) |].
  split; [exact H0 |]. split; [exact H1 |].
  split; [intros t; apply elem_of_matched_pixels |].
  split; [intros t Ht; exact (region_pixels_getitem2 roi frame pixels t Hcrop Ht) |].
  split.
  { intros Hok Hon.
    pose proof (crop_pixels_ok roi frame pixels Hok Hcrop) as Hreg.
    split; apply (one_based_centroid_finite _ (onset c) (offset c) region Hreg Hon Hne). }
  split.
  { intros t Ht Hl. rewrite Ht.
    split; apply one_based_centroid_single; exact Hl. }
  intros _hsv lself lself' lroi lfp m Hlup Hrect Hnames Hgrids Hlcol Hlnd Hlin Hlfp Hlj
    lregion lpts Hlne.
  split.
  { intros t Ht. apply indexed_getitem2; [exact Hrect |].
    eapply window_subset. exact Ht. }
  exists (spec_values (legacy_intervals (Legacy.masks lself)) lregion).
  split.
  - exact (legacy_update_row _hsv i frame lself lself' R lroi lfp Hlup Hrect Hnames
             Hgrids Hlcol Hlnd Hlin Hlfp).
  - apply (spec_values_at _ lregion j (Legacy.onset m) (Legacy.offset m));
      [exact (legacy_intervals_lookup _ j name m Hlj) | exact Hlne].
Qed.

Lemma C1_luminance_weighted_centroid_witness :
  let roi := RectangularROI (rect_specs 0 0 2 2) in
  let lroi := Legacy.ROI__init__ (rect_specs 0 0 2 2) in
  let pixels := [RGB 255 0 0; RGB 255 255 0; RGB 0 255 0; RGB 200 10 10] in
  let c := {| onset := 0; offset := Qc_of_Z 30; color := RGB 255 0 0 |} in
  let fp := fresh_result_file "out" "clip" ["red"; "warm"; "cyan"] "A" in
  let pts := matched_pixels (onset c) (offset c) (region_pixels roi pixels) in
  let lpts := matched_pixels (onset c) (offset c)
                (legacy_region_pixels lroi example_frame) in
  let values := roi_values roi (masks example_started) pixels in
  pts = [(0, 0, RGB 255 0 0); (1, 1, RGB 200 10 10)]
  /\ lpts = [(0, 0, RGB 255 0 0); (1, 1, RGB 200 10 10)]
  /\ _resultfiles example_updated !! "A" = Some (with_row fp (result_row 0 values))
  /\ values !! (2 * 0)%nat = Some (one_based_centroid loc_x pts)
  /\ values !! (2 * 0 + 1)%nat = Some (one_based_centroid loc_y pts)
  /\ exists lvalues,
       Legacy._resultfiles example_legacy_updated !! "A"
       = Some (with_row fp (result_row 0 lvalues))
       /\ lvalues !! (2 * 0)%nat = Some (one_based_centroid loc_x lpts)
       /\ lvalues !! (2 * 0 + 1)%nat = Some (one_based_centroid loc_y lpts).
Proof.
  intros roi lroi pixels c fp pts lpts values.
  assert (Hpts : pts = [(0, 0, RGB 255 0 0); (1, 1, RGB 200 10 10)])
    by (vm_compute; reflexivity).
  assert (Hlpts : lpts = [(0, 0, RGB 255 0 0); (1, 1, RGB 200 10 10)])
    by (vm_compute; reflexivity).
  destruct (C1_luminance_weighted_centroid 0 example_frame example_started
              example_updated "A" roi fp pixels 0 "red" c)
    as (H1 & H2 & H3 & _ & _ & _ & _ & H8).
  - vm_compute; reflexivity.
  - apply (bool_decide_unpack _). vm_compute; reflexivity.
  - vm_compute. apply list_elem_of_here.
  - vm_compute; reflexivity.
  - vm_compute; reflexivity.
  - vm_compute; reflexivity.
  - fold pts. rewrite Hpts. discriminate.
  - refine (conj Hpts (conj Hlpts (conj H1 (conj H2 (conj H3 _))))).
    destruct (H8 example_hsv example_legacy_started example_legacy_updated lroi fp
                (legacy_mask c)) as [_ Hl].
    + vm_compute; reflexivity.
    + repeat constructor.
    + vm_compute; reflexivity.
    + vm_compute; reflexivity.
    + apply (bool_decide_unpack _). vm_compute; reflexivity.
    + apply (bool_decide_unpack _). vm_compute; reflexivity.
    + vm_compute. apply list_elem_of_here.
    + vm_compute; reflexivity.
    + vm_compute; reflexivity.
    + change (lpts <> []). rewrite Hlpts. discriminate.
    + exact Hl.
Defined.

(** ** The single-file job ([Processor]) *)

(** The frames handed to [__update__] are numbered upwards from the start
    index, without gaps, until the frames end or an update raises. *)
Lemma feed_log {St} `{AbstractBatch St} (frames : list (list (list Pixel)))
    (i : nat) (s : St) (log : list event) :
  exists k, (k <= length frames)%nat
    /\ (feed frames i s log).1.2 = log ++ (EvFrame <$> seq i k)
    /\ ((feed frames i s log).2 = None -> k = length frames)
    /\ (is_Some (feed frames i s log).2 -> (0 < k)%nat).
Proof.
  revert i s log. induction frames as [| frame rest IH]; intros i s log.
  - exists 0%nat. simpl. rewrite app_nil_r.
    repeat split; [lia | .. ]. intros [e He]. discriminate He.
  - cbn [feed]. destruct (__update__ i frame s) as [s' [| e]].
    + destruct (IH (S i) s' (log ++ [EvFrame i])) as (k & Hk & Hlog & Hnone & Hsome).
      exists (S k). simpl. rewrite Hlog, <- app_assoc.
      repeat split; [lia | .. ].
      * intros Hn. now rewrite (Hnone Hn).
      * intros _. lia.
    + exists 1%nat. simpl. repeat split; [lia | .. ].
      * discriminate.
      * intros _. lia.
Qed.

Lemma feed_app {St} `{AbstractBatch St} (pre post : list (list (list Pixel)))
    (i : nat) (s s' : St) (log log' : list event) :
  feed pre i s log = (s', log', None) ->
  feed (pre ++ post) i s log = feed post (i + length pre) s' log'.
Proof.
  revert i s log. induction pre as [| frame rest IH]; intros i s log Hpre.
  - simpl in *. injection Hpre as -> ->. now rewrite Nat.add_0_r.
  - cbn [feed app] in *. destruct (__update__ i frame s) as [s1 [| e]]; [| discriminate].
    rewrite (IH _ _ _ Hpre). f_equal. simpl. lia.
Qed.

(** X1: once [__start__] has returned, a job always ends the same way: [__done__]
    is called once, with [err] telling whether an exception left the loop,
    and then the reader is closed.  This holds when an update raises, when
    decoding breaks off and when the video has no frame at all.  The frames
    that reached [__update__] are numbered 0, 1, 2, ... without gaps, and a
    job that ends without an exception has seen every frame of a video that
    has at least one. *)
Theorem job_ends_with_done_and_close {St} `{AbstractBatch St} (os : OS)
    (path : string) (s s1 : St) (v : Video) :
  video_at os path = Some v ->
  __start__ (os_path_tail path) s = (s1, Returned) ->
  let name := os_path_tail path in
  let r := run_file os path s in
  let err := bool_decide (is_Some (run_raised r)) in
  run_reader r = Some {| rpath := path; rvideo := v; rclosed := true |}
  /\ exists k, (k <= length (vframes v))%nat
       /\ run_log r = [EvOpen path; EvStart name] ++ (EvFrame <$> seq 0 k)
                        ++ [EvDone name err; EvClose path]
       /\ (run_raised r = None ->
           k = length (vframes v) /\ (0 < k)%nat /\ vbroken v = false).
Proof.
  intros Hv Hstart name r err. subst r err name. unfold run_file.
  rewrite Hv, Hstart. unfold iterate. set (name := os_path_tail path).
  destruct (feed_log (vframes v) 0 s1 [EvOpen path; EvStart name])
    as (k & Hk & Hlog & Hnone & Hsome).
  destruct (feed (vframes v) 0 s1 [EvOpen path; EvStart name]) as [[s2 log2] exc].
  simpl in Hlog, Hnone, Hsome. subst log2.
  destruct exc as [e |].
  - destruct (__done__ name (bool_decide (is_Some (Some e))) s2) as [s3 o] eqn:Hd.
    simpl. split; [reflexivity |]. exists k. split; [exact Hk |].
    split; [first [reflexivity | now rewrite <- app_assoc] | discriminate].
  - specialize (Hnone eq_refl). subst k.
    destruct (vbroken v) eqn:Hb.
    + destruct (__done__ name _ s2) as [s3 o]. simpl.
      split; [reflexivity |]. eexists. split; [reflexivity |].
      split; [first [reflexivity | now rewrite <- app_assoc] | discriminate].
    + destruct (bool_decide (length (vframes v) = 0%nat)) eqn:Hz.
      * destruct (__done__ name _ s2) as [s3 o]. simpl.
        split; [reflexivity |]. eexists. split; [reflexivity |].
        split; [first [reflexivity | now rewrite <- app_assoc] | discriminate].
      * destruct (__done__ name _ s2) as [s3 o]. simpl.
        split; [reflexivity |]. eexists. split; [reflexivity |].
        split; [first [reflexivity | now rewrite <- app_assoc] |].
        intros _. apply bool_decide_eq_false in Hz. repeat split. lia.
Qed.

Lemma job_ends_with_done_and_close_witness :
  let r := run_file (H := Pixylation_batch example_os) example_os "videos/clip.mp4"
             example_engine in
  run_reader r
  = Some {| rpath := "videos/clip.mp4";
            rvideo := {| vframes := [example_frame]; vbroken := false |};
            rclosed := true |}
  /\ exists k, (k <= 1)%nat
       /\ run_log r
          = [EvOpen "videos/clip.mp4"; EvStart "clip.mp4"] ++ (EvFrame <$> seq 0 k)
              ++ [EvDone "clip.mp4" (bool_decide (is_Some (run_raised r)));
                  EvClose "videos/clip.mp4"]
       /\ (run_raised r = None -> k = 1%nat /\ (0 < k)%nat /\ false = false).
Proof.
  apply (job_ends_with_done_and_close (H := Pixylation_batch example_os) example_os
           "videos/clip.mp4" example_engine example_started
           {| vframes := [example_frame]; vbroken := false |}).
  - reflexivity.
  - vm_compute; reflexivity.
Defined.

(** X2: a video that delivers no frame makes the job fail although nothing went
    wrong: the closing status line of [Processor.__iter__] reads the loop
    variable, which was never bound.  [__done__] is told that an error
    occurred. *)
Theorem video_without_frames_fails {St} `{AbstractBatch St} (os : OS)
    (path : string) (s s1 : St) (v : Video) :
  video_at os path = Some v ->
  __start__ (os_path_tail path) s = (s1, Returned) ->
  vframes v = [] -> vbroken v = false ->
  let name := os_path_tail path in
  let r := run_file os path s in
  run_raised r = Some (UnboundLocalError "i")
  /\ run_log r = [EvOpen path; EvStart name; EvDone name true; EvClose path]
  /\ run_state r = (__done__ name true s1).1.
Proof.
  intros Hv Hstart Hnil Hb name r. subst r name. unfold run_file.
  rewrite Hv, Hstart. unfold iterate. rewrite Hnil, Hb. simpl.
  set (name := os_path_tail path).
  destruct (__done__ name true s1) as [s3 o]. now simpl.
Qed.

Lemma video_without_frames_fails_witness :
  let os := {| getcwd := "."; imread := fun _ => None;
               ensure_directory := fun _ => true; can_open := fun _ => true;
               can_encode := fun _ => true;
               video_at := fun _ => Some {| vframes := []; vbroken := false |};
               glob := fun _ => [] |} in
  let r := run_file (H := Pixylation_batch os) os "clip.mp4" example_engine in
  run_raised r = Some (UnboundLocalError "i")
  /\ run_log r = [EvOpen "clip.mp4"; EvStart "clip.mp4"; EvDone "clip.mp4" true;
                  EvClose "clip.mp4"]
  /\ run_state r = (Pixylation__done__ "clip.mp4" true example_started).1.
Proof.
  intros os.
  apply (video_without_frames_fails (H := Pixylation_batch os) os "clip.mp4"
           example_engine example_started {| vframes := []; vbroken := false |}).
  - reflexivity.
  - vm_compute; reflexivity.
  - reflexivity.
  - reflexivity.
Defined.

(** X3: when an update raises, the frames after it never reach [__update__]: the
    exception leaves the loop, [__done__] is called with [err] set on the
    state the failing update left behind, and the reader is closed. *)
Theorem job_stops_at_first_failing_update {St} `{AbstractBatch St} (os : OS)
    (path : string) (s s1 s2 s3 : St) (v : Video)
    (pre post : list (list (list Pixel))) (f : list (list Pixel))
    (log2 : list event) (e : exn) :
  video_at os path = Some v ->
  __start__ (os_path_tail path) s = (s1, Returned) ->
  vframes v = pre ++ f :: post ->
  feed pre 0 s1 [EvOpen path; EvStart (os_path_tail path)] = (s2, log2, None) ->
  __update__ (length pre) f s2 = (s3, Raised e) ->
  let name := os_path_tail path in
  let r := run_file os path s in
  run_raised r = Some e
  /\ run_state r = (__done__ name true s3).1
  /\ run_log r = [EvOpen path; EvStart name] ++ (EvFrame <$> seq 0 (S (length pre)))
                   ++ [EvDone name true; EvClose path]
  /\ run_reader r = Some {| rpath := path; rvideo := v; rclosed := true |}.
Proof.
  intros Hv Hstart Hframes Hpre Hup name r. subst r name. unfold run_file.
  rewrite Hv, Hstart. unfold iterate.
  rewrite Hframes, (feed_app pre (f :: post) 0 s1 s2 _ log2 Hpre).
  set (name := os_path_tail path) in *.
  destruct (feed_log pre 0 s1 [EvOpen path; EvStart name]) as (k & _ & Hlog & Hnone & _).
  rewrite Hpre in Hlog, Hnone. simpl in Hlog, Hnone.
  specialize (Hnone eq_refl). subst k log2.
  cbn [feed]. simpl. rewrite Hup. simpl.
  destruct (__done__ name true s3) as [s4 o]. simpl.
  repeat split. do 2 f_equal.
  assert (Hs : EvFrame <$> seq 0 (S (length pre))
               = (EvFrame <$> seq 0 (length pre)) ++ [EvFrame (length pre)])
    by (rewrite seq_S, fmap_app; reflexivity).
  rewrite <- Hs. reflexivity.
Qed.

Lemma job_stops_at_first_failing_update_witness :
  let r := run_file (H := Pixylation_batch example_os_shrinking) example_os_shrinking
             "clip.mp4" example_engine in
  run_raised r = Some IndexError
  /\ run_state r
     = (Pixylation__done__ "clip.mp4" true
          (Pixylation__update__ 1 [[RGB 0 0 0]] example_updated).1).1
  /\ run_log r = [EvOpen "clip.mp4"; EvStart "clip.mp4"] ++ (EvFrame <$> seq 0 2)
                   ++ [EvDone "clip.mp4" true; EvClose "clip.mp4"]
  /\ run_reader r
     = Some {| rpath := "clip.mp4";
               rvideo := {| vframes := [example_frame; [[RGB 0 0 0]]; example_frame];
                            vbroken := false |};
               rclosed := true |}.
Proof.
  apply (job_stops_at_first_failing_update (H := Pixylation_batch example_os_shrinking)
           example_os_shrinking "clip.mp4" example_engine example_started
           example_updated (Pixylation__update__ 1 [[RGB 0 0 0]] example_updated).1
           {| vframes := [example_frame; [[RGB 0 0 0]]; example_frame];
              vbroken := false |}
           [example_frame] [example_frame] [[RGB 0 0 0]]
           [EvOpen "clip.mp4"; EvStart "clip.mp4"; EvFrame 0] IndexError).
  - reflexivity.
  - vm_compute; reflexivity.
  - reflexivity.
  - vm_compute; reflexivity.
  - vm_compute; reflexivity.
Defined.

Lemma open_result_files_none (os : OS) (resultdir basename : string)
    (masknames : list string) (rois : list (string * ROI)) :
  (forall R roi, (R, roi) ∈ rois ->
     ROI_is_empty roi = true \/ can_open os (result_path resultdir basename R) = false) ->
  open_result_files os resultdir basename masknames rois ∅ = ∅.
Proof.
  intros Hall. apply map_eq. intros R.
  rewrite (open_result_files_skips os resultdir basename masknames rois ∅ R).
  - reflexivity.
  - intros roi Hin. exact (Hall R roi Hin).
Qed.

(** X4: a tracking job none of whose regions can be written (each is empty, or
    its result file cannot be opened) fails in [__start__] with
    "nothing to output".  The exception leaves [Processor.__enter__], so the
    [with] statement never runs [__exit__]: no frame is read, [__done__] is
    not called, no mask writer is created, and the reader that [__enter__]
    had already created is not closed. *)
Theorem job_without_output_leaves_reader_open (os : OS) (path : string)
    (self : Pixylation) (v : Video) :
  video_at os path = Some v ->
  ensure_directory os (maskdir self) = true ->
  ensure_directory os (resultdir self) = true ->
  (forall R roi, (R, roi) ∈ ROIs self ->
     ROI_is_empty roi = true
     \/ can_open os (result_path (resultdir self)
                       (os_path_splitext (os_path_tail path)).1 R) = false) ->
  let name := os_path_tail path in
  let r := run_file (H := Pixylation_batch os) os path self in
  run_raised r = Some (RuntimeError ("nothing to output for " +:+ name))
  /\ run_log r = [EvOpen path; EvStart name]
  /\ run_reader r = Some {| rpath := path; rvideo := v; rclosed := false |}
  /\ _resultfiles (run_state r) = ∅
  /\ _maskfile (run_state r) = None.
Proof.
  intros Hv Hm Hr Hall name r. subst r name. unfold run_file. rewrite Hv.
  cbn [__start__ Pixylation_batch]. unfold Pixylation__start__.
  rewrite Hm, Hr. cbn [negb].
  rewrite (open_result_files_none _ _ _ _ _ Hall).
  rewrite bool_decide_eq_true_2 by apply map_size_empty.
  now simpl.
Qed.

Lemma job_without_output_leaves_reader_open_witness :
  let self := {| masks := example_colors;
                 ROIs := [("nothing", RectangularROI (rect_specs 0 0 0 5))];
                 maskdir := "out"; resultdir := "out";
                 _masknames := []; _resultfiles := ∅; _maskfile := None |} in
  let r := run_file (H := Pixylation_batch example_os) example_os "videos/clip.mp4" self in
  run_raised r = Some (RuntimeError "nothing to output for clip.mp4")
  /\ run_log r = [EvOpen "videos/clip.mp4"; EvStart "clip.mp4"]
  /\ run_reader r
     = Some {| rpath := "videos/clip.mp4";
               rvideo := {| vframes := [example_frame]; vbroken := false |};
               rclosed := false |}
  /\ _resultfiles (run_state r) = ∅
  /\ _maskfile (run_state r) = None.
Proof.
  intros self.
  apply (job_without_output_leaves_reader_open example_os "videos/clip.mp4" self
           {| vframes := [example_frame]; vbroken := false |}).
  - reflexivity.
  - reflexivity.
  - reflexivity.
  - intros R roi Hin. left. apply list_elem_of_singleton in Hin.
    injection Hin as -> ->. vm_compute. reflexivity.
Defined.

(** X5: [AbstractBatch.run] works through the expanded sources in order, on one
    and the same command object, and has no handler of its own: the first
    job an exception leaves is the last one, the paths after it are never
    opened.  Sources whose patterns match no file start no job and raise
    nothing. *)
Theorem batch_stops_at_first_failing_job {St} `{AbstractBatch St} (os : OS)
    (sourcedir : string) (sources : list string) (s : St) :
  let paths := _expandsources os sourcedir sources in
  let rs := AbstractBatch_run os sourcedir sources s in
  (length rs <= length paths)%nat
  /\ (forall r, rs !! 0%nat = Some r ->
        exists path, paths !! 0%nat = Some path /\ r = run_file os path s)
  /\ (forall k r r', rs !! k = Some r -> rs !! S k = Some r' ->
        run_raised r = None
        /\ exists path, paths !! S k = Some path
                        /\ r' = run_file os path (run_state r))
  /\ (forall r, last rs = Some r -> run_raised r = None -> length rs = length paths)
  /\ (paths <> [] -> rs <> [])
  /\ ((forall src, src ∈ sources -> glob os (os_path_join sourcedir src) = []) ->
      rs = []).
Proof.
  intros paths rs. subst rs. unfold AbstractBatch_run. fold paths.
  assert (Hempty : (forall src, src ∈ sources ->
                      glob os (os_path_join sourcedir src) = []) -> paths = []).
  { subst paths. unfold _expandsources. clear s.
    induction sources as [| src rest IH]; intros Hall; [reflexivity |].
    csimpl. rewrite (Hall src) by apply list_elem_of_here. simpl.
    apply IH. intros src' Hin. apply Hall. now apply list_elem_of_further. }
  clearbody paths.
  assert (Hmain :
    (length (run_paths os paths s) <= length paths)%nat
    /\ (forall r, run_paths os paths s !! 0%nat = Some r ->
          exists path, paths !! 0%nat = Some path /\ r = run_file os path s)
    /\ (forall k r r', run_paths os paths s !! k = Some r ->
          run_paths os paths s !! S k = Some r' ->
          run_raised r = None
          /\ exists path, paths !! S k = Some path
                          /\ r' = run_file os path (run_state r))
    /\ (forall r, last (run_paths os paths s) = Some r -> run_raised r = None ->
          length (run_paths os paths s) = length paths)
    /\ (paths <> [] -> run_paths os paths s <> [])).
  { clear Hempty. revert s. induction paths as [| path rest IH]; intros s.
    - simpl. repeat split; try discriminate; try lia. intros Hne. now contradiction Hne.
    - cbn [run_paths].
      destruct (IH (run_state (run_file os path s))) as (IH1 & IH2 & IH3 & IH4 & IH5).
      destruct (run_raised (run_file os path s)) as [e |] eqn:Hr.
      + split; [simpl; lia |]. split.
        { intros r Hr0. injection Hr0 as <-. now exists path. }
        split; [intros k r r' _ Hk; destruct k; discriminate Hk |].
        split; [| discriminate].
        intros r Hlast. injection Hlast as <-. congruence.
      + split; [simpl; lia |]. split.
        { intros r Hr0. injection Hr0 as <-. now exists path. }
        split.
        { intros k r r' Hk Hk'. destruct k as [| k].
          - injection Hk as <-. split; [exact Hr |].
            simpl in Hk'. exact (IH2 r' Hk').
          - simpl in Hk, Hk'. exact (IH3 k r r' Hk Hk'). }
        split; [| discriminate].
        intros r Hlast Hnone.
        destruct (run_paths os rest (run_state (run_file os path s))) as [| r0 rs0] eqn:Hrs.
        * destruct rest as [| p rest']; [reflexivity |].
          exfalso. now apply IH5.
        * simpl. f_equal. apply (IH4 r); [| exact Hnone].
          rewrite last_cons_cons in Hlast. exact Hlast. }
  destruct Hmain as (H1 & H2 & H3 & H4 & H5).
  refine (conj H1 (conj H2 (conj H3 (conj H4 (conj H5 _))))).
  intros Hall. now rewrite (Hempty Hall).
Qed.

(** ** The life of a tracking job ([Pixylation.__start__], [__update__],
       [__done__] under [Processor]) *)

Lemma string_app_assoc (a b c : string) : (a +:+ b) +:+ c = a +:+ (b +:+ c).
Proof.
  induction a as [| ch a IH]; [reflexivity |].
  change (String ch ((a +:+ b) +:+ c) = String ch (a +:+ (b +:+ c))).
  now rewrite IH.
Qed.

Lemma string_app_nil_r (a : string) : a +:+ "" = a.
Proof.
  induction a as [| ch a IH]; [reflexivity |].
  change (String ch (a +:+ "") = String ch a). now rewrite IH.
Qed.

Lemma rows_text_cons (i0 : nat) (vals : list float) (rows : list (list float)) :
  rows_text i0 (vals :: rows) = result_row i0 vals +:+ rows_text (S i0) rows.
Proof.
  unfold rows_text. rewrite imap_cons. cbn [foldr]. rewrite Nat.add_0_r.
  do 2 f_equal. apply imap_ext. intros k v _. simpl. f_equal. lia.
Qed.

Lemma roi_values_length (roi : ROI) (colors : list (string * ColorMask))
    (pixels : list Pixel) :
  length (roi_values roi colors pixels) = (2 * length colors)%nat.
Proof.
  unfold roi_values. induction colors as [| kc colors IH]; [reflexivity |].
  csimpl. rewrite length_app, IH, class_values_length. lia.
Qed.

(** The files [__start__] opens, read off the regions. *)
Lemma open_result_files_lookup (os : OS) (resultdir basename : string)
    (masknames : list string) (rois : list (string * ROI))
    (files : gmap string TextFile) (R : string) (fp : TextFile) :
  open_result_files os resultdir basename masknames rois files !! R = Some fp ->
  files !! R = Some fp
  \/ (fp = fresh_result_file resultdir basename masknames R
      /\ exists roi, (R, roi) ∈ rois /\ writable os resultdir basename R roi).
Proof.
  revert files. induction rois as [| [R0 roi0] rest IH]; intros files Hlook.
  - now left.
  - cbn [open_result_files] in Hlook.
    assert (Hrest : forall files0,
              open_result_files os resultdir basename masknames rest files0 !! R = Some fp ->
              files0 !! R = Some fp
              \/ (fp = fresh_result_file resultdir basename masknames R
                  /\ exists roi, (R, roi) ∈ (R0, roi0) :: rest
                                 /\ writable os resultdir basename R roi)).
    { intros files0 H0. destruct (IH files0 H0) as [Hl | (Hfp & roi & Hin & Hw)].
      - now left.
      - right. split; [exact Hfp |]. exists roi. split; [| exact Hw].
        now apply list_elem_of_further. }
    destruct (ROI_is_empty roi0) eqn:He; [now apply Hrest |].
    destruct (can_open os (result_path resultdir basename R0)) eqn:Ho;
      [| now apply Hrest].
    destruct (Hrest _ Hlook) as [Hl | Hr]; [| now right].
    destruct (decide (R0 = R)) as [-> | Hne].
    + rewrite lookup_insert_eq in Hl. injection Hl as <-. right.
      split; [reflexivity |]. exists roi0. split; [apply list_elem_of_here |].
      now split.
    + rewrite lookup_insert_ne in Hl by exact Hne. now left.
Qed.

Lemma open_result_files_dom (os : OS) (resultdir basename : string)
    (masknames : list string) (rois : list (string * ROI)) (R : string) :
  is_Some (open_result_files os resultdir basename masknames rois ∅ !! R)
  <-> exists roi, (R, roi) ∈ rois /\ writable os resultdir basename R roi.
Proof.
  split.
  - intros [fp Hfp].
    destruct (open_result_files_lookup _ _ _ _ _ _ _ _ Hfp) as [Hl | (_ & Hr)];
      [discriminate Hl | exact Hr].
  - intros (roi & Hin & He & Ho). eexists.
    exact (open_result_files_opens os resultdir basename masknames rois ∅ R roi Hin He Ho).
Qed.

(** X6: how [__start__] ends.  It returns exactly when both output directories
    can be made and at least one region is writable; a directory that cannot
    be made raises [OSError]; no writable region raises [RuntimeError]
    "nothing to output for <name>".  A result file that cannot be opened
    only drops its region, and a mask writer that cannot be created is
    swallowed too: [__start__] still returns, without a writer.  The writer
    is created last, so a raising [__start__] leaves none behind. *)
Theorem start_outcome (os : OS) (name : string) (self : Pixylation) :
  let B := (os_path_splitext name).1 in
  let r := Pixylation__start__ os name self in
  let some_writable :=
    exists R roi, (R, roi) ∈ ROIs self /\ writable os (resultdir self) B R roi in
  (r.2 = Returned
   <-> ensure_directory os (maskdir self) = true
       /\ ensure_directory os (resultdir self) = true /\ some_writable)
  /\ (ensure_directory os (maskdir self) = false ->
      r.2 = Raised (OSError (maskdir self)))
  /\ (ensure_directory os (maskdir self) = true ->
      ensure_directory os (resultdir self) = false ->
      r.2 = Raised (OSError (resultdir self)))
  /\ (ensure_directory os (maskdir self) = true ->
      ensure_directory os (resultdir self) = true -> ~ some_writable ->
      r.2 = Raised (RuntimeError ("nothing to output for " +:+ name)))
  /\ (r.2 <> Returned -> _maskfile r.1 = None)
  /\ (r.2 = Returned ->
      (forall R, is_Some (_resultfiles r.1 !! R)
                 <-> exists roi, (R, roi) ∈ ROIs self
                                 /\ writable os (resultdir self) B R roi)
      /\ (is_Some (_maskfile r.1)
          <-> can_encode os (mask_path (maskdir self) B) = true)
      /\ _masknames r.1 = (masks self).*1).
Proof.
  intros B r some_writable. subst r. unfold Pixylation__start__. fold B.
  set (files := open_result_files os (resultdir self) B (masks self).*1 (ROIs self) ∅).
  assert (Hsize : size files = 0%nat <-> ~ some_writable).
  { rewrite map_size_empty_iff. subst some_writable. split.
    - intros Hempty (R & roi & Hin & Hw).
      assert (Hs : is_Some (files !! R)) by (apply open_result_files_dom; eauto).
      rewrite Hempty in Hs. destruct Hs as [fp Hfp]. discriminate Hfp.
    - intros Hnone. apply map_eq. intros R. rewrite lookup_empty.
      destruct (files !! R) as [fp |] eqn:Hfp; [| reflexivity].
      exfalso. apply Hnone.
      destruct (proj1 (open_result_files_dom _ _ _ _ _ R)
                  (ex_intro _ fp Hfp)) as (roi & Hin & Hw).
      now exists R, roi. }
  assert (Hnz : size files <> 0%nat -> some_writable).
  { intros Hz. apply map_size_non_empty_iff, map_choose in Hz as (R & fp & Hfp).
    destruct (proj1 (open_result_files_dom _ _ _ _ _ R) (ex_intro _ fp Hfp))
      as (roi & Hin & Hw).
    now exists R, roi. }
  destruct (ensure_directory os (maskdir self)) eqn:Hm; cbn [negb].
  2:{ cbn [fst snd with_files _maskfile _resultfiles _masknames].
      refine (conj _ (conj _ (conj _ (conj _ (conj _ _))))); try congruence.
      split; [discriminate | intros (H0 & _); discriminate H0]. }
  destruct (ensure_directory os (resultdir self)) eqn:Hr; cbn [negb].
  2:{ cbn [fst snd with_files _maskfile _resultfiles _masknames].
      refine (conj _ (conj _ (conj _ (conj _ (conj _ _))))); try congruence.
      split; [discriminate | intros (_ & H0 & _); discriminate H0]. }
  destruct (bool_decide (size files = 0%nat)) eqn:Hz.
  - apply bool_decide_eq_true in Hz. apply Hsize in Hz.
    cbn [fst snd with_files _maskfile _resultfiles _masknames].
    refine (conj _ (conj _ (conj _ (conj _ (conj _ _))))); try congruence.
    split; [discriminate | intros (_ & _ & H0); contradiction].
  - apply bool_decide_eq_false in Hz. pose proof (Hnz Hz) as Hsome.
    cbn [fst snd with_files _maskfile _resultfiles _masknames].
    refine (conj _ (conj _ (conj _ (conj _ (conj _ _))))); try congruence.
    + split; [intros _; now repeat split | reflexivity].
    + intros _. split; [apply open_result_files_dom |]. split; [| reflexivity].
      destruct (can_encode os (mask_path (maskdir self) B)).
      * split; [reflexivity | eauto].
      * split; [intros [w Hw]; discriminate Hw | discriminate].
Qed.

(** What a run of returning updates does to the files of a tracking engine:
    every open result file of a region grows by one row per frame, the mask
    writer by one frame per frame; nothing else changes. *)
Lemma pixylation_feed_rows (os : OS) (frames : list (list (list Pixel))) (i : nat)
    (s s' : Pixylation) (log log' : list event) :
  NoDup (ROIs s).*1 ->
  feed (H := Pixylation_batch os) frames i s log = (s', log', None) ->
  masks s' = masks s /\ ROIs s' = ROIs s
  /\ (forall R, _resultfiles s !! R = None -> _resultfiles s' !! R = None)
  /\ (forall R roi fp, (R, roi) ∈ ROIs s -> _resultfiles s !! R = Some fp ->
        exists fp' rows,
          _resultfiles s' !! R = Some fp'
          /\ fpath fp' = fpath fp
          /\ (fclosed fp = false -> fclosed fp' = false)
          /\ length rows = length frames
          /\ Forall (fun vals => length vals = (2 * length (masks s))%nat) rows
          /\ ftext fp' = ftext fp +:+ rows_text i rows)
  /\ (_maskfile s = None -> _maskfile s' = None)
  /\ (forall w, _maskfile s = Some w ->
        exists w', _maskfile s' = Some w'
                   /\ wpath w' = wpath w
                   /\ (wclosed w = false -> wclosed w' = false)
                   /\ length (wframes w') = (length (wframes w) + length frames)%nat).
Proof.
  revert i s log. induction frames as [| frame rest IH]; intros i s log Hnd Hfeed.
  - simpl in Hfeed. injection Hfeed as <- _.
    repeat split; try done.
    + intros R roi fp _ Hfp. exists fp, []. repeat split; try done.
      unfold rows_text; simpl. now rewrite string_app_nil_r.
    + intros w Hw. exists w. repeat split; try done; simpl; lia.
  - cbn [feed] in Hfeed. cbn [__update__ Pixylation_batch] in Hfeed.
    destruct (Pixylation__update__ i frame s) as [s1 [| e]] eqn:Hup; [| discriminate].
    pose proof Hup as Hup'.
    apply Pixylation__update__Returned in Hup' as (M' & Hscan & Hmasks & HROIs & Hmf).
    destruct (scan_ROIs_rows _ _ _ _ _ _ _ _ Hnd Hscan) as (_ & Hnone & Hrows).
    assert (Hnd1 : NoDup (ROIs s1).*1) by (rewrite HROIs; exact Hnd).
    destruct (IH (S i) s1 _ Hnd1 Hfeed) as (Im & IR & Inone & Irows & Imn & Imw).
    rewrite Hmasks in Im. rewrite HROIs in IR.
    split; [exact Im |]. split; [exact IR |].
    split; [intros R HR; apply Inone, Hnone, HR |].
    split; [| split].
    + intros R roi fp Hin Hfp.
      destruct (Hrows R roi fp Hin Hfp) as (pixels & Hcrop & Hopen & Hfp1).
      rewrite <- HROIs in Hin.
      destruct (Irows R roi _ Hin Hfp1) as (fp' & rows & H1 & H2 & H3 & H4 & H5 & H6).
      exists fp', (roi_values roi (masks s) pixels :: rows).
      split; [exact H1 |]. split; [exact H2 |].
      split; [intros _; now apply H3 |].
      split; [simpl; now rewrite H4 |].
      split.
      * constructor; [apply roi_values_length | now rewrite <- Hmasks].
      * rewrite H6. unfold with_row; simpl.
        rewrite rows_text_cons. apply string_app_assoc.
    + intros Hn. apply Imn. now rewrite Hmf, Hn.
    + intros w Hw. rewrite Hw in Hmf. simpl in Hmf.
      destruct (Imw _ Hmf) as (w' & H1 & H2 & H3 & H4).
      exists w'. split; [exact H1 |]. split; [exact H2 |].
      split; [intros _; now apply H3 |].
      rewrite H4. unfold with_frame; simpl. rewrite length_app. simpl. lia.
Qed.

Lemma start_returned (os : OS) (name : string) (self s1 : Pixylation) :
  Pixylation__start__ os name self = (s1, Returned) ->
  (forall R, is_Some (_resultfiles s1 !! R)
             <-> exists roi, (R, roi) ∈ ROIs self
                             /\ writable os (resultdir self) (os_path_splitext name).1 R roi)
  /\ (is_Some (_maskfile s1)
      <-> can_encode os (mask_path (maskdir self) (os_path_splitext name).1) = true).
Proof.
  unfold Pixylation__start__. intros Hs.
  destruct (negb (ensure_directory os (maskdir self))); [discriminate Hs |].
  destruct (negb (ensure_directory os (resultdir self))); [discriminate Hs |].
  destruct (bool_decide _); [discriminate Hs |].
  injection Hs as <-. cbn [with_files _resultfiles _maskfile]. split.
  - intros R. apply open_result_files_dom.
  - destruct (can_encode os _).
    + split; [reflexivity | eauto].
    + split; [intros [w Hw]; discriminate Hw | discriminate].
Qed.

(** X7: a tracking job that ends without an exception leaves, for every
    writable region and for no other, a closed result file at
    <resultdir>/Results_<B>_<R>.csv that holds the header line and then
    exactly one row per frame of the video, numbered from 0 in order, each
    with two values per colour class; and, when the writer could be created,
    a closed mask video at <maskdir>/MASK_<B>.mp4 with one frame per frame of
    the video.  B is the file name without its extension.  Region names are
    distinct, as dict keys are. *)
Theorem tracking_job_writes_one_row_per_frame (os : OS) (path : string)
    (self : Pixylation) (v : Video) :
  video_at os path = Some v ->
  NoDup (ROIs self).*1 ->
  let name := os_path_tail path in
  let B := (os_path_splitext name).1 in
  let r := run_file (H := Pixylation_batch os) os path self in
  let n := length (vframes v) in
  run_raised r = None ->
  (0 < n)%nat
  /\ (forall R, is_Some (_resultfiles (run_state r) !! R)
                <-> exists roi, (R, roi) ∈ ROIs self
                                /\ writable os (resultdir self) B R roi)
  /\ (forall R fp, _resultfiles (run_state r) !! R = Some fp ->
        fclosed fp = true
        /\ fpath fp = os_path_join (resultdir self)
                        ("Results_" +:+ B +:+ "_" +:+ R +:+ ".csv")
        /\ exists rows,
             length rows = n
             /\ Forall (fun vals => length vals = (2 * length (masks self))%nat) rows
             /\ ftext fp = result_header (masks self).*1 +:+ rows_text 0 rows)
  /\ (is_Some (_maskfile (run_state r))
      <-> can_encode os (os_path_join (maskdir self) ("MASK_" +:+ B +:+ ".mp4")) = true)
  /\ (forall w, _maskfile (run_state r) = Some w ->
        wclosed w = true
        /\ wpath w = os_path_join (maskdir self) ("MASK_" +:+ B +:+ ".mp4")
        /\ length (wframes w) = n).
Proof.
  intros Hv Hnd name B r n Hok. subst r. unfold run_file in *. rewrite Hv in *.
  fold name in Hok |- *.
  cbn [__start__ __done__ Pixylation_batch] in Hok |- *.
  destruct (Pixylation__start__ os name self) as [s1 [| e]] eqn:Hs;
    [| discriminate Hok].
  destruct (start_returned os name self s1 Hs) as (Hdom & Hmask). fold B in Hdom, Hmask.
  assert (Hs1 : masks s1 = masks self /\ ROIs s1 = ROIs self
                /\ _resultfiles s1
                   = open_result_files os (resultdir self) B (masks self).*1 (ROIs self) ∅
                /\ forall w, _maskfile s1 = Some w ->
                     w = {| wpath := mask_path (maskdir self) B; wframes := [];
                            wclosed := false |}).
  { unfold Pixylation__start__ in Hs. fold B in Hs.
    destruct (negb (ensure_directory os (maskdir self))); [discriminate Hs |].
    destruct (negb (ensure_directory os (resultdir self))); [discriminate Hs |].
    destruct (bool_decide _); [discriminate Hs |].
    injection Hs as <-. simpl. repeat split.
    intros w Hw. destruct (can_encode os _); [now injection Hw as <- | discriminate Hw]. }
  destruct Hs1 as (Hm1 & HR1 & Hf1 & Hw1).
  unfold iterate in *.
  destruct (feed (H := Pixylation_batch os) (vframes v) 0 s1 [EvOpen path; EvStart name])
    as [[s2 log2] exc] eqn:Hfeed.
  destruct exc as [e |]; [discriminate Hok |].
  destruct (vbroken v); [discriminate Hok |].
  destruct (bool_decide (length (vframes v) = 0%nat)) eqn:Hz; [discriminate Hok |].
  apply bool_decide_eq_false in Hz.
  assert (Hnd1 : NoDup (ROIs s1).*1) by (rewrite HR1; exact Hnd).
  destruct (pixylation_feed_rows os _ _ _ _ _ _ Hnd1 Hfeed)
    as (Im & IR & Inone & Irows & Imn & Imw).
  cbn [run_state Pixylation__done__ fst with_files _resultfiles _maskfile].
  split; [subst n; lia |].
  assert (Hkeys : forall R, is_Some (_resultfiles s2 !! R) <-> is_Some (_resultfiles s1 !! R)).
  { intros R. split.
    - intros Hs2. destruct (_resultfiles s1 !! R) eqn:H1; [eauto |].
      rewrite (Inone R H1) in Hs2. destruct Hs2 as [x Hx]; discriminate Hx.
    - intros [fp Hfp].
      destruct (proj1 (Hdom R) (ex_intro _ fp Hfp)) as (roi & Hin & _).
      rewrite <- HR1 in Hin.
      destruct (Irows R roi fp Hin Hfp) as (fp' & rows & H1 & _). eauto. }
  split.
  { intros R. rewrite lookup_fmap, <- Hdom, <- Hkeys.
    split; intros [x Hx].
    - destruct (_resultfiles s2 !! R); [eauto | discriminate Hx].
    - rewrite Hx. simpl. eauto. }
  split.
  { intros R fp Hfp. rewrite lookup_fmap in Hfp.
    destruct (_resultfiles s2 !! R) as [fp2 |] eqn:Hfp2; [| discriminate Hfp].
    injection Hfp as <-.
    destruct (proj1 (Hkeys R) (ex_intro _ fp2 Hfp2)) as [fp1 Hfp1].
    destruct (proj1 (Hdom R) (ex_intro _ fp1 Hfp1)) as (roi & Hin & Hw).
    pose proof Hfp1 as Hfresh. rewrite Hf1 in Hfresh.
    destruct Hw as [He Ho].
    rewrite (open_result_files_opens os _ _ _ _ ∅ R roi Hin He Ho) in Hfresh.
    injection Hfresh as <-.
    rewrite <- HR1 in Hin.
    destruct (Irows R roi _ Hin Hfp1) as (fp' & rows & H1 & H2 & _ & H4 & H5 & H6).
    rewrite Hfp2 in H1. injection H1 as <-.
    split; [reflexivity |]. split; [exact H2 |].
    exists rows. split; [exact H4 |]. rewrite Hm1 in H5. split; [exact H5 |].
    exact H6. }
  split.
  { rewrite <- Hmask. destruct (_maskfile s1) as [w1 |] eqn:Hmf.
    - destruct (Imw w1 eq_refl) as (w' & H1 & _). rewrite H1. simpl.
      split; eauto.
    - rewrite (Imn eq_refl). simpl. split; intros [x Hx]; discriminate Hx. }
  intros w Hw.
  destruct (_maskfile s2) as [w2 |] eqn:Hw2; [| discriminate Hw].
  injection Hw as <-.
  destruct (_maskfile s1) as [w1 |] eqn:Hmf.
  - destruct (Imw w1 eq_refl) as (w' & H1 & H2 & _ & H4).
    injection H1 as <-.
    rewrite (Hw1 w1 eq_refl) in H2, H4. simpl in H2, H4.
    split; [reflexivity |]. split; [exact H2 | exact H4].
  - pose proof (Imn eq_refl) as Hn. discriminate Hn.
Qed.

Lemma tracking_job_writes_one_row_per_frame_witness :
  let B := (os_path_splitext (os_path_tail "videos/clip.mp4")).1 in
  let r := run_file (H := Pixylation_batch example_os) example_os "videos/clip.mp4"
             example_engine in
  let n := length (vframes {| vframes := [example_frame]; vbroken := false |}) in
  (0 < n)%nat
  /\ (forall R, is_Some (_resultfiles (run_state r) !! R)
                <-> exists roi, (R, roi) ∈ ROIs example_engine
                                /\ writable example_os (resultdir example_engine) B R roi)
  /\ (forall R fp, _resultfiles (run_state r) !! R = Some fp ->
        fclosed fp = true
        /\ fpath fp = os_path_join (resultdir example_engine)
                        ("Results_" +:+ B +:+ "_" +:+ R +:+ ".csv")
        /\ exists rows,
             length rows = n
             /\ Forall (fun vals => length vals
                                    = (2 * length (masks example_engine))%nat) rows
             /\ ftext fp = result_header (masks example_engine).*1 +:+ rows_text 0 rows)
  /\ (is_Some (_maskfile (run_state r))
      <-> can_encode example_os
            (os_path_join (maskdir example_engine) ("MASK_" +:+ B +:+ ".mp4")) = true)
  /\ (forall w, _maskfile (run_state r) = Some w ->
        wclosed w = true
        /\ wpath w = os_path_join (maskdir example_engine) ("MASK_" +:+ B +:+ ".mp4")
        /\ length (wframes w) = n).
Proof.
  apply (tracking_job_writes_one_row_per_frame example_os "videos/clip.mp4"
           example_engine {| vframes := [example_frame]; vbroken := false |}).
  - reflexivity.
  - apply (bool_decide_unpack _). vm_compute; reflexivity.
  - vm_compute; reflexivity.
Defined.

(** ** The mask frame *)

Lemma paint_over_cases (cs : list (string * ColorMask)) (p old : Pixel) :
  paint_over cs p old = old
  \/ exists kc, kc ∈ cs /\ paint_over cs p old = color kc.2.
Proof.
  unfold paint_over. destruct (last _) as [kc |] eqn:Hlast; [| now left].
  right. exists kc. split; [| reflexivity].
  apply last_Some_elem_of, list_elem_of_filter in Hlast as [_ Hin]. exact Hin.
Qed.

Lemma grid_lookup_zeros_like_inv {A B} (z v : B) (a : list (list A)) (q : nat * nat) :
  grid_lookup (zeros_like z a) q = Some v -> v = z.
Proof.
  unfold grid_lookup, zeros_like. intros Hq.
  destruct (replicate (shape a).1 (replicate (shape a).2 z) !! q.1) as [row |] eqn:Hrow;
    [| discriminate Hq].
  simpl in Hq. apply lookup_replicate in Hrow as [-> _].
  apply lookup_replicate in Hq as [-> _]. reflexivity.
Qed.

Lemma covered_inside (frame : list (list Pixel)) (rois : list (string * ROI))
    (files : gmap string TextFile) (q : nat * nat) :
  covered frame rois files q ->
  (q.1 < (shape frame).1)%nat /\ (q.2 < (shape frame).2)%nat.
Proof.
  intros (R & roi & Q & _ & _ & HQ & Hq). unfold region_positions in HQ.
  apply mapM_Some_1 in HQ. apply list_elem_of_lookup in Hq as [k Hk].
  destruct (Forall2_lookup_r _ _ _ _ _ HQ Hk) as (yx & _ & Hpos).
  exact (np_position_lt frame _ _ q Hpos).
Qed.

(** X8: the frame a returning [__update__] pushes to the mask writer has the
    shape of the video frame.  Under a region that has a result file every
    position shows the colour of the last class, in declaration order, whose
    interval holds the hue of the video pixel there, and black when no class
    does; every position under no such region is black.  So each of its
    pixels is black or the colour of a class. *)
Theorem mask_frame_paints_the_regions (i : nat) (frame : list (list Pixel))
    (self self' : Pixylation) (w : VideoWriter) :
  Pixylation__update__ i frame self = (self', Returned) ->
  _maskfile self = Some w ->
  exists M',
    _maskfile self' = Some (with_frame w M')
    /\ shape M' = shape frame
    /\ (forall q, covered frame (ROIs self) (_resultfiles self) q ->
          grid_lookup M' q = Some (paint (masks self) (pixel_at frame q)))
    /\ (forall q, ~ covered frame (ROIs self) (_resultfiles self) q ->
          (q.1 < (shape frame).1)%nat -> (q.2 < (shape frame).2)%nat ->
          grid_lookup M' q = Some black)
    /\ (forall q px, grid_lookup M' q = Some px ->
          px = black \/ exists kc, kc ∈ masks self /\ px = color kc.2).
Proof.
  intros Hup Hw.
  apply Pixylation__update__Returned in Hup as (M' & Hscan & _ & _ & Hmf).
  destruct (scan_ROIs_marks _ _ _ _ _ _ _ _ (shape_zeros_like black frame) Hscan)
    as (Hshape & Heither & Hcov & Hout).
  exists M'. rewrite Hmf, Hw. split; [reflexivity |]. split; [exact Hshape |].
  split; [| split].
  - intros q Hq. rewrite (Hcov q Hq).
    destruct (covered_inside _ _ _ _ Hq) as [H1 H2].
    now rewrite (grid_lookup_zeros_like black frame q H1 H2).
  - intros q Hq H1 H2. rewrite (Hout q Hq).
    exact (grid_lookup_zeros_like black frame q H1 H2).
  - intros q px Hpx. destruct (Heither q) as [Hsame | Hpaint].
    + left. rewrite Hsame in Hpx. exact (grid_lookup_zeros_like_inv _ _ _ _ Hpx).
    + rewrite Hpaint in Hpx.
      destruct (grid_lookup (zeros_like black frame) q) as [old |] eqn:Hold;
        [| discriminate Hpx].
      apply grid_lookup_zeros_like_inv in Hold as ->.
      simpl in Hpx. injection Hpx as <-.
      destruct (paint_over_cases (masks self) (pixel_at frame q) black)
        as [-> | (kc & Hin & ->)]; [now left | right; now exists kc].
Qed.

Lemma mask_frame_paints_the_regions_witness :
  let w := {| wpath := "out/MASK_clip.mp4"; wframes := []; wclosed := false |} in
  exists M',
    _maskfile example_updated = Some (with_frame w M')
    /\ shape M' = shape example_frame
    /\ (forall q, covered example_frame (ROIs example_started)
                    (_resultfiles example_started) q ->
          grid_lookup M' q
          = Some (paint (masks example_started) (pixel_at example_frame q)))
    /\ (forall q, ~ covered example_frame (ROIs example_started)
                      (_resultfiles example_started) q ->
          (q.1 < (shape example_frame).1)%nat -> (q.2 < (shape example_frame).2)%nat ->
          grid_lookup M' q = Some black)
    /\ (forall q px, grid_lookup M' q = Some px ->
          px = black \/ exists kc, kc ∈ masks example_started /\ px = color kc.2).
Proof.
  intros w.
  apply (mask_frame_paints_the_regions 0 example_frame example_started example_updated w).
  - vm_compute; reflexivity.
  - vm_compute; reflexivity.
Defined.

(** ** Regions and the bounds of the frame ([ROI.crop], [ROI.mark]) *)

Lemma np_index_is_Some (n : nat) (i : Z) :
  is_Some (np_index n i) <-> - Z.of_nat n <= i < Z.of_nat n.
Proof.
  unfold np_index. destruct (decide (0 <= i < Z.of_nat n)) as [H1 | H1].
  - split; [lia | eauto].
  - destruct (decide (- Z.of_nat n <= i < 0)) as [H2 | H2].
    + split; [lia | eauto].
    + split; [intros [k Hk]; discriminate Hk | lia].
Qed.

Lemma np_index_mod (n : nat) (i : Z) (k : nat) :
  np_index n i = Some k -> np_index n (i mod Z.of_nat n) = Some k.
Proof.
  unfold np_index. destruct (decide (0 <= i < Z.of_nat n)) as [H1 | H1].
  - intros Hk. rewrite Z.mod_small by lia. now rewrite decide_True by lia.
  - destruct (decide (- Z.of_nat n <= i < 0)) as [H2 | H2]; [| discriminate].
    intros Hk. injection Hk as <-.
    assert (Hmod : i mod Z.of_nat n = Z.of_nat n + i).
    { symmetry. apply (Z.mod_unique_pos _ _ (-1)); lia. }
    rewrite Hmod. now rewrite decide_True by lia.
Qed.

Lemma getitem2_is_Some (frame : list (list Pixel)) (y x : Z) :
  rectangular frame ->
  is_Some (getitem2 frame y x)
  <-> - Z.of_nat (shape frame).2 <= x < Z.of_nat (shape frame).2
      /\ - Z.of_nat (shape frame).1 <= y < Z.of_nat (shape frame).1.
Proof.
  intros Hrect. rewrite <- !np_index_is_Some. unfold getitem2, np_position.
  split.
  - intros [p Hp].
    destruct (np_index (shape frame).1 y) as [i |]; [| discriminate Hp].
    destruct (np_index (shape frame).2 x) as [j |]; [| discriminate Hp].
    split; eauto.
  - intros [[j Hj] [i Hi]]. rewrite Hi, Hj.
    apply np_index_lt in Hi, Hj.
    change (is_Some (grid_lookup frame (i, j))). unfold grid_lookup.
    destruct (lookup_lt_is_Some_2 frame i Hi) as [row Hrow].
    cbn [fst snd]. rewrite Hrow.
    change (is_Some (row !! j)). apply lookup_lt_is_Some_2.
    rewrite (proj1 (Forall_lookup _ _) Hrect i row Hrow). exact Hj.
Qed.

Lemma ROI_crop_is_Some (roi : ROI) (frame : list (list Pixel)) :
  rectangular frame -> is_Some (ROI_crop roi frame) <-> inside roi frame.
Proof.
  intros Hrect. unfold ROI_crop, take_points, inside.
  rewrite mapM_is_Some, Forall_lookup. split.
  - intros Hall k x y Hx Hy.
    apply (getitem2_is_Some frame y x Hrect).
    apply (Hall k (y, x)). apply lookup_zip_with_Some. now exists y, x.
  - intros Hall k [y x] Hk.
    apply lookup_zip_with_Some in Hk as (y' & x' & Heq & Hy & Hx).
    injection Heq as -> ->.
    apply (getitem2_is_Some frame y' x' Hrect). exact (Hall k x' y' Hx Hy).
Qed.

(** The loop over the regions goes through when every region that has a
    file fits the frame and its file is open. *)
Lemma scan_ROIs_Ok (i : nat) (frame : list (list Pixel))
    (colors : list (string * ColorMask)) (todo : list (string * ROI))
    (files : gmap string TextFile) (M : list (list Pixel)) :
  shape M = shape frame -> NoDup todo.*1 ->
  (forall R roi fp, (R, roi) ∈ todo -> files !! R = Some fp ->
     fclosed fp = false /\ is_Some (ROI_crop roi frame)) ->
  exists files' M', scan_ROIs i frame colors todo files M = (files', Ok M').
Proof.
  revert files M. induction todo as [| [R0 roi0] rest IH]; intros files M Hshape Hnd Hall.
  - now exists files, M.
  - apply NoDup_cons in Hnd as [Hfresh Hnd]. cbn [scan_ROIs].
    assert (Hrest : forall files0 : gmap string TextFile,
              (forall R, R <> R0 -> files0 !! R = files !! R) ->
              forall R roi fp, (R, roi) ∈ rest -> files0 !! R = Some fp ->
                fclosed fp = false /\ is_Some (ROI_crop roi frame)).
    { intros files0 Hsame R roi fp Hin Hfp.
      assert (Hne : R <> R0).
      { intros ->. apply Hfresh. apply list_elem_of_fmap. now exists (R0, roi). }
      rewrite (Hsame R Hne) in Hfp.
      apply (Hall R roi fp); [now apply list_elem_of_further | exact Hfp]. }
    destruct (files !! R0) as [fp0 |] eqn:Hfp0.
    + destruct (Hall R0 roi0 fp0 (list_elem_of_here _ _) Hfp0) as [Hopen [pixels Hcrop]].
      destruct (roi_update_is_Some roi0 colors frame M pixels Hshape Hcrop)
        as [[values M1] Hup].
      rewrite Hup.
      destruct (roi_update_spec _ _ _ _ _ _ Hshape Hup) as (_ & _ & _ & _ & _ & Hshape1 & _).
      unfold file_write. rewrite Hopen.
      apply IH; [exact Hshape1 | exact Hnd |].
      apply Hrest. intros R Hne. now rewrite lookup_insert_ne.
    + apply IH; [exact Hshape | exact Hnd |]. now apply Hrest.
Qed.

(** X9: [__update__] returns exactly when every region that has a result file
    fits the frame, every coordinate being a valid index, negative ones
    included, the file is open, and the mask writer, if there is one, is
    open.  A region that sticks out of the frame therefore stops the job at
    the first frame ([IndexError]); it is not clipped.  Region names are
    distinct and the rows of the frame have one length. *)
Theorem update_returns_iff_regions_fit (i : nat) (frame : list (list Pixel))
    (self : Pixylation) :
  NoDup (ROIs self).*1 -> rectangular frame ->
  (Pixylation__update__ i frame self).2 = Returned
  <-> (forall R roi fp, (R, roi) ∈ ROIs self -> _resultfiles self !! R = Some fp ->
         fclosed fp = false /\ inside roi frame)
      /\ (forall w, _maskfile self = Some w -> wclosed w = false).
Proof.
  intros Hnd Hrect. split.
  - intros Hret.
    destruct (Pixylation__update__ i frame self) as [self' o] eqn:Hup.
    simpl in Hret. subst o. pose proof Hup as Hup'.
    apply Pixylation__update__Returned in Hup' as (M' & Hscan & _).
    destruct (scan_ROIs_rows _ _ _ _ _ _ _ _ Hnd Hscan) as (_ & _ & Hrows).
    split.
    + intros R roi fp Hin Hfp.
      destruct (Hrows R roi fp Hin Hfp) as (pixels & Hcrop & Hopen & _).
      split; [exact Hopen |]. apply (ROI_crop_is_Some roi frame Hrect). eauto.
    + intros w Hw. unfold Pixylation__update__ in Hup. rewrite Hscan, Hw in Hup.
      unfold writeFrame in Hup. destruct (wclosed w); [discriminate Hup | reflexivity].
  - intros [Hfiles Hwriter]. unfold Pixylation__update__.
    destruct (scan_ROIs_Ok i frame (masks self) (ROIs self) (_resultfiles self)
                (zeros_like black frame) (shape_zeros_like black frame) Hnd)
      as (files' & M' & Hscan).
    { intros R roi fp Hin Hfp. destruct (Hfiles R roi fp Hin Hfp) as [Hopen Hins].
      split; [exact Hopen |]. now apply (ROI_crop_is_Some roi frame Hrect). }
    rewrite Hscan. destruct (_maskfile self) as [w |] eqn:Hw; [| reflexivity].
    unfold writeFrame. now rewrite (Hwriter w eq_refl).
Qed.

Lemma update_returns_iff_regions_fit_witness :
  (Pixylation__update__ 0 example_frame example_started).2 = Returned
  <-> (forall R roi fp, (R, roi) ∈ ROIs example_started ->
         _resultfiles example_started !! R = Some fp ->
         fclosed fp = false /\ inside roi example_frame)
      /\ (forall w, _maskfile example_started = Some w -> wclosed w = false).
Proof.
  apply (update_returns_iff_regions_fit 0 example_frame example_started).
  - apply (bool_decide_unpack _). vm_compute; reflexivity.
  - repeat constructor.
Defined.

Lemma getitem2_mod (frame : list (list Pixel)) (y x : Z) (p : Pixel) :
  getitem2 frame y x = Some p ->
  getitem2 frame (y mod Z.of_nat (shape frame).1) (x mod Z.of_nat (shape frame).2)
  = Some p.
Proof.
  unfold getitem2, np_position. intros Hp.
  destruct (np_index (shape frame).1 y) as [i |] eqn:Hi; [| discriminate Hp].
  destruct (np_index (shape frame).2 x) as [j |] eqn:Hj; [| discriminate Hp].
  rewrite (np_index_mod _ _ _ Hi), (np_index_mod _ _ _ Hj). exact Hp.
Qed.

(** X10: negative coordinates are not an error: [frame[ypos, xpos]] counts them
    from the far edge, so a region reads the very pixels of the region whose
    coordinates are reduced modulo the frame size. *)
Theorem crop_wraps_negative_coordinates (roi : ROI) (frame : list (list Pixel))
    (pixels : list Pixel) :
  ROI_crop roi frame = Some pixels ->
  ROI_crop (wrapped roi frame) frame = Some pixels.
Proof.
  unfold ROI_crop, take_points, wrapped. cbn [xpos ypos]. intros Hcrop.
  apply mapM_Some_1 in Hcrop. apply mapM_Some_2.
  revert Hcrop. generalize (xpos roi) (ypos roi). intros xs ys. revert xs pixels.
  induction ys as [| y ys IH]; intros xs pixels Hcrop.
  - exact Hcrop.
  - destruct xs as [| x xs]; [exact Hcrop |].
    csimpl in *. inversion Hcrop as [| ? p ? ps Hp Hps]; subst.
    constructor; [| now apply IH].
    exact (getitem2_mod frame y x p Hp).
Qed.

Lemma crop_wraps_negative_coordinates_witness :
  ROI_crop (wrapped (RectangularROI (rect_specs (-1) (-2) 1 2)) example_frame)
    example_frame
  = Some [RGB 0 0 0; RGB 0 0 255].
Proof.
  apply (crop_wraps_negative_coordinates (RectangularROI (rect_specs (-1) (-2) 1 2))
           example_frame [RGB 0 0 0; RGB 0 0 255]).
  vm_compute; reflexivity.
Defined.

(** ** Mask regions ([MaskROI]) *)

(** The hits of one row of a boolean array, columns counted from [j0]. *)
Lemma row_hits_spec (i j0 : nat) (row : list bool) :
  let hits := omap (fun jm : nat * bool => if jm.2 then Some (i, jm.1) else None)
                   (imap (fun j m => ((j0 + j)%nat, m)) row) in
  (forall p, p ∈ hits <-> p.1 = i /\ exists j, p.2 = (j0 + j)%nat /\ row !! j = Some true)
  /\ NoDup hits.
Proof.
  revert j0. induction row as [| m row IH]; intros j0 hits; subst hits.
  - split; [| constructor]. intros p. split; [intros H; inversion H |].
    intros [_ (j & _ & Hj)]. discriminate Hj.
  - rewrite imap_cons. 
    assert (Hshift : imap ((fun j m0 => ((j0 + j)%nat, m0)) ∘ S) row
                     = imap (fun j (m0 : bool) => ((S j0 + j)%nat, m0)) row).
    { apply imap_ext. intros j m0 _. simpl. f_equal. lia. }
    rewrite Hshift. destruct (IH (S j0)) as [IHin IHnd].
    assert (Htail : forall p,
              (p.1 = i /\ exists j, p.2 = (j0 + S j)%nat /\ row !! j = Some true)
              <-> (p.1 = i /\ exists j, p.2 = (S j0 + j)%nat /\ row !! j = Some true)).
    { intros p. split; intros [H1 (j & H2 & H3)]; (split; [exact H1 |]); exists j;
        (split; [lia | exact H3]). }
    destruct m; csimpl.
    + rewrite Nat.add_0_r. split.
      * intros p. rewrite elem_of_cons, IHin, <- Htail. split.
        -- intros [-> | [H1 (j & H2 & H3)]].
           ++ split; [reflexivity |]. exists 0%nat. split; [simpl; lia | reflexivity].
           ++ split; [exact H1 |]. exists (S j). now split.
        -- intros [H1 ([| j] & H2 & H3)].
           ++ left. destruct p as [a b]; simpl in *. f_equal; lia.
           ++ right. split; [exact H1 |]. exists j. now split.
      * constructor; [| exact IHnd]. rewrite IHin. intros [_ (j & H2 & _)].
        simpl in H2. lia.
    + split; [| exact IHnd].
      intros p. rewrite IHin, <- Htail. split.
      * intros [H1 (j & H2 & H3)]. split; [exact H1 |]. exists (S j). now split.
      * intros [H1 ([| j] & H2 & H3)]; [discriminate H3 |].
        split; [exact H1 |]. exists j. now split.
Qed.

Lemma omap_ext_all {A B} (f g : A -> option B) (l : list A) :
  (forall a, f a = g a) -> omap f l = omap g l.
Proof.
  intros Hfg. induction l as [| a l IH]; [reflexivity |].
  csimpl. now rewrite Hfg, IH.
Qed.

(** The hits of a boolean array, rows counted from [i0]. *)
Lemma hits_spec (i0 : nat) (mask : list (list bool)) :
  let hits :=
    concat (imap (fun i row =>
      omap (fun jm : nat * bool => if jm.2 then Some ((i0 + i)%nat, jm.1) else None)
           (imap (fun j m => (j, m)) row)) mask) in
  (forall p, p ∈ hits
             <-> exists i row, p.1 = (i0 + i)%nat /\ mask !! i = Some row
                               /\ row !! p.2 = Some true)
  /\ NoDup hits.
Proof.
  revert i0. induction mask as [| row mask IH]; intros i0 hits; subst hits.
  - split; [| constructor]. intros p. split; [intros H; inversion H |].
    intros (i & r & _ & Hr & _). discriminate Hr.
  - rewrite imap_cons. cbn [concat].
    assert (Hshift :
      imap ((fun i r =>
               omap (fun jm : nat * bool =>
                       if jm.2 then Some ((i0 + i)%nat, jm.1) else None)
                    (imap (fun j m => (j, m)) r)) ∘ S) mask
      = imap (fun i (r : list bool) =>
                omap (fun jm : nat * bool =>
                        if jm.2 then Some ((S i0 + i)%nat, jm.1) else None)
                     (imap (fun j m => (j, m)) r)) mask).
    { apply imap_ext. intros i r _. simpl. apply omap_ext_all.
      intros jm. destruct jm.2; [| reflexivity]. do 2 f_equal. lia. }
    rewrite Hshift. destruct (IH (S i0)) as [IHin IHnd].
    destruct (row_hits_spec (i0 + 0) 0 row) as [Rin Rnd].
    assert (Hrow : imap (fun j (m : bool) => ((0 + j)%nat, m)) row
                   = imap (fun j m => (j, m)) row) by reflexivity.
    rewrite Hrow in Rin, Rnd.
    split.
    + intros p. rewrite elem_of_app, IHin, Rin. split.
      * intros [[H1 (j & H2 & H3)] | (i & r & H1 & H2 & H3)].
        -- exists 0%nat, row. simpl in H2. subst j. now repeat split.
        -- exists (S i), r. split; [lia |]. now split.
      * intros ([| i] & r & H1 & H2 & H3).
        -- left. injection H2 as <-. split; [exact H1 |]. exists p.2. now split.
        -- right. exists i, r. split; [lia |]. now split.
    + apply NoDup_app. split; [exact Rnd |]. split; [| exact IHnd].
      intros p Hp Hq. apply Rin in Hp as [H1 _].
      apply IHin in Hq as (i & _ & H2 & _). lia.
Qed.

Lemma MaskROI_coordinates (image : list (list Z)) :
  exists hits : list (nat * nat),
    ROI_coordinates (MaskROI image)
    = (fun p : nat * nat => (Z.of_nat p.2, Z.of_nat p.1)) <$> hits
    /\ NoDup hits
    /\ forall p, p ∈ hits
                 <-> exists row v, image !! p.1 = Some row /\ row !! p.2 = Some v
                                   /\ v <> 0.
Proof.
  set (mask := (fun row : list Z => (fun v : Z => negb (v =? 0)) <$> row) <$> image).
  destruct (hits_spec 0 mask) as [Hin Hnd]. cbv zeta in Hin, Hnd.
  eexists. split; [| split; [exact Hnd |]].
  - unfold ROI_coordinates, MaskROI, np_where. fold mask. cbn [xpos ypos].
    rewrite zip_fmap_diag. reflexivity.
  - intros p. rewrite Hin. split.
    + intros (i & brow & H1 & H2 & H3). simpl in H1. subst i.
      subst mask. rewrite list_lookup_fmap in H2.
      destruct (image !! p.1) as [row |] eqn:Hrow; [| discriminate H2].
      injection H2 as <-. rewrite list_lookup_fmap in H3.
      destruct (row !! p.2) as [v |] eqn:Hv; [| discriminate H3].
      injection H3 as H3. exists row, v.
      split; [reflexivity |]. split; [exact Hv |].
      intros ->. discriminate H3.
    + intros (row & v & H1 & H2 & H3). exists p.1, ((fun v : Z => negb (v =? 0)) <$> row).
      split; [reflexivity |]. subst mask. rewrite !list_lookup_fmap, H1, H2. simpl.
      split; [reflexivity |]. do 2 f_equal. apply negb_true_iff, Z.eqb_neq, H3.
Qed.

Lemma MaskROI_coordinates_elem (image : list (list Z)) (x y : Z) :
  (x, y) ∈ ROI_coordinates (MaskROI image)
  <-> 0 <= x /\ 0 <= y
      /\ exists row v, image !! Z.to_nat y = Some row
                       /\ row !! Z.to_nat x = Some v /\ v <> 0.
Proof.
  destruct (MaskROI_coordinates image) as (hits & -> & Hnd & Hin).
  rewrite list_elem_of_fmap. split.
  - intros (p & Heq & Hp). injection Heq as -> ->.
    split; [lia |]. split; [lia |]. rewrite !Nat2Z.id. now apply Hin.
  - intros (Hx & Hy & Hex). exists (Z.to_nat y, Z.to_nat x). split.
    + simpl. f_equal; lia.
    + apply Hin. exact Hex.
Qed.

(** X11: the coordinates of a mask region are the positions of the non-zero
    pixels of its image, each of them once: x is the column, y the row. *)
Theorem mask_region_is_the_nonzero_pixels (image : list (list Z)) :
  NoDup (ROI_coordinates (MaskROI image))
  /\ forall x y : Z,
       (x, y) ∈ ROI_coordinates (MaskROI image)
       <-> 0 <= x /\ 0 <= y
           /\ exists row v, image !! Z.to_nat y = Some row
                            /\ row !! Z.to_nat x = Some v /\ v <> 0.
Proof.
  split; [| apply MaskROI_coordinates_elem].
  destruct (MaskROI_coordinates image) as (hits & -> & Hnd & Hin).
  apply NoDup_fmap_2; [| exact Hnd].
  intros [a b] [c d] Heq. simpl in Heq. injection Heq as H1 H2. f_equal; lia.
Qed.

(** X12: a mask region whose image has the shape of the frame never fails to
    crop: [frame[ypos, xpos]] raises no [IndexError]. *)
Theorem mask_region_of_frame_shape_crops (image : list (list Z))
    (frame : list (list Pixel)) :
  rectangular image -> rectangular frame -> shape image = shape frame ->
  exists pixels,
    ROI_crop (MaskROI image) frame = Some pixels
    /\ length pixels = length (ROI_coordinates (MaskROI image)).
Proof.
  intros Himg Hrect Hshape.
  assert (Hins : inside (MaskROI image) frame).
  { intros k x y Hx Hy.
    assert (Hxy : (x, y) ∈ ROI_coordinates (MaskROI image)).
    { apply list_elem_of_lookup. exists k. unfold ROI_coordinates.
      apply lookup_zip_with_Some. now exists x, y. }
    apply MaskROI_coordinates_elem in Hxy
      as (H0x & H0y & row & v & Hrow & Hv & _).
    pose proof (lookup_lt_Some _ _ _ Hrow) as Hi.
    pose proof (lookup_lt_Some _ _ _ Hv) as Hj.
    rewrite (proj1 (Forall_lookup _ _) Himg _ row Hrow) in Hj.
    rewrite <- Hshape. change (shape image).1 with (length image). lia. }
  apply (ROI_crop_is_Some _ frame Hrect) in Hins as [pixels Hcrop].
  exists pixels. split; [exact Hcrop |].
  rewrite (take_points_length frame _ _ pixels Hcrop).
  unfold ROI_coordinates. rewrite !length_zip_with.  lia.
Qed.

Lemma mask_region_of_frame_shape_crops_witness :
  exists pixels,
    ROI_crop (MaskROI [[0; 255; 0]; [0; 0; 1]]) example_frame = Some pixels
    /\ length pixels = length (ROI_coordinates (MaskROI [[0; 255; 0]; [0; 0; 1]])).
Proof.
  apply (mask_region_of_frame_shape_crops [[0; 255; 0]; [0; 0; 1]] example_frame).
  - repeat constructor.
  - repeat constructor.
  - reflexivity.
Defined.

(** ** A rectangle that sticks out of the frame *)

Lemma elem_of_window_indexed (r0 r1 c0 c1 : nat) (frame : list (list Pixel))
    (t : located) :
  t ∈ concat (window r0 r1 c0 c1 (indexed frame))
  <-> exists i j row,
        frame !! i = Some row /\ row !! j = Some (loc_pixel t)
        /\ loc_x t = Z.of_nat j /\ loc_y t = Z.of_nat i
        /\ (r0 <= i < r1)%nat /\ (c0 <= j < c1)%nat.
Proof.
  rewrite window_indexed, elem_of_concat. unfold window. split.
  - intros (irow & Ht & Hirow).
    apply elem_of_lookup_imap in Hirow as (i' & row' & -> & Hrow').
    apply elem_of_lookup_imap in Ht as (j' & p & -> & Hp).
    rewrite list_lookup_fmap in Hrow'.
    destruct (take (r1 - r0) (drop r0 frame) !! i') as [row |] eqn:Hrow;
      [| discriminate Hrow'].
    injection Hrow' as <-.
    apply lookup_take_Some in Hrow as [Hrow Hi]. rewrite lookup_drop in Hrow.
    apply lookup_take_Some in Hp as [Hp Hj]. rewrite lookup_drop in Hp.
    exists (r0 + i')%nat, (c0 + j')%nat, row.
    unfold loc_x, loc_y, loc_pixel; simpl. repeat split; try assumption; lia.
  - intros (i & j & row & Hrow & Hp & Hx & Hy & Hi & Hj).
    exists (imap (fun j' p => (Z.of_nat (c0 + j'), Z.of_nat (r0 + (i - r0)), p))
              (take (c1 - c0) (drop c0 row))).
    split.
    + apply elem_of_lookup_imap. exists (j - c0)%nat, (loc_pixel t). split.
      * destruct t as [[a b] p]. unfold loc_x, loc_y, loc_pixel in *; simpl in *.
        subst a b. do 2 f_equal; f_equal; lia.
      * apply lookup_take_Some. split; [| lia]. rewrite lookup_drop.
        replace (c0 + (j - c0))%nat with j by lia. exact Hp.
    + apply elem_of_lookup_imap.
      exists (i - r0)%nat, (take (c1 - c0) (drop c0 row)). split; [reflexivity |].
      rewrite list_lookup_fmap.
      assert (Hl : take (r1 - r0) (drop r0 frame) !! (i - r0)%nat = Some row).
      { apply lookup_take_Some. split; [| lia]. rewrite lookup_drop.
        replace (r0 + (i - r0))%nat with i by lia. exact Hrow. }
      now rewrite Hl.
Qed.

Lemma np_index_nonneg (n : nat) (i : Z) (k : nat) :
  0 <= i -> np_index n i = Some k <-> k = Z.to_nat i /\ i < Z.of_nat n.
Proof.
  intros Hi. unfold np_index.
  destruct (decide (0 <= i < Z.of_nat n)) as [H1 | H1].
  - split; [intros H; injection H as <-; split; [reflexivity | lia] | intros [-> _]; reflexivity].
  - destruct (decide (- Z.of_nat n <= i < 0)) as [H2 | H2]; [lia |].
    split; [discriminate | lia].
Qed.

Lemma getitem2_nonneg (frame : list (list Pixel)) (y x : Z) (p : Pixel) :
  rectangular frame -> 0 <= x -> 0 <= y ->
  getitem2 frame y x = Some p
  <-> exists row, frame !! Z.to_nat y = Some row /\ row !! Z.to_nat x = Some p.
Proof.
  intros Hrect Hx Hy. unfold getitem2, np_position. split.
  - intros Hp.
    destruct (np_index (shape frame).1 y) as [i |] eqn:Hi; [| discriminate Hp].
    destruct (np_index (shape frame).2 x) as [j |] eqn:Hj; [| discriminate Hp].
    apply np_index_nonneg in Hi as [-> _]; [| exact Hy].
    apply np_index_nonneg in Hj as [-> _]; [| exact Hx].
    change (grid_lookup frame (Z.to_nat y, Z.to_nat x) = Some p) in Hp.
    unfold grid_lookup in Hp. cbn [fst snd] in Hp.
    destruct (frame !! Z.to_nat y) as [row |]; [| discriminate Hp]. eauto.
  - intros (row & Hrow & Hp).
    pose proof (lookup_lt_Some _ _ _ Hrow) as Hi.
    pose proof (lookup_lt_Some _ _ _ Hp) as Hj.
    rewrite (proj1 (Forall_lookup _ _) Hrect _ row Hrow) in Hj.
    change (length frame) with (shape frame).1 in Hi.
    rewrite (proj2 (np_index_nonneg (shape frame).1 y (Z.to_nat y) Hy)) by (split; [reflexivity | lia]).
    rewrite (proj2 (np_index_nonneg (shape frame).2 x (Z.to_nat x) Hx)) by (split; [reflexivity | lia]).
    change (grid_lookup frame (Z.to_nat y, Z.to_nat x) = Some p).
    unfold grid_lookup. cbn [fst snd]. now rewrite Hrow.
Qed.

Lemma slice_bound_nonneg (n : nat) (k : Z) :
  0 <= k -> slice_bound n k = Z.to_nat (Z.min k (Z.of_nat n)).
Proof. intros Hk. unfold slice_bound. now rewrite decide_False by lia. Qed.

(** X13: the single-module variant never raises on a rectangle with a
    non-negative corner, wherever it lies: the four slice assignments of
    [ROI.apply] clip it to the frame, and the row is taken over the pixels
    of the frame inside the rectangle.  The package does not clip: for a
    rectangle with at least one pixel that reaches beyond the right or the
    bottom edge its crop raises [IndexError], so the region yields no row. *)
Theorem legacy_clips_where_package_raises (_hsv : colormap) (x y w h : Z)
    (frame M Ml : list (list Pixel)) (colors : list (string * ColorMask)) :
  rectangular frame -> NoDup colors.*1 ->
  0 <= x -> 0 <= y -> 0 <= w -> 0 <= h ->
  let lroi := {| Legacy.x := x; Legacy.y := y; Legacy.w := w; Legacy.h := h |} in
  let region := legacy_region_pixels lroi frame in
  (exists Ml',
     Legacy.roi_update _hsv lroi (legacy_colors colors) (legacy_colors colors).*1 frame
       (Legacy.frame_grids frame).1 (Legacy.frame_grids frame).2 Ml
     = Ok (spec_values (intervals colors) region, Ml'))
  /\ (forall t, t ∈ region
                <-> x <= loc_x t < x + w /\ y <= loc_y t < y + h
                    /\ getitem2 frame (loc_y t) (loc_x t) = Some (loc_pixel t))
  /\ (0 < w -> 0 < h ->
      Z.of_nat (shape frame).2 < x + w \/ Z.of_nat (shape frame).1 < y + h ->
      roi_update (RectangularROI (rect_specs x y w h)) colors frame M = None).
Proof.
  intros Hrect Hnd Hx Hy Hw Hh lroi region. split; [| split].
  - destruct (legacy_roi_update_spec _hsv lroi frame (legacy_colors colors) Ml Hrect)
      as [Ml' Hleg]; [now rewrite legacy_colors_names |].
    rewrite legacy_colors_intervals in Hleg. now exists Ml'.
  - intros t. subst region lroi. unfold legacy_region_pixels.
    cbn [Legacy.x Legacy.y Legacy.w Legacy.h].
    rewrite !slice_bound_nonneg by lia. rewrite elem_of_window_indexed. split.
    + intros (i & j & row & Hrow & Hp & Hlx & Hly & Hi & Hj).
      pose proof (lookup_lt_Some _ _ _ Hrow) as Hil.
      split; [lia |]. split; [lia |].
      apply (getitem2_nonneg frame _ _ _ Hrect); [lia | lia |].
      exists row. rewrite Hlx, Hly, !Nat2Z.id. now split.
    + intros (Hlx & Hly & Hget).
      apply (getitem2_nonneg frame _ _ _ Hrect) in Hget as (row & Hrow & Hp); [| lia | lia].
      pose proof (lookup_lt_Some _ _ _ Hrow) as Hil.
      pose proof (lookup_lt_Some _ _ _ Hp) as Hjl.
      rewrite (proj1 (Forall_lookup _ _) Hrect _ row Hrow) in Hjl.
      change (length frame) with (shape frame).1 in Hil.
      exists (Z.to_nat (loc_y t)), (Z.to_nat (loc_x t)), row.
      repeat split; try assumption; lia.
  - intros Hw0 Hh0 Hout.
    assert (Hnone : ROI_crop (RectangularROI (rect_specs x y w h)) frame = None).
    { destruct (ROI_crop _ frame) as [pixels |] eqn:Hcrop; [| reflexivity].
      exfalso.
      assert (Hins : inside (RectangularROI (rect_specs x y w h)) frame)
        by (apply (ROI_crop_is_Some _ frame Hrect); eauto).
      assert (Hcorner : (x + w - 1, y + h - 1)
                        ∈ ROI_coordinates (RectangularROI (rect_specs x y w h))).
      { rewrite RectangularROI_coordinates. apply grid_pairs_elem.
        unfold arange. rewrite !elem_of_seqZ. lia. }
      apply list_elem_of_lookup in Hcorner as [k Hk].
      unfold ROI_coordinates in Hk.
      apply lookup_zip_with_Some in Hk as (x' & y' & Heq & Hx' & Hy').
      injection Heq as <- <-.
      destruct (Hins k _ _ Hx' Hy') as [H1 H2]. lia. }
    unfold roi_update. now rewrite Hnone.
Qed.

Lemma legacy_clips_where_package_raises_witness :
  let lroi := {| Legacy.x := 2; Legacy.y := 1; Legacy.w := 2; Legacy.h := 2 |} in
  let region := legacy_region_pixels lroi example_frame in
  (exists Ml',
     Legacy.roi_update example_hsv lroi (legacy_colors example_colors)
       (legacy_colors example_colors).*1 example_frame
       (Legacy.frame_grids example_frame).1 (Legacy.frame_grids example_frame).2
       (zeros_like black example_frame)
     = Ok (spec_values (intervals example_colors) region, Ml'))
  /\ (forall t, t ∈ region
                <-> 2 <= loc_x t < 2 + 2 /\ 1 <= loc_y t < 1 + 2
                    /\ getitem2 example_frame (loc_y t) (loc_x t) = Some (loc_pixel t))
  /\ (0 < 2 -> 0 < 2 ->
      Z.of_nat (shape example_frame).2 < 2 + 2
      \/ Z.of_nat (shape example_frame).1 < 1 + 2 ->
      roi_update (RectangularROI (rect_specs 2 1 2 2)) example_colors example_frame
        (zeros_like black example_frame) = None).
Proof.
  apply (legacy_clips_where_package_raises example_hsv 2 1 2 2 example_frame
           (zeros_like black example_frame) (zeros_like black example_frame)
           example_colors).
  - repeat constructor.
  - apply (bool_decide_unpack _). vm_compute; reflexivity.
  - lia.
  - lia.
  - lia.
  - lia.
Defined.

(** ** Colour classes ([ColorMask]) *)

Lemma hue_in_empty_interval (on off : Qc) (h : Z) :
  (off <= on)%Qc -> hue_in on off h = false.
Proof.
  intros Hle. unfold hue_in.
  destruct (bool_decide (on <= Qc_of_Z h)%Qc) eqn:H1; [| reflexivity].
  apply bool_decide_eq_true in H1. simpl. apply bool_decide_eq_false.
  intros H2. apply (Qclt_not_le _ _ H2). eapply Qcle_trans; eassumption.
Qed.

Lemma matched_pixels_empty_interval (on off : Qc) (region : list located) :
  (off <= on)%Qc -> matched_pixels on off region = [].
Proof.
  intros Hle. unfold matched_pixels. induction region as [| t l IH]; [reflexivity |].
  rewrite filter_cons_False; [exact IH |].
  rewrite (hue_in_empty_interval _ _ _ Hle). discriminate.
Qed.

(** X14: a class whose interval is empty, its end not above its start, matches no
    pixel: a hue range written across 0, such as 350 to 10 for red, tracks
    nothing.  Its two columns hold NaN in every row of every region. *)
Theorem class_with_empty_interval_reports_NaN
    (i : nat) (frame : list (list Pixel)) (self self' : Pixylation)
    (R : string) (roi : ROI) (fp : TextFile) (j : nat) (name : string) (c : ColorMask) :
  Pixylation__update__ i frame self = (self', Returned) ->
  NoDup (ROIs self).*1 ->
  (R, roi) ∈ ROIs self -> _resultfiles self !! R = Some fp ->
  masks self !! j = Some (name, c) ->
  (offset c <= onset c)%Qc ->
  (forall hues, count_nonzero (ColorMask_apply c hues) = 0%nat)
  /\ exists values,
       _resultfiles self' !! R = Some (with_row fp (result_row i values))
       /\ values !! (2 * j)%nat = Some NaN
       /\ values !! (2 * j + 1)%nat = Some NaN.
Proof.
  intros Hup Hnd Hin Hfp Hj Hle. split.
  - intros hues. unfold ColorMask_apply, count_nonzero.
    induction hues as [| hh hues IH]; [reflexivity |].
    csimpl. rewrite (hue_in_empty_interval _ _ hh Hle).
    rewrite filter_cons_False by discriminate. exact IH.
  - pose proof Hup as Hup'.
    apply Pixylation__update__Returned in Hup' as (M' & Hscan & _).
    destruct (scan_ROIs_rows _ _ _ _ _ _ _ _ Hnd Hscan) as (_ & _ & Hrows).
    destruct (Hrows R roi fp Hin Hfp) as (pixels & Hcrop & _ & Hrow).
    exists (roi_values roi (masks self) pixels). split; [exact Hrow |].
    assert (Hlen : length pixels = length (zip (ypos roi) (xpos roi)))
      by (apply (take_points_length frame); exact Hcrop).
    destruct (roi_values_at roi (masks self) pixels j name c Hlen Hj) as [H0 H1].
    rewrite (matched_pixels_empty_interval _ _ _ Hle) in H0, H1. now split.
Qed.

Lemma class_with_empty_interval_reports_NaN_witness :
  let self := {| masks := [("red", ColorMask__init__ example_hsv (Qc_of_Z 350) (Qc_of_Z 10))];
                 ROIs := example_ROIs; maskdir := "out"; resultdir := "out";
                 _masknames := ["red"];
                 _resultfiles := {["A" := fresh_result_file "out" "clip" ["red"] "A"]};
                 _maskfile := None |} in
  (forall hues,
     count_nonzero (ColorMask_apply (ColorMask__init__ example_hsv (Qc_of_Z 350) (Qc_of_Z 10))
                      hues) = 0%nat)
  /\ exists values,
       _resultfiles (Pixylation__update__ 0 example_frame self).1 !! "A"
       = Some (with_row (fresh_result_file "out" "clip" ["red"] "A") (result_row 0 values))
       /\ values !! (2 * 0)%nat = Some NaN
       /\ values !! (2 * 0 + 1)%nat = Some NaN.
Proof.
  intros self.
  apply (class_with_empty_interval_reports_NaN 0 example_frame self
           (Pixylation__update__ 0 example_frame self).1 "A"
           (RectangularROI (rect_specs 0 0 2 2))
           (fresh_result_file "out" "clip" ["red"] "A") 0 "red"
           (ColorMask__init__ example_hsv (Qc_of_Z 350) (Qc_of_Z 10))).
  - vm_compute; reflexivity.
  - apply (bool_decide_unpack _). vm_compute; reflexivity.
  - vm_compute. apply list_elem_of_here.
  - vm_compute; reflexivity.
  - vm_compute; reflexivity.
  - vm_compute; discriminate.
Defined.

(** X15: pixels without a hue are invisible to every class whose interval starts
    at 0 or above: a pixel with R = G = B (black, grey, white) is never among
    the matched pixels, so it neither moves a centroid nor gets painted. *)
Theorem achromatic_pixels_are_never_matched (on off : Qc) (region : list located)
    (t : located) :
  (0 <= on)%Qc -> t ∈ matched_pixels on off region ->
  ~ achromatic (red (loc_pixel t)) (green (loc_pixel t)) (blue (loc_pixel t)).
Proof.
  intros Hon Ht Hgrey. apply elem_of_matched_pixels in Ht as [_ Hin].
  pose proof (hue_in_nonneg on off _ Hon Hin) as Hh.
  apply _Htable_sentinel_iff in Hgrey. unfold hue_of in Hh. lia.
Qed.

Lemma achromatic_pixels_are_never_matched_witness :
  ~ achromatic (red (loc_pixel (1, 1, RGB 200 10 10)))
      (green (loc_pixel (1, 1, RGB 200 10 10))) (blue (loc_pixel (1, 1, RGB 200 10 10))).
Proof.
  apply (achromatic_pixels_are_never_matched 0%Qc (Qc_of_Z 30)
           [(0, 0, RGB 128 128 128); (1, 1, RGB 200 10 10)] (1, 1, RGB 200 10 10)).
  - vm_compute; discriminate.
  - vm_compute. apply list_elem_of_here.
Defined.

Lemma to_byte_level_range (c : Qc) :
  (0 <= c)%Qc -> (c <= 1)%Qc -> 0 <= to_byte_level c <= 255.
Proof.
  intros H0 H1. unfold to_byte_level.
  assert (Hlo : (0 <= c * Qc_of_Z 255)%Qc).
  { apply Qcmult_nonneg_nonneg; [exact H0 | discriminate]. }
  assert (Hhi : (c * Qc_of_Z 255 <= Qc_of_Z 255)%Qc).
  { replace (Qc_of_Z 255) with (1 * Qc_of_Z 255)%Qc at 2 by ring.
    apply Qcmult_le_compat_r; [exact H1 | discriminate]. }
  split.
  - apply around_lower. exact Hlo.
  - apply around_upper. exact Hhi.
Qed.

(** X16: the display colour of a class is a valid 8-bit colour whenever the
    colormap returns components between 0 and 1, as [matplotlib.cm.hsv]
    does: each channel is one of 0..255. *)
Theorem class_colour_is_8_bit (_hsv : colormap) (on off : Qc) :
  (forall t, (0 <= (_hsv t).1.1 <= 1)%Qc /\ (0 <= (_hsv t).1.2 <= 1)%Qc
             /\ (0 <= (_hsv t).2 <= 1)%Qc) ->
  pixel_ok (color (ColorMask__init__ _hsv on off)).
Proof.
  intros Hmap.
  unfold ColorMask__init__, hue_color. cbn [color].
  destruct (Hmap ((on + off) / Qc_of_Z 720)%Qc) as ([Hr0 Hr1] & [Hg0 Hg1] & [Hb0 Hb1]).
  destruct (_hsv ((on + off) / Qc_of_Z 720)%Qc) as [[r g] b]. cbn [fst snd] in *.
  unfold pixel_ok, uint8. cbn [red green blue].
  repeat split; now apply to_byte_level_range.
Qed.

Lemma class_colour_is_8_bit_witness :
  pixel_ok (color (ColorMask__init__ example_hsv 0%Qc (Qc_of_Z 30))).
Proof.
  apply (class_colour_is_8_bit example_hsv 0%Qc (Qc_of_Z 30)).
  intros t. vm_compute. repeat split; discriminate.
Defined.

(** ** Building the engine ([Pixylation.__init__]) *)





(** ** The projection command ([Projection]) *)

Lemma grid_lookup_frame_max (a b : list (list Pixel)) (q : nat * nat) :
  grid_lookup (frame_max a b) q
  = match grid_lookup a q, grid_lookup b q with
    | Some x, Some y => Some (pixel_max x y)
    | _, _ => None
    end.
Proof.
  unfold grid_lookup, frame_max. rewrite lookup_zip_with.
  destruct (a !! q.1) as [ra |]; [| reflexivity]. cbn [mbind option_bind].
  destruct (b !! q.1) as [rb |]; cbn [mbind option_bind].
  - rewrite lookup_zip_with. destruct (ra !! q.2) as [x |]; [| reflexivity].
    cbn [mbind option_bind]. now destruct (rb !! q.2).
  - now destruct (ra !! q.2).
Qed.

Lemma channel_pixel_max (ch : Pixel -> Z) (x y : Pixel) :
  ch = red \/ ch = green \/ ch = blue -> ch (pixel_max x y) = Z.max (ch x) (ch y).
Proof. intros [-> | [-> | ->]]; reflexivity. Qed.

Lemma same_shape_frame_max (ref f b : list (list Pixel)) :
  same_shape ref f -> same_shape ref b -> same_shape ref (frame_max f b).
Proof.
  unfold same_shape, frame_max. intros Hf. revert b.
  induction Hf as [| r rf ref f Hr Hf IH]; intros b Hb.
  - inversion Hb; subst. constructor.
  - inversion Hb as [| ? rb ? b' Hrb Hb']; subst. simpl. constructor.
    + rewrite length_zip_with. lia.
    + now apply IH.
Qed.

(** The buffer after any number of frames, against the buffer before them. *)
Lemma max_projection_spec (ref b0 : list (list Pixel))
    (rest : list (list (list Pixel))) :
  same_shape ref b0 -> Forall (same_shape ref) rest ->
  same_shape ref (max_projection b0 rest)
  /\ forall ch, ch = red \/ ch = green \/ ch = blue ->
     forall q v, channel_at ch (max_projection b0 rest) q = Some v ->
       (exists u, channel_at ch b0 q = Some u /\ u <= v)
       /\ (forall f, f ∈ rest -> exists u, channel_at ch f q = Some u /\ u <= v)
       /\ (channel_at ch b0 q = Some v
           \/ exists f, f ∈ rest /\ channel_at ch f q = Some v).
Proof.
  intros Hb0 Hrest. revert b0 Hb0.
  induction Hrest as [| f1 rest Hf1 Hrest IH]; intros b0 Hb0.
  - split; [exact Hb0 |]. intros ch Hch q v Hv. simpl in Hv.
    split; [exists v; split; [exact Hv | lia] |].
    split; [intros f Hf; inversion Hf | now left].
  - unfold max_projection. cbn [foldl]. fold (max_projection (frame_max f1 b0) rest).
    destruct (IH (frame_max f1 b0) (same_shape_frame_max _ _ _ Hf1 Hb0)) as [Hshape Hval].
    split; [exact Hshape |]. intros ch Hch q v Hv.
    destruct (Hval ch Hch q v Hv) as ((u & Hu & Hle) & Hall & Hatt).
    assert (Hstep : forall w, channel_at ch (frame_max f1 b0) q = Some w ->
              exists x y, channel_at ch f1 q = Some x /\ channel_at ch b0 q = Some y
                          /\ w = Z.max x y).
    { intros w Hw. unfold channel_at in Hw |- *. rewrite grid_lookup_frame_max in Hw.
      destruct (grid_lookup f1 q) as [x |]; [| discriminate Hw].
      destruct (grid_lookup b0 q) as [y |]; [| discriminate Hw].
      simpl in Hw. injection Hw as <-. exists (ch x), (ch y).
      repeat split. now apply channel_pixel_max. }
    destruct (Hstep u Hu) as (x & y & Hx & Hy & ->).
    split; [exists y; split; [exact Hy | lia] |]. split.
    + intros f Hf. apply elem_of_cons in Hf as [-> | Hf].
      * exists x. split; [exact Hx | lia].
      * now apply Hall.
    + destruct Hatt as [Hb | (f & Hf & Hfv)].
      * destruct (Hstep v Hb) as (x' & y' & Hx' & Hy' & Hmax).
        destruct (Z.max_spec x' y') as [[_ Hm] | [_ Hm]]; rewrite Hm in Hmax; subst v.
        -- now left.
        -- right. exists f1. split; [apply list_elem_of_here | exact Hx'].
      * right. exists f. split; [now apply list_elem_of_further | exact Hfv].
Qed.

Lemma same_shape_refl (a : list (list Pixel)) : same_shape a a.
Proof. unfold same_shape. induction a; constructor; auto. Qed.

(** X18: in its default mode the projection is the pixelwise maximum: after the
    frames of a video, all of one shape, the buffer has their shape, and at
    every position each channel holds a value that no frame exceeds there
    and that some frame has there.  The order of the frames plays no part. *)
Theorem max_projection_is_the_pixelwise_maximum (f0 : list (list Pixel))
    (rest : list (list (list Pixel))) :
  Forall (same_shape f0) rest ->
  let b := max_projection f0 rest in
  same_shape f0 b
  /\ forall ch, ch = red \/ ch = green \/ ch = blue ->
     forall q v, channel_at ch b q = Some v ->
       (forall f, f ∈ f0 :: rest -> exists u, channel_at ch f q = Some u /\ u <= v)
       /\ (exists f, f ∈ f0 :: rest /\ channel_at ch f q = Some v).
Proof.
  intros Hrest b. subst b.
  destruct (max_projection_spec f0 f0 rest (same_shape_refl f0) Hrest) as [Hshape Hval].
  split; [exact Hshape |]. intros ch Hch q v Hv.
  destruct (Hval ch Hch q v Hv) as (H0 & Hall & Hatt). split.
  - intros f Hf. apply elem_of_cons in Hf as [-> | Hf]; [exact H0 | now apply Hall].
  - destruct Hatt as [Hb | (f & Hf & Hfv)].
    + exists f0. split; [apply list_elem_of_here | exact Hb].
    + exists f. split; [now apply list_elem_of_further | exact Hfv].
Qed.

Lemma max_projection_is_the_pixelwise_maximum_witness :
  let b := max_projection example_frame [example_frame_later] in
  same_shape example_frame b
  /\ forall ch, ch = red \/ ch = green \/ ch = blue ->
     forall q v, channel_at ch b q = Some v ->
       (forall f, f ∈ example_frame :: [example_frame_later] ->
                  exists u, channel_at ch f q = Some u /\ u <= v)
       /\ (exists f, f ∈ example_frame :: [example_frame_later]
                     /\ channel_at ch f q = Some v).
Proof.
  apply (max_projection_is_the_pixelwise_maximum example_frame [example_frame_later]).
  repeat constructor.
Defined.

Lemma projection_feed (frames : list (list (list Pixel))) (i : nat)
    (self : Projection) (log : list event) (os : OS) (b0 : list (list Pixel)) :
  _buffer self = Some b0 ->
  feed (H := Projection_batch os) frames i self log
  = ({| outdir := outdir self; _buffer := Some (max_projection b0 frames);
        _outname := _outname self; _imsaved := _imsaved self |},
     log ++ (EvFrame <$> seq i (length frames)), None).
Proof.
  revert i self log b0. induction frames as [| f rest IH]; intros i self log b0 Hb.
  - simpl. rewrite app_nil_r. destruct self; simpl in *. now subst.
  - cbn [feed __update__ Projection_batch]. unfold Projection__update__. rewrite Hb.
    rewrite IH with (b0 := frame_max f b0) by reflexivity. simpl.
    now rewrite <- app_assoc.
Qed.

Lemma projection_feed_start (f0 : list (list Pixel)) (rest : list (list (list Pixel)))
    (self : Projection) (log : list event) (os : OS) :
  _buffer self = None ->
  feed (H := Projection_batch os) (f0 :: rest) 0 self log
  = ({| outdir := outdir self; _buffer := Some (max_projection f0 rest);
        _outname := _outname self; _imsaved := _imsaved self |},
     log ++ (EvFrame <$> seq 0 (S (length rest))), None).
Proof.
  intros Hb. cbn [feed]. cbn [__update__ Projection_batch].
  unfold Projection__update__. rewrite Hb.
  rewrite projection_feed with (b0 := f0) by reflexivity.
  cbn [outdir _outname _imsaved]. now rewrite <- app_assoc.
Qed.

(** X19: a projection job writes one image, <outdir>/<B>.png, B being the file
    name without its extension: the pixelwise maximum of all the frames the
    video delivered.  [__done__] does not look at [err], so the image of the
    frames seen so far is written even when decoding broke off and the job
    ends with that exception.  The buffer is released afterwards. *)
Theorem projection_job_saves_the_maximum (os : OS) (path : string)
    (self : Projection) (v : Video) (f0 : list (list Pixel))
    (rest : list (list (list Pixel))) :
  video_at os path = Some v ->
  vframes v = f0 :: rest ->
  ensure_directory os (outdir self) = true ->
  let name := os_path_tail path in
  let png := os_path_join (outdir self) ((os_path_splitext name).1 +:+ ".png") in
  can_open os png = true ->
  let r := run_file (H := Projection_batch os) os path self in
  _imsaved (run_state r) = _imsaved self ++ [(png, max_projection f0 rest)]
  /\ _buffer (run_state r) = None
  /\ (run_raised r = None <-> vbroken v = false)
  /\ run_reader r = Some {| rpath := path; rvideo := v; rclosed := true |}.
Proof.
  intros Hv Hframes Hdir name png Hopen r. subst r. unfold run_file.
  rewrite Hv. fold name. cbn [__start__ __done__ Projection_batch].
  unfold Projection__start__, iterate. rewrite Hframes.
  rewrite projection_feed_start by reflexivity.
  cbn [outdir _outname _imsaved _buffer].
  assert (Hdone : forall err,
    Projection__done__ os name err
      {| outdir := outdir self; _buffer := Some (max_projection f0 rest);
         _outname := (os_path_splitext name).1 +:+ ".png"; _imsaved := _imsaved self |}
    = ({| outdir := outdir self; _buffer := None;
          _outname := (os_path_splitext name).1 +:+ ".png";
          _imsaved := _imsaved self ++ [(png, max_projection f0 rest)] |}, Returned)).
  { intros err. unfold Projection__done__. cbn [outdir _outname _imsaved _buffer].
    rewrite Hdir. cbn [negb]. fold png. now rewrite Hopen. }
  destruct (vbroken v) eqn:Hb.
  - rewrite Hdone. cbn [run_state run_raised run_reader _imsaved _buffer].
    repeat split; discriminate.
  - cbn [length]. rewrite bool_decide_eq_false_2 by discriminate.
    rewrite Hdone. cbn [run_state run_raised run_reader _imsaved _buffer].
    repeat split.
Qed.

Lemma projection_job_saves_the_maximum_witness :
  let self := {| outdir := "proj"; _buffer := None; _outname := ""; _imsaved := [] |} in
  let r := run_file (H := Projection_batch example_os_broken) example_os_broken
             "videos/clip.mp4" self in
  _imsaved (run_state r)
  = _imsaved self
      ++ [(os_path_join (outdir self)
             ((os_path_splitext (os_path_tail "videos/clip.mp4")).1 +:+ ".png"),
           max_projection example_frame [example_frame_later])]
  /\ _buffer (run_state r) = None
  /\ (run_raised r = None <-> true = false)
  /\ run_reader r
     = Some {| rpath := "videos/clip.mp4";
               rvideo := {| vframes := [example_frame; example_frame_later];
                            vbroken := true |};
               rclosed := true |}.
Proof.
  intros self.
  apply (projection_job_saves_the_maximum example_os_broken "videos/clip.mp4" self
           {| vframes := [example_frame; example_frame_later]; vbroken := true |}
           example_frame [example_frame_later]).
  - reflexivity.
  - reflexivity.
  - reflexivity.
  - reflexivity.
Defined.

(** ** The lines of a result file *)

Lemma count_char_app (c : Ascii.ascii) (a b : string) :
  count_char c (a +:+ b) = (count_char c a + count_char c b)%nat.
Proof.
  induction a as [| ch a IH]; [reflexivity |].
  change (count_char c (String ch (a +:+ b))
          = (count_char c (String ch a) + count_char c b)%nat).
  cbn [count_char]. rewrite IH. lia.
Qed.

Lemma pretty_N_char_plain (c : Ascii.ascii) (x : N) :
  c = ","%char \/ c = "010"%char -> pretty_N_char x <> c.
Proof.
  intros [-> | ->]; unfold pretty_N_char; repeat case_match; discriminate.
Qed.

Lemma count_char_pretty_N_go (c : Ascii.ascii) (x : N) (s : string) :
  c = ","%char \/ c = "010"%char ->
  count_char c (pretty_N_go x s) = count_char c s.
Proof.
  intros Hc. revert s. induction (N.lt_wf_0 x) as [x _ IH]; intros s.
  assert (x = 0 \/ 0 < x)%N as [-> | Hx] by lia.
  - now rewrite pretty_N_go_0.
  - rewrite pretty_N_go_step by exact Hx.
    rewrite IH by (apply N.div_lt; [exact Hx | reflexivity]).
    cbn [count_char].
    rewrite bool_decide_eq_false_2 by (apply pretty_N_char_plain; exact Hc).
    reflexivity.
Qed.

Lemma count_char_pretty_N (c : Ascii.ascii) (x : N) :
  c = ","%char \/ c = "010"%char -> count_char c (pretty x) = 0%nat.
Proof.
  intros Hc. unfold pretty, pretty_N. destruct (decide (x = 0%N)).
  - destruct Hc as [-> | ->]; reflexivity.
  - now rewrite count_char_pretty_N_go.
Qed.

Lemma count_char_pretty_Z (c : Ascii.ascii) (z : Z) :
  c = ","%char \/ c = "010"%char -> count_char c (pretty z) = 0%nat.
Proof.
  intros Hc. unfold pretty, pretty_Z. destruct z as [| p | p].
  - destruct Hc as [-> | ->]; reflexivity.
  - apply (count_char_pretty_N c (Npos p) Hc).
  - rewrite count_char_app.
    change (pretty p) with (pretty (Npos p)). rewrite (count_char_pretty_N c _ Hc).
    destruct Hc as [-> | ->]; reflexivity.
Qed.

Lemma count_char_four_digits (c : Ascii.ascii) (n : Z) :
  c = ","%char \/ c = "010"%char -> count_char c (four_digits n) = 0%nat.
Proof.
  intros Hc. unfold four_digits, digit. cbn [count_char].
  rewrite !bool_decide_eq_false_2 by (apply pretty_N_char_plain; exact Hc).
  reflexivity.
Qed.

Lemma count_char_format_4f (c : Ascii.ascii) (v : float) :
  c = ","%char \/ c = "010"%char -> count_char c (format_4f v) = 0%nat.
Proof.
  intros Hc. destruct v as [| [|] | q].
  - destruct Hc as [-> | ->]; reflexivity.
  - destruct Hc as [-> | ->]; reflexivity.
  - destruct Hc as [-> | ->]; reflexivity.
  - unfold format_4f. rewrite !count_char_app.
    rewrite (count_char_pretty_Z c _ Hc), (count_char_four_digits c _ Hc).
    destruct (bool_decide (q < 0)%Qc); destruct Hc as [-> | ->]; reflexivity.
Qed.

Lemma count_char_str_join (c : Ascii.ascii) (parts : list string) :
  Forall (fun p => count_char c p = 0%nat) parts ->
  count_char c (str_join (String c "") parts) = (length parts - 1)%nat.
Proof.
  induction 1 as [| p parts Hp Hparts IH]; [reflexivity |].
  destruct parts as [| p' parts]; [simpl; exact Hp |].
  change (str_join (String c "") (p :: p' :: parts))
    with (p +:+ String c "" +:+ str_join (String c "") (p' :: parts)).
  rewrite !count_char_app, Hp, IH. cbn [count_char length].
  rewrite bool_decide_eq_true_2 by reflexivity. lia.
Qed.

(** X20: every data row has the columns of the header: when no class name holds
    a comma, the header of a result file has one field for the frame index
    and two per class, and so has every row written for that many values,
    whatever the values are (finite, infinite or NaN); a row is one line. *)
Theorem rows_have_the_columns_of_the_header (masknames : list string) (i : nat)
    (values : list float) :
  masknames <> [] ->
  Forall (fun name => count_char ","%char name = 0%nat) masknames ->
  length values = (2 * length masknames)%nat ->
  count_char ","%char (result_header masknames) = (2 * length masknames)%nat
  /\ count_char ","%char (result_row i values) = (2 * length masknames)%nat
  /\ count_char "010"%char (result_row i values) = 1%nat.
Proof.
  intros Hne Hnames Hlen.
  assert (Hvals : forall c, c = ","%char \/ c = "010"%char ->
            Forall (fun p => count_char c p = 0%nat) (format_4f <$> values)).
  { intros c Hc. apply Forall_fmap, Forall_forall. intros v _.
    apply count_char_format_4f, Hc. }
  split; [| split].
  - unfold result_header. rewrite !count_char_app.
    assert (Hentries : count_char ","%char (str_join "," (_mask_entries <$> masknames))
                       = (2 * length masknames - 1)%nat).
    { clear Hlen Hvals. induction Hnames as [| name names Hname Hnames IH];
        [now contradiction Hne |].
      destruct names as [| name' names].
      - simpl. unfold _mask_entries. rewrite !count_char_app, Hname. reflexivity.
      - change (str_join "," (_mask_entries <$> name :: name' :: names))
          with (_mask_entries name +:+ "," +:+ str_join "," (_mask_entries <$> name' :: names)).
        rewrite !count_char_app, IH by discriminate.
        unfold _mask_entries. rewrite !count_char_app, Hname.
        cbn [count_char length]. simpl. lia. }
    rewrite Hentries. destruct masknames; [now contradiction Hne |]. simpl. lia.
  - unfold result_row. rewrite !count_char_app.
    change (pretty i) with (pretty (N.of_nat i)).
    rewrite (count_char_pretty_N ","%char) by now left.
    rewrite (count_char_str_join ","%char) by (apply Hvals; now left).
    rewrite length_fmap, Hlen. destruct masknames; [now contradiction Hne |].
    simpl. lia.
  - unfold result_row. rewrite !count_char_app.
    change (pretty i) with (pretty (N.of_nat i)).
    rewrite (count_char_pretty_N "010"%char) by now right.
    assert (Hjoin : count_char "010"%char (str_join "," (format_4f <$> values)) = 0%nat).
    { specialize (Hvals "010"%char (or_intror eq_refl)).
      induction Hvals as [| p parts Hp Hparts IH]; [reflexivity |].
      destruct parts as [| p' parts]; [simpl; exact Hp |].
      change (str_join "," (p :: p' :: parts))
        with (p +:+ "," +:+ str_join "," (p' :: parts)).
      rewrite !count_char_app, Hp, IH. reflexivity. }
    rewrite Hjoin. reflexivity.
Qed.

Lemma rows_have_the_columns_of_the_header_witness :
  count_char ","%char (result_header ["red"; "warm"; "cyan"])
  = (2 * length ["red"; "warm"; "cyan"])%nat
  /\ count_char ","%char (result_row 7 [NaN; NaN; Inf true; NaN; NaN; NaN])
     = (2 * length ["red"; "warm"; "cyan"])%nat
  /\ count_char "010"%char (result_row 7 [NaN; NaN; Inf true; NaN; NaN; NaN]) = 1%nat.
Proof.
  apply (rows_have_the_columns_of_the_header ["red"; "warm"; "cyan"] 7
           [NaN; NaN; Inf true; NaN; NaN; NaN]).
  - discriminate.
  - repeat constructor.
  - reflexivity.
Defined.

(** ** Where a centroid can lie *)

Lemma np_sum_cons (a : Qc) (l : list Qc) : np_sum (a :: l) = (a + np_sum l)%Qc.
Proof. reflexivity. Qed.

Lemma weighted_sum_bounds {A} (f g : A -> Qc) (l : list A) (lo hi : Qc) :
  (forall t, t ∈ l -> (lo <= f t)%Qc /\ (f t <= hi)%Qc /\ (0 <= g t)%Qc) ->
  (lo * np_sum (g <$> l) <= np_sum ((fun t => f t * g t)%Qc <$> l))%Qc
  /\ (np_sum ((fun t => f t * g t)%Qc <$> l) <= hi * np_sum (g <$> l))%Qc.
Proof.
  induction l as [| a l IH]; intros Hall.
  - csimpl. unfold np_sum; simpl. rewrite !Qcmult_0_r. split; apply Qcle_refl.
  - destruct (Hall a (list_elem_of_here _ _)) as (Hlo & Hhi & Hg).
    destruct IH as [IHlo IHhi].
    { intros t Ht. apply Hall. now apply list_elem_of_further. }
    rewrite !fmap_cons, !np_sum_cons. split.
    + replace (lo * (g a + np_sum (g <$> l)))%Qc
        with (lo * g a + lo * np_sum (g <$> l))%Qc by ring.
      apply Qcplus_le_compat; [| exact IHlo].
      now apply Qcmult_le_compat_r.
    + replace (hi * (g a + np_sum (g <$> l)))%Qc
        with (hi * g a + hi * np_sum (g <$> l))%Qc by ring.
      apply Qcplus_le_compat; [| exact IHhi].
      now apply Qcmult_le_compat_r.
Qed.

(** X21: a centroid lies among the pixels it is taken over: for 8-bit pixels and
    a class whose interval starts at 0 or above, the value reported for a
    coordinate is finite and lies between the smallest and the largest
    coordinate of the matched pixels, both counted from 1.  A region inside
    a rectangle therefore never reports a position outside of it. *)
Theorem centroid_lies_among_the_matched_pixels (coord : located -> Z) (on off : Qc)
    (region : list located) (lo hi : Z) :
  Forall (fun t => pixel_ok (loc_pixel t)) region -> (0 <= on)%Qc ->
  let pts := matched_pixels on off region in
  pts <> [] ->
  (forall t, t ∈ pts -> lo <= coord t <= hi) ->
  exists c, one_based_centroid coord pts = Fin c
            /\ (Qc_of_Z (lo + 1) <= c)%Qc /\ (c <= Qc_of_Z (hi + 1))%Qc.
Proof.
  intros Hok Hon pts Hne Hbox.
  pose proof (one_based_centroid_finite coord on off region Hok Hon Hne) as Hfin.
  fold pts in Hfin. rewrite Hfin.
  eexists. split; [reflexivity |].
  set (W := np_sum ((fun t => luma_of (loc_pixel t)) <$> pts)).
  set (S := np_sum ((fun t => (Qc_of_Z (coord t + 1) * luma_of (loc_pixel t))%Qc) <$> pts)).
  assert (Hpos : forall t, t ∈ pts -> (0 < luma_of (loc_pixel t))%Qc).
  { intros t Ht. apply elem_of_matched_pixels in Ht as [Hreg Hin].
    apply luma_of_chromatic_pos.
    - rewrite Forall_forall in Hok. now apply Hok.
    - pose proof (hue_in_nonneg on off _ Hon Hin). lia. }
  assert (HW : (0 < W)%Qc).
  { apply np_sum_pos.
    - intros H0. apply fmap_nil_inv in H0. contradiction.
    - apply Forall_fmap, Forall_forall. intros t Ht. now apply Hpos. }
  destruct (weighted_sum_bounds (fun t => Qc_of_Z (coord t + 1))
              (fun t => luma_of (loc_pixel t)) pts
              (Qc_of_Z (lo + 1)) (Qc_of_Z (hi + 1))) as [Hlo Hhi].
  { intros t Ht. destruct (Hbox t Ht) as [H1 H2]. split; [| split].
    - apply (proj1 (Z2Qc_inj_le (lo + 1) (coord t + 1))). lia.
    - apply (proj1 (Z2Qc_inj_le (coord t + 1) (hi + 1))). lia.
    - apply Qclt_le_weak. now apply Hpos. }
  fold W in Hlo, Hhi. fold S in Hlo, Hhi.
  assert (HSW : (S / W * W = S)%Qc) by (field; now apply Qc_pos_neq_0).
  split.
  - apply (Qcmult_lt_0_le_reg_r _ _ W HW). now rewrite HSW.
  - apply (Qcmult_lt_0_le_reg_r _ _ W HW). now rewrite HSW.
Qed.

Lemma centroid_lies_among_the_matched_pixels_witness :
  let region := [(0, 0, RGB 255 0 0); (1, 0, RGB 255 255 0); (0, 1, RGB 0 255 0);
                 (1, 1, RGB 200 10 10)] in
  let pts := matched_pixels 0%Qc (Qc_of_Z 30) region in
  exists c, one_based_centroid loc_x pts = Fin c
            /\ (Qc_of_Z (0 + 1) <= c)%Qc /\ (c <= Qc_of_Z (1 + 1))%Qc.
Proof.
  intros region pts.
  apply (centroid_lies_among_the_matched_pixels loc_x 0%Qc (Qc_of_Z 30) region 0 1).
  - repeat constructor; vm_compute; discriminate.
  - vm_compute; discriminate.
  - vm_compute; discriminate.
  - intros t Ht. vm_compute in Ht.
    apply elem_of_cons in Ht as [-> | Ht]; [vm_compute; split; discriminate |].
    apply list_elem_of_singleton in Ht as ->. vm_compute; split; discriminate.
Defined.
